(** * mrpack-updater: the pack resolution and rebuild engine

    A shallow embedding of the resolution core of [script.js] (and of the
    earlier single-file variant of the same code): the bounded scheduler
    [mapLimitProgress], the version selection of [getBestTargetVersion], the
    per-project task of [Modpack.analyze] with its GitHub fallback
    [fetchCarpetGitHubRelease], [pickPrimaryFile], and the manifest
    reconstruction of [Modpack.build]; then of what surrounds it: the
    reading of the pack in [Modpack.analyze], the summary and the tables of
    the rows, the string helpers ([escapeHtml], [slugify],
    [parseModpackNames], [parseVersion], [compareVersions]) and the tracker
    of missing items ([MissingItemsManager]). *)

From stdpp Require Import gmap strings list fin_maps pretty sorting.
From Stdlib Require Import ZArith Lia Ascii.

Set Default Proof Using "Type".

(** ** JavaScript values used by the code *)

(** A settled promise: [fn(items[idx])] eventually fulfils with a value or
    rejects with a reason. *)
Inductive Settled (V E : Type) : Type :=
| Fulfilled (v : V)
| Rejected (e : E).
Arguments Fulfilled {V E} v.
Arguments Rejected {V E} e.

(** [out[idx] = v] on a JavaScript array: in range the slot is overwritten,
    out of range the array grows (holes in between). *)
Definition array_set {A : Type} (a : list (option A)) (idx : nat) (v : A)
  : list (option A) :=
  if decide (idx < length a) then <[idx := Some v]> a
  else a ++ replicate (idx - length a) None ++ [Some v].

(** ** The bounded scheduler [mapLimitProgress] *)

Module Scheduler.

(** Calls that leave the scheduler: a task is started ([fn(items[idx])]),
    the progress callback fires ([onTick(done, items.length)]). *)
Inductive Obs : Type :=
| Start (idx : nat)
| Tick (done total : nat).

(** Where the body of [mapLimitProgress] stands.  [AwaitRun idx] is
    [await run(idx)], which is itself suspended on [await p];
    [AwaitRace snap] is [await Promise.race(running)] on the promises that
    were in [running] when the race was built. *)
Inductive Pc (E : Type) : Type :=
| AtOuter
| AtInner
| AwaitRun (idx : nat)
| AtIfRunning
| AwaitRace (snap : gset nat)
| Returned
| Thrown (e : E).
Arguments AtOuter {E}.
Arguments AtInner {E}.
Arguments AwaitRun {E} idx.
Arguments AtIfRunning {E}.
Arguments AwaitRace {E} snap.
Arguments Returned {E}.
Arguments Thrown {E} e.

(** The closure state of one call: [i], [done], [running] (a promise is
    named by the index of its task), [out], and the calls made so far. *)
Record State (V E : Type) : Type := mkState {
  st_pc : Pc E;
  st_i : nat;
  st_done : nat;
  st_running : gset nat;
  st_out : list (option V);
  st_log : list Obs
}.
Arguments mkState {V E}.
Arguments st_pc {V E}.
Arguments st_i {V E}.
Arguments st_done {V E}.
Arguments st_running {V E}.
Arguments st_out {V E}.
Arguments st_log {V E}.

(** What the event loop can do next: resume the body of [mapLimitProgress]
    up to its next test or [await], or settle the promise of a task that is
    in flight.  A run is a list of such events; the order in which [Settle]
    events arrive is the completion timing of the tasks. *)
Inductive Event : Type :=
| Main
| Settle (idx : nat).

Section mapLimitProgress.
Context {Item V E : Type}.
Variable items : list Item.
Variable limit : nat.
Variable fn : Item -> Settled V E.

Definition with_pc (s : State V E) (p : Pc E) : State V E :=
  mkState p (st_i s) (st_done s) (st_running s) (st_out s) (st_log s).

(** [const out = new Array(items.length); let i = 0, done = 0;
    const running = new Set();] *)
Definition init : State V E :=
  mkState AtOuter 0 0 ∅ (replicate (length items) None) [].

(** The promise [p] of task [idx] settles with [r]:
    [.then(v => out[idx] = v)] runs on fulfilment only, [.finally] runs
    [running.delete(p); done++; onTick?.(done, items.length)] in both
    cases, and whoever awaits [p] is resumed or receives the rejection. *)
Definition settle (s : State V E) (idx : nat) (r : Settled V E) : State V E :=
  let out' := match r with
              | Fulfilled v => array_set (st_out s) idx v
              | Rejected _ => st_out s
              end in
  let awaited := match st_pc s with
                 | AwaitRun k => bool_decide (k = idx)
                 | AwaitRace snap => bool_decide (idx ∈ snap)
                 | _ => false
                 end in
  let pc' := if awaited then
               match r, st_pc s with
               | Rejected e, _ => Thrown e
               | Fulfilled _, AwaitRun _ => AtInner
               | Fulfilled _, _ => AtOuter
               end
             else st_pc s in
  mkState pc' (st_i s) (S (st_done s)) (st_running s ∖ {[idx]}) out'
          (st_log s ++ [Tick (S (st_done s)) (length items)]).

(** The body of [mapLimitProgress] runs to its next test or [await]. *)
Definition main (s : State V E) : option (State V E) :=
  match st_pc s with
  | AtOuter =>
      (* while (i < items.length) ... return out *)
      if decide (st_i s < length items) then Some (with_pc s AtInner)
      else Some (with_pc s Returned)
  | AtInner =>
      (* while (running.size < limit && i < items.length) await run(i++) *)
      match decide (size (st_running s) < limit), items !! st_i s with
      | left _, Some _ =>
          Some (mkState (AwaitRun (st_i s)) (S (st_i s)) (st_done s)
                        ({[st_i s]} ∪ st_running s) (st_out s)
                        (st_log s ++ [Start (st_i s)]))
      | _, _ => Some (with_pc s AtIfRunning)
      end
  | AtIfRunning =>
      (* if (running.size) await Promise.race(running) *)
      if decide (size (st_running s) = 0) then Some (with_pc s AtOuter)
      else Some (with_pc s (AwaitRace (st_running s)))
  | AwaitRun _ | AwaitRace _ | Returned | Thrown _ => None
  end.

Definition step (s : State V E) (ev : Event) : option (State V E) :=
  match ev with
  | Main => main s
  | Settle idx =>
      if decide (idx ∈ st_running s) then
        match items !! idx with
        | Some x => Some (settle s idx (fn x))
        | None => None
        end
      else None
  end.

Fixpoint exec (tr : list Event) (s : State V E) : option (State V E) :=
  match tr with
  | [] => Some s
  | ev :: tr' =>
      match step s ev with
      | Some s' => exec tr' s'
      | None => None
      end
  end.

(** A state of some run of the call. *)
Definition reachable (s : State V E) : Prop :=
  ∃ tr, exec tr init = Some s.

(** Nothing can happen any more: the call has returned or thrown and no
    task is in flight. *)
Definition quiescent (s : State V E) : Prop :=
  ∀ ev, step s ev = None.

(** Tasks that were started so far. *)
Definition dispatched (s : State V E) (idx : nat) : Prop :=
  Start idx ∈ st_log s.

(** Running the same tasks one after the other in input order, as
    [for (const x of items) out.push(await fn(x))] would. *)
Fixpoint sequentialInOrder (l : list Item) : Settled (list (option V)) E :=
  match l with
  | [] => Fulfilled []
  | x :: l' =>
      match fn x with
      | Rejected e => Rejected e
      | Fulfilled v =>
          match sequentialInOrder l' with
          | Rejected e => Rejected e
          | Fulfilled vs => Fulfilled (Some v :: vs)
          end
      end
  end.

(** What the caller of [mapLimitProgress] gets once the call is over. *)
Definition result (s : State V E) : option (Settled (list (option V)) E) :=
  match st_pc s with
  | Returned => Some (Fulfilled (st_out s))
  | Thrown e => Some (Rejected e)
  | _ => None
  end.

(** The slot a task leaves in [out]. *)
Definition slot (x : Item) : option V :=
  match fn x with
  | Fulfilled v => Some v
  | Rejected _ => None
  end.

(** [out] once the first [k] tasks are over. *)
Definition filled (k : nat) : list (option V) :=
  (slot <$> take k items) ++ replicate (length items - k) None.

(** The calls made once the first [k] tasks are over. *)
Definition log_upto (k : nat) : list Obs :=
  flat_map (λ j, [Start j; Tick (S j) (length items)]) (seq 0 k).

Definition fulfilled_before (k : nat) : Prop :=
  ∀ j x, j < k → items !! j = Some x → ∃ v, fn x = Fulfilled v.

(** The invariant of the loop: tasks run one at a time, in input order. *)
Definition Inv (s : State V E) : Prop :=
  match st_pc s with
  | AtOuter | AtInner | AtIfRunning =>
      st_running s = ∅ ∧ st_done s = st_i s ∧ st_i s ≤ length items
      ∧ fulfilled_before (st_i s) ∧ st_out s = filled (st_i s)
      ∧ st_log s = log_upto (st_i s)
  | AwaitRun idx =>
      st_running s = {[idx]} ∧ st_i s = S idx ∧ st_done s = idx
      ∧ S idx ≤ length items
      ∧ fulfilled_before idx ∧ st_out s = filled idx
      ∧ st_log s = log_upto idx ++ [Start idx] ∧ 1 ≤ limit
  | AwaitRace _ => False
  | Returned =>
      st_running s = ∅ ∧ st_done s = length items ∧ st_i s = length items
      ∧ fulfilled_before (length items) ∧ st_out s = filled (length items)
      ∧ st_log s = log_upto (length items)
  | Thrown e =>
      st_running s = ∅ ∧ st_done s = st_i s ∧ st_i s ≤ length items
      ∧ ∃ idx x, st_i s = S idx ∧ items !! idx = Some x ∧ fn x = Rejected e
                 ∧ fulfilled_before idx ∧ st_out s = filled idx
                 ∧ st_log s = log_upto (S idx)
  end.

(** A bound on the number of events still to come (for [1 ≤ limit]). *)
Definition fuel (s : State V E) : nat :=
  8 * (length items - st_i s) +
  match st_pc s with
  | AwaitRun _ => 5
  | AtInner => if decide (st_i s < length items) then 1 else 3
  | AtIfRunning => if decide (st_i s < length items) then 3 else 2
  | AtOuter => if decide (st_i s < length items) then 2 else 1
  | AwaitRace _ | Returned | Thrown _ => 0
  end.

End mapLimitProgress.

End Scheduler.

Definition MAX_CONCURRENCY : nat := 6.

(** ** Truthiness and [||] on values that are a string or absent *)

(** [undefined], [null] and the empty string are falsy. *)
Definition truthy (o : option string) : bool :=
  match o with
  | Some s => negb (String.eqb s "")
  | None => false
  end.

(** [a || null] *)
Definition or_null (a : option string) : option string :=
  if truthy a then a else None.

(** [a || b] where [b] may be absent too *)
Definition or_opt (a b : option string) : option string :=
  if truthy a then a else b.

(** [a || "literal"] *)
Definition or_str (a : option string) (d : string) : string :=
  match or_null a with
  | Some s => s
  | None => d
  end.

(** A number is truthy unless it is [0] (or [NaN], which is never stored:
    [Number.isFinite] is tested before a size is kept). *)
Definition truthy_num (o : option Z) : bool :=
  match o with
  | Some n => negb (Z.eqb n 0)
  | None => false
  end.

(** ** Network calls

    Every [fetch] of the code goes through one of four endpoints.  A call
    is recorded when it is made; the answer comes from the outside world. *)

Inductive Call : Type :=
| GetVersions (projectId mc loader : string)
| GetProject (projectId : string)
| GetGitHubReleases
| GetFabricMeta (mc : string).

Global Instance Call_eq_dec : EqDecision Call.
Proof. solve_decision. Defined.

(** [res.ok] is false, or it is true and [res.json()] gives the body. *)
Inductive Response (A : Type) : Type :=
| NotOk (status : nat)
| Ok (body : A).
Arguments NotOk {A} status.
Arguments Ok {A} body.

(** An asynchronous computation: it appends the calls it makes to the log
    and settles. *)
Definition Net (A : Type) : Type := list Call → Settled A string * list Call.

Global Instance Net_ret : MRet Net :=
  λ A (a : A) log, (Fulfilled a, log).

(** [await]: a rejection of the awaited promise is thrown on. *)
Global Instance Net_bind : MBind Net :=
  λ A B (k : A → Net B) (m : Net A) log,
    match m log with
    | (Fulfilled a, log') => k a log'
    | (Rejected e, log') => (Rejected e, log')
    end.

(** [throw new Error(msg)] *)
Definition throw {A : Type} (msg : string) : Net A :=
  λ log, (Rejected msg, log).

(** [try { body } catch (e) { handler }] *)
Definition try_catch {A : Type} (body : Net A) (handler : string → Net A) : Net A :=
  λ log,
    match body log with
    | (Fulfilled a, log') => (Fulfilled a, log')
    | (Rejected e, log') => handler e log'
    end.

(** [Promise.all([a, b])]: both are started; the result rejects as soon as
    one of them does.  When both reject, the reason kept here is that of
    [a]. *)
Definition promise_all2 {A B : Type} (a : Net A) (b : Net B) : Net (A * B) :=
  λ log,
    let '(ra, log1) := a log in
    let '(rb, log2) := b log1 in
    match ra, rb with
    | Fulfilled x, Fulfilled y => (Fulfilled (x, y), log2)
    | Rejected e, _ => (Rejected e, log2)
    | _, Rejected e => (Rejected e, log2)
    end.

(** [fetch(url)] followed by the test of [res.ok] and [res.json()]: the
    call is logged, the world answers (or the promise rejects: network
    failure, body that is not JSON). *)
Definition fetch {A : Type} (c : Call) (answer : Settled (Response A) string)
  : Net (Response A) :=
  λ log, (answer, log ++ [c]).

(** ** Data of the registry and of the release feed *)

(** An entry of [version.files]. *)
Record VFile : Type := mkVFile {
  f_primary : bool;
  f_sha1 : option string;
  f_sha512 : option string;
  f_size : option Z;          (* [None]: absent or not a finite number *)
  f_url : option string;
  f_filename : option string
}.

(** A version of a project.  [date_published] is the timestamp as
    [new Date(...)] reads it (milliseconds); [files] is [None] when the
    field is absent or not an array. *)
Record Version : Type := mkVersion {
  v_name : option string;
  version_number : option string;
  version_type : string;
  date_published : Z;
  files : option (list VFile)
}.

(** A project as [getProjectsBatch] (or [getProject]) returns it. *)
Record Project : Type := mkProject {
  p_title : option string;
  p_slug : option string;
  project_type : option string;
  p_loaders : option (list string)
}.

(** An asset and a release of the GitHub feed. *)
Record Asset : Type := mkAsset {
  a_name : string;
  browser_download_url : option string
}.

Record Release : Type := mkRelease {
  draft : bool;
  prerelease : bool;
  tag_name : option string;
  published_at : option Z;
  created_at : option Z;
  assets : option (list Asset)
}.

(** The object [fetchCarpetGitHubRelease] returns. *)
Record GhBuild : Type := mkGhBuild {
  gh_version_number : string;
  gh_date_published : option Z;
  gh_download_url : option string;
  gh_source : string
}.

(** An entry of the Fabric meta answer: [x.loader.stable],
    [x.loader.version]. *)
Record LoaderEntry : Type := mkLoaderEntry {
  loader_stable : bool;
  loader_version : option string
}.

(** What the outside world answers to each call.  A body on which the
    code would throw counts as a rejection; a body that fails a test of
    [Array.isArray] is [None]. *)
Record World : Type := mkWorld {
  w_versions : string → string → string →
               Settled (Response (option (list Version))) string;
  w_project : string → Settled (Response Project) string;
  w_github : Settled (Response (list Release)) string;
  w_fabric_meta : string → Settled (Response (option (list LoaderEntry))) string
}.

(** ** Version selection: [getBestTargetVersion] *)

Module VersionPolicy.

(** [const tier = v => v.version_type === "release" ? 3 :
                       v.version_type === "beta" ? 2 : 1;] *)
Definition tier (v : Version) : Z :=
  if decide (version_type v = "release") then 3
  else if decide (version_type v = "beta") then 2
  else 1.

(** The comparator handed to [sort]. *)
Definition compare (a b : Version) : Z :=
  let t := (tier b - tier a)%Z in
  if decide (t ≠ 0%Z) then t
  else (date_published b - date_published a)%Z.

(** [Array.prototype.sort(cmp)]: the result is the stable arrangement in
    which [a] comes before [b] whenever [cmp(a, b) < 0].  Inserting the
    elements from the right, each one in front of the first element it does
    not come after, computes it. *)
Fixpoint sort_insert {A : Type} (cmp : A → A → Z) (x : A) (l : list A) : list A :=
  match l with
  | [] => [x]
  | y :: l' =>
      if decide (cmp x y ≤ 0)%Z then x :: y :: l'
      else y :: sort_insert cmp x l'
  end.

Definition array_sort {A : Type} (cmp : A → A → Z) (l : list A) : list A :=
  foldr (sort_insert cmp) [] l.

(** The part of [getBestTargetVersion] after the listing was fetched:
    [versions] is what [fetchModrinthVersions] returned ([None] for
    [null]). *)
Definition pickBest (versions : option (list Version)) : option Version :=
  match versions with
  | None | Some [] => None
  | Some vs => head (array_sort compare vs)
  end.

(** [a] comes strictly before [b] in the selection order: higher tier, or
    the same tier and published later. *)
Definition outranks (a b : Version) : Prop :=
  (tier b < tier a)%Z ∨ (tier a = tier b ∧ (date_published b < date_published a)%Z).

End VersionPolicy.

(** ** The GitHub fallback: [fetchCarpetGitHubRelease] *)

Module Fallback.

(** *** The three regular expressions, on the characters of a name *)

(** [\w] without the [u] flag: [A-Za-z0-9_]. *)
Definition is_word_char (c : ascii) : bool :=
  let n := nat_of_ascii c in
  ((48 <=? n) && (n <=? 57)) || ((65 <=? n) && (n <=? 90))
  || ((97 <=? n) && (n <=? 122)) || (n =? 95).

(** The [i] flag: letters are compared regardless of case. *)
Definition to_lower (c : ascii) : ascii :=
  let n := nat_of_ascii c in
  if (65 <=? n) && (n <=? 90) then ascii_of_nat (n + 32) else c.

Fixpoint starts_with (pat s : list ascii) : bool :=
  match pat, s with
  | [], _ => true
  | p :: pat', c :: s' => Ascii.eqb p c && starts_with pat' s'
  | _ :: _, [] => false
  end.

Fixpoint contains (pat s : list ascii) : bool :=
  starts_with pat s ||
  match s with
  | [] => false
  | _ :: s' => contains pat s'
  end.

Definition chars (s : string) : list ascii := String.list_ascii_of_string s.

(** [/\.jar$/i.test(name)] *)
Definition jar_re (name : string) : bool :=
  starts_with (rev (chars ".jar")) (rev (map to_lower (chars name))).

(** [/fabric-?carpet/i.test(name)] *)
Definition carpet_re (name : string) : bool :=
  let s := map to_lower (chars name) in
  contains (chars "fabriccarpet") s || contains (chars "fabric-carpet") s.

Definition word_at (c : option ascii) : bool :=
  match c with
  | Some c => is_word_char c
  | None => false
  end.

(** [\b] between two neighbouring positions (absent: an end of the name). *)
Definition boundary (before after : option ascii) : bool :=
  xorb (word_at before) (word_at after).

Definition is_dash (c : option ascii) : bool :=
  match c with
  | Some c => Ascii.eqb c "-"%char
  | None => false
  end.

(** [(^|\b|-)TOKEN(\b|-)] with the token placed at the head of [s], where
    [prev] is the character in front of [s] ([None] at the start of the
    name).  [escReg] makes every character of the token stand for
    itself. *)
Definition token_here (tok : list ascii) (prev : option ascii) (s : list ascii) : bool :=
  starts_with tok s
  && (bool_decide (prev = None) || boundary prev (head s) || is_dash prev)
  && (let rest := drop (length tok) s in
      let before := match last tok with
                    | Some c => Some c
                    | None => prev
                    end in
      boundary before (head rest) || is_dash (head rest)).

Fixpoint token_scan (tok : list ascii) (prev : option ascii) (s : list ascii) : bool :=
  token_here tok prev s ||
  match s with
  | [] => false
  | c :: s' => token_scan tok (Some c) s'
  end.

(** [mcRe.test(name)] for
    [mcRe = new RegExp(`(^|\\b|-)${escReg(targetMc)}(\\b|-)`)] *)
Definition mcRe_test (targetMc name : string) : bool :=
  token_scan (chars targetMc) None (chars name).

(** The character in front of the token when [pre] precedes it. *)
Definition before_token (prev : option ascii) (pre : list ascii) : option ascii :=
  match last pre with
  | Some c => Some c
  | None => prev
  end.

(** [(^|\b|-)] in front of the token and [(\b|-)] behind it. *)
Definition fenced (prev : option ascii) (tok post : list ascii) : Prop :=
  (prev = None ∨ boundary prev (head (tok ++ post)) = true ∨ is_dash prev = true)
  ∧ (boundary (before_token prev tok) (head post) = true
     ∨ is_dash (head post) = true).

(** The predicate handed to [(r.assets || []).find]. *)
Definition asset_matches (targetMc : string) (a : Asset) : bool :=
  jar_re (a_name a) && carpet_re (a_name a) && mcRe_test targetMc (a_name a).

(** [r.published_at || r.created_at || null] *)
Definition release_date (r : Release) : option Z :=
  match published_at r with
  | Some d => Some d
  | None => created_at r
  end.

Definition build_of (r : Release) (asset : Asset) : GhBuild :=
  mkGhBuild (or_str (tag_name r) (a_name asset)) (release_date r)
            (browser_download_url asset) "github-fallback".

(** The loop [for (const r of releases)]. *)
Fixpoint scan_releases (targetMc : string) (includePrereleases : bool)
    (releases : list Release) : option GhBuild :=
  match releases with
  | [] => None
  | r :: rest =>
      if draft r then scan_releases targetMc includePrereleases rest
      else if negb includePrereleases && prerelease r
      then scan_releases targetMc includePrereleases rest
      else
        match List.find (asset_matches targetMc) (default [] (assets r)) with
        | Some asset => Some (build_of r asset)
        | None => scan_releases targetMc includePrereleases rest
        end
  end.

Definition fetchCarpetGitHubRelease (w : World) (targetMc : string)
    (includePrereleases : bool) : Net (option GhBuild) :=
  res ← fetch GetGitHubReleases (w_github w);
  match res with
  | NotOk _ => mret None
  | Ok releases => mret (scan_releases targetMc includePrereleases releases)
  end.




End Fallback.

(** ** The per-project task of [Modpack.analyze] *)

Module Resolver.

(** [projectEntries]: project id to the version and category found for it
    in the pack. *)
Record ProjectEntry : Type := mkProjectEntry {
  anyVersion : Version;
  exampleSha1 : string;
  category : string
}.

(** What the task closes over. *)
Record Ctx : Type := mkCtx {
  projectEntries : gmap string ProjectEntry;
  projectMap : gmap string Project;
  packLoader : string;
  targetMc : string;
  PACK_MC : string
}.

(** A row of the result table. *)
Record Row : Type := mkRow {
  project_id : string;
  project_url : string;
  row_category : string;
  row_name : string;
  row_slug : option string;
  current_version_number : string;
  current_mc : string;
  target_loader : string;
  target_available : bool;
  target_version_number : string;
  target_mc : string;
  target_date : option Z;
  download_url : option string;
  source : string;
  target_file_sha1 : option string;
  target_file_sha512 : option string;
  target_file_size : option Z;
  target_file_url : option string;
  target_file_name : option string
}.

(** [best]: the Modrinth version, or the object built from a GitHub
    release. *)
Inductive Best : Type :=
| FromModrinth (v : Version)
| FromGitHub (g : GhBuild).

(** [fetchModrinthVersions]: [null] on any failure, and when the body is
    not an array. *)
Definition fetchModrinthVersions (w : World) (projectId mc loader : string)
  : Net (option (list Version)) :=
  try_catch
    (res ← fetch (GetVersions projectId mc loader) (w_versions w projectId mc loader);
     match res with
     | NotOk _ => mret None
     | Ok versions => mret versions
     end)
    (λ _, mret None).

Definition getBestTargetVersion (w : World) (projectId mc loader : string)
  : Net (option Version) :=
  versions ← fetchModrinthVersions w projectId mc loader;
  mret (VersionPolicy.pickBest versions).

Definition getLoaderForProject (proj : option Project) (cat packLoader : string) : string :=
  if decide (cat = "mod") then packLoader
  else
    match proj ≫= p_loaders with
    | Some (selectedLoader :: _) => selectedLoader
    | _ =>
        if decide (cat = "resourcepack" ∨ cat = "shaderpack") then "minecraft"
        else packLoader
    end.

(** [version.files.find(f => f.primary) || version.files[0]] behind the
    guard [!version || !Array.isArray(version.files) || !version.files.length]. *)
Definition pickPrimaryFile (version : option Version) : option VFile :=
  match version with
  | None => None
  | Some v =>
      match files v with
      | None | Some [] => None
      | Some (f0 :: fs) =>
          match List.find f_primary (f0 :: fs) with
          | Some f => Some f
          | None => Some f0
          end
      end
  end.

Definition isCarpet (proj : option Project) (pid : string) : bool :=
  bool_decide (proj ≫= p_slug = Some "fabric-carpet")
  || bool_decide (pid = "TQTTVgYE").

Definition typePath (proj : option Project) (cat : string) : string :=
  let pt := proj ≫= project_type in
  if bool_decide (pt = Some "mod") || bool_decide (cat = "mod") then "mod"
  else if bool_decide (pt = Some "resourcepack") || bool_decide (cat = "resourcepack")
  then "resourcepack"
  else if bool_decide (pt = Some "shader") || bool_decide (cat = "shaderpack")
  then "shader"
  else "project".

(** [best?.files?.[0]?.url || best?.download_url || null] *)
Definition best_download_url (best : option Best) : option string :=
  match best with
  | Some (FromModrinth v) =>
      match files v with
      | Some (f :: _) => or_null (f_url f)
      | _ => None
      end
  | Some (FromGitHub g) => or_null (gh_download_url g)
  | None => None
  end.

Definition best_version_number (best : option Best) : option string :=
  match best with
  | Some (FromModrinth v) => version_number v
  | Some (FromGitHub g) => Some (gh_version_number g)
  | None => None
  end.

Definition best_date (best : option Best) : option Z :=
  match best with
  | Some (FromModrinth v) => Some (date_published v)
  | Some (FromGitHub g) => gh_date_published g
  | None => None
  end.

(** The object literal returned by the task. *)
Definition make_row (c : Ctx) (pid : string) (rep : option Version)
    (cat : string) (proj : option Project) (loader : string)
    (best : option Best) (src : string) (fmeta : option VFile) : Row :=
  {| project_id := pid;
     project_url :=
       (if truthy (proj ≫= p_slug)
        then "https://modrinth.com/" +:+ typePath proj cat +:+ "/"
             +:+ default "" (proj ≫= p_slug)
        else "https://modrinth.com/project/" +:+ pid);
     row_category := cat;
     row_name := or_str (or_opt (proj ≫= p_title) (rep ≫= v_name)) "(unknown)";
     row_slug := proj ≫= p_slug;
     current_version_number := or_str (rep ≫= version_number) "-";
     current_mc := PACK_MC c;
     target_loader := loader;
     target_available := bool_decide (is_Some best);
     target_version_number := or_str (best_version_number best) "-";
     target_mc := targetMc c;
     target_date := best_date best;
     download_url := best_download_url best;
     source := src;
     target_file_sha1 := or_null (fmeta ≫= f_sha1);
     target_file_sha512 := or_null (fmeta ≫= f_sha512);
     target_file_size := fmeta ≫= f_size;
     target_file_url := or_null (fmeta ≫= f_url);
     target_file_name := or_null (fmeta ≫= f_filename) |}.

(** The Carpet fallback, only if Modrinth has no target build: the pair
    [(best, source)] after the [if]. *)
Definition carpet_fallback (w : World) (c : Ctx) (pid : string)
    (proj : option Project) (bestModrinth : option Version) (src : string)
  : Net (option Best * string) :=
  if negb (bool_decide (is_Some bestModrinth)) && isCarpet proj pid then
    gh ← Fallback.fetchCarpetGitHubRelease w (targetMc c) false;
    match gh with
    | Some g => mret (Some (FromGitHub g), "github-fallback")
    | None => mret (FromModrinth <$> bestModrinth, src)
    end
  else mret (FromModrinth <$> bestModrinth, src).

(** The task of [script.js]: project metadata comes from the batch fetched
    beforehand ([projectMap]). *)
Definition resolveTask (w : World) (c : Ctx) (pid : string) : Net Row :=
  let rep := anyVersion <$> projectEntries c !! pid in
  let cat := or_str (category <$> projectEntries c !! pid) "mod" in
  let proj := projectMap c !! pid in
  let loader := getLoaderForProject proj cat (packLoader c) in
  bestModrinth ← getBestTargetVersion w pid (targetMc c) loader;
  bs ← carpet_fallback w c pid proj bestModrinth
         (match proj with Some _ => "modrinth" | None => "none" end);
  let fmeta := match bestModrinth with
               | Some v => pickPrimaryFile (Some v)
               | None => None
               end in
  mret (make_row c pid rep cat proj loader bs.1 bs.2 fmeta).

(** *** The earlier single-file variant of the same task *)

Definition loaderForCategory (c : Ctx) (cat : string) : string :=
  if decide (cat = "resourcepack" ∨ cat = "shaderpack") then "minecraft"
  else packLoader c.

Definition getProject (w : World) (projectId : string) : Net (option Project) :=
  r ← fetch (GetProject projectId) (w_project w projectId);
  match r with
  | NotOk _ => mret None
  | Ok p => mret (Some p)
  end.

(** Here a failed listing throws instead of giving [null]. *)
Definition getBestTargetVersion_inline (w : World) (projectId mc loader : string)
  : Net (option Version) :=
  res ← fetch (GetVersions projectId mc loader) (w_versions w projectId mc loader);
  match res with
  | NotOk status => throw ("versions " +:+ projectId +:+ ": " +:+ pretty status)
  | Ok arr => mret (VersionPolicy.pickBest arr)
  end.

Definition resolveTask_inline (w : World) (c : Ctx) (pid : string) : Net Row :=
  let rep := anyVersion <$> projectEntries c !! pid in
  let cat := or_str (category <$> projectEntries c !! pid) "mod" in
  let loader := loaderForCategory c cat in
  pb ← promise_all2 (getProject w pid)
                    (getBestTargetVersion_inline w pid (targetMc c) loader);
  let proj := pb.1 in
  let bestModrinth := pb.2 in
  bs ← carpet_fallback w c pid proj bestModrinth
         (match bestModrinth with Some _ => "modrinth" | None => "none" end);
  let fmeta := match bestModrinth with
               | Some v => pickPrimaryFile (Some v)
               | None => None
               end in
  mret (make_row c pid rep cat proj loader bs.1 bs.2 fmeta).

(** *** What the task works from *)

(** The listing as [fetchModrinthVersions] hands it on. *)
Definition listed_versions (w : World) (projectId mc loader : string)
  : option (list Version) :=
  match w_versions w projectId mc loader with
  | Fulfilled (Ok versions) => versions
  | _ => None
  end.

Definition task_cat (c : Ctx) (pid : string) : string :=
  or_str (category <$> projectEntries c !! pid) "mod".

Definition task_loader (c : Ctx) (pid : string) : string :=
  getLoaderForProject (projectMap c !! pid) (task_cat c pid) (packLoader c).

(** The primary candidate of an identity: the best Modrinth version for
    the target, if there is one. *)
Definition primary_candidate (w : World) (c : Ctx) (pid : string) : option Version :=
  VersionPolicy.pickBest (listed_versions w pid (targetMc c) (task_loader c pid)).

(** The same for the single-file variant, where the listing is asked for
    the loader of the category and a failed listing makes the task
    reject. *)
Definition primary_candidate_inline (w : World) (c : Ctx) (pid : string)
  : option Version :=
  VersionPolicy.pickBest
    (listed_versions w pid (targetMc c) (loaderForCategory c (task_cat c pid))).

(** The project as [getProject] hands it on. *)
Definition fetched_project (w : World) (pid : string) : option Project :=
  match w_project w pid with
  | Fulfilled (Ok p) => Some p
  | _ => None
  end.

(** The file metadata a row caches for the builder is that of [f]. *)
Definition cached_from (r : Row) (f : VFile) : Prop :=
  target_file_sha1 r = or_null (f_sha1 f)
  ∧ target_file_sha512 r = or_null (f_sha512 f)
  ∧ target_file_size r = f_size f
  ∧ target_file_url r = or_null (f_url f)
  ∧ target_file_name r = or_null (f_filename f).

(** A row caches no file metadata at all. *)
Definition nothing_cached (r : Row) : Prop :=
  target_file_sha1 r = None ∧ target_file_sha512 r = None
  ∧ target_file_size r = None ∧ target_file_url r = None
  ∧ target_file_name r = None.

(** The first entry of [fs] flagged primary, or the first entry when none
    is flagged. *)
Definition primary_or_first (fs : list VFile) (f : VFile) : Prop :=
  (f_primary f = true
   ∧ ∃ k, fs !! k = Some f
          ∧ ∀ j f', j < k → fs !! j = Some f' → f_primary f' = false)
  ∨ (Forall (λ f', f_primary f' = false) fs ∧ head fs = Some f).

(** The task as [mapLimitProgress] sees it: a promise that settles. *)
Definition task_outcome (task : string → Net Row) (pid : string) : Settled Row string :=
  (task pid []).1.

End Resolver.

(** ** Rebuilding the manifest: [Modpack.build] *)

Module Builder.
Import Resolver.

(** [env] of a manifest entry. *)
Record Env : Type := mkEnv {
  client : string;
  server : string
}.

(** An entry of [index.files] of the loaded pack, as far as [build] reads
    it. *)
Record OrigFile : Type := mkOrigFile {
  of_path : option string;
  of_env : option Env
}.

(** An entry pushed on [fileRecords]. *)
Record FileRecord : Type := mkFileRecord {
  path : string;
  hashes_sha512 : option string;
  hashes_sha1 : option string;
  env : Env;
  downloads : list (option string);
  fileSize : option Z
}.

(** [this.index], as far as [build] changes it: an absent [dependencies]
    object reads as the empty one under [Object.assign]. *)
Record Index : Type := mkIndex {
  dependencies : gmap string string
}.

(** The [Modpack] instance, as far as [build] reads it.  [zip_loaded]
    stands for [this.zip]; the name of the pack and the files under
    [overrides/] are copied without a look at the rows and are left out. *)
Record Modpack : Type := mkModpack {
  rows : list Row;
  index : option Index;
  zip_loaded : bool;
  projectIdToOrigFile : gmap string OrigFile;
  mp_targetMc : string;
  selectedLoader : string
}.

(** What a finished build leaves behind: [newIndex.files],
    [newIndex.dependencies], the note on the loader, and the names listed
    in the note on excluded rows. *)
Record Built : Type := mkBuilt {
  new_files : list FileRecord;
  new_dependencies : gmap string string;
  loaderNote : string;
  skipped_names : list string
}.

(** How a click on the build button ends: the alert, the [catch] branch,
    or a finished build. *)
Inductive BuildOutcome : Type :=
| NothingToBuild
| BuildFailed (msg : string)
| BuildDone (b : Built).

Definition hasData (m : Modpack) : bool :=
  bool_decide (0 < length (rows m)) && bool_decide (is_Some (index m))
  && zip_loaded m.

Definition has_file_meta (r : Row) : bool :=
  truthy (target_file_sha512 r) && truthy (target_file_sha1 r)
  && truthy_num (target_file_size r) && truthy (target_file_url r).

(** The predicate of [this.rows.filter] that gives [includable]. *)
Definition includable (r : Row) : bool :=
  target_available r && bool_decide (source r = "modrinth") && has_file_meta r.

(** The predicate of the second [filter], which gives [skipped]. *)
Definition skipped (r : Row) : bool :=
  target_available r
  && (negb (bool_decide (source r = "modrinth")) || negb (has_file_meta r)).

Definition inferPathFromCategory (r : Row) : string :=
  if decide (row_category r = "resourcepack")
  then "resourcepacks/" +:+ or_str (row_slug r) "resourcepack" +:+ ".zip"
  else if decide (row_category r = "shaderpack")
  then "shaderpacks/" +:+ or_str (row_slug r) "shaderpack" +:+ ".zip"
  else "mods/" +:+ or_str (row_slug r) "mod" +:+ ".jar".

(** [of.path || inferPathFromCategory(row)] for
    [of = this.projectIdToOrigFile.get(row.project_id) || {}] *)
Definition path_of (orig : gmap string OrigFile) (r : Row) : string :=
  or_str (orig !! project_id r ≫= of_path) (inferPathFromCategory r).

Definition env_of (orig : gmap string OrigFile) (r : Row) : Env :=
  default (mkEnv "required" "required") (orig !! project_id r ≫= of_env).

Definition file_record (orig : gmap string OrigFile) (r : Row) : FileRecord :=
  {| path := path_of orig r;
     hashes_sha512 := target_file_sha512 r;
     hashes_sha1 := target_file_sha1 r;
     env := env_of orig r;
     downloads := [target_file_url r];
     fileSize := target_file_size r |}.

Definition fileRecords (m : Modpack) : list FileRecord :=
  file_record (projectIdToOrigFile m) <$> filter (λ r, includable r = true) (rows m).

(** [getRecommendedLoaderVersion]: the version of the first stable entry,
    else of the first entry; [null] for another loader and on any
    failure. *)
Definition getRecommendedLoaderVersion (w : World) (targetMc loaderName : string)
  : Net (option string) :=
  if decide (loaderName ≠ "fabric") then mret None
  else
    try_catch
      (res ← fetch (GetFabricMeta targetMc) (w_fabric_meta w targetMc);
       match res with
       | NotOk status => throw ("fabric meta " +:+ pretty status)
       | Ok arr =>
           let stable := arr ≫= List.find loader_stable in
           let pick := match stable with
                       | Some x => Some x
                       | None => arr ≫= head
                       end in
           mret (or_null (pick ≫= loader_version))
       end)
      (λ _, mret None).

(** The pin of the loader: [newIndex.dependencies] and [loaderNote] after
    the [if (this.selectedLoader === "fabric")] block. *)
Definition pin_loader (w : World) (m : Modpack) (deps : gmap string string)
  : Net (gmap string string * string) :=
  if decide (selectedLoader m = "fabric") then
    rec ← getRecommendedLoaderVersion w (mp_targetMc m) "fabric";
    match rec with
    | Some r => mret (<["fabric-loader" := r]> deps, "Fabric Loader set to " +:+ r +:+ ".")
    | None =>
        if truthy (deps !! "fabric-loader")
        then mret (deps, "Kept existing Fabric Loader "
                         +:+ default "" (deps !! "fabric-loader")
                         +:+ " (meta lookup failed).")
        else mret (deps, "Fabric Loader not set (meta lookup failed).")
    end
  else mret (deps, "").

(** [r.name || r.slug || r.project_id] *)
Definition display_name (r : Row) : string :=
  default "" (or_opt (Some (row_name r)) (or_opt (row_slug r) (Some (project_id r)))).

Definition build (w : World) (m : Modpack) : Net BuildOutcome :=
  if negb (hasData m) then mret NothingToBuild
  else
    try_catch
      (let deps := <["minecraft" := mp_targetMc m]>
                     (default ∅ (dependencies <$> index m)) in
       pinned ← pin_loader w m deps;
       mret (BuildDone
               {| new_files := fileRecords m;
                  new_dependencies := pinned.1;
                  loaderNote := pinned.2;
                  skipped_names :=
                    display_name <$> filter (λ r, skipped r = true) (rows m) |}))
      (λ e, mret (BuildFailed e)).

(** *** What [build] works from *)

(** The version [getRecommendedLoaderVersion] ends up with for the target,
    if any. *)
Definition recommended (w : World) (mc : string) : option string :=
  match w_fabric_meta w mc with
  | Fulfilled (Ok arr) =>
      let pick := match arr ≫= List.find loader_stable with
                  | Some x => Some x
                  | None => arr ≫= head
                  end in
      or_null (pick ≫= loader_version)
  | _ => None
  end.

(** The pins of the loaded index. *)
Definition old_dependencies (m : Modpack) : gmap string string :=
  default ∅ (dependencies <$> index m).

(** The path of the original entry matched by a row, if it has one. *)
Definition orig_path (m : Modpack) (r : Row) : option string :=
  or_null (projectIdToOrigFile m !! project_id r ≫= of_path).

(** File metadata is cached only in rows that have a target, as in every
    row the task builds. *)
Definition cached_only_if_available (r : Row) : Prop :=
  has_file_meta r = true → target_available r = true.

(** A row that one of the two variants of the task fulfilled with. *)
Definition built_by_task (r : Row) : Prop :=
  ∃ w c pid log log',
    resolveTask w c pid log = (Fulfilled r, log')
    ∨ resolveTask_inline w c pid log = (Fulfilled r, log').

(** The registry reports sizes as byte counts. *)
Definition size_is_count (r : Row) : Prop :=
  ∀ n, target_file_size r = Some n → (0 ≤ n)%Z.

(** Primary origin with both digests, a positive size and a download
    url. *)
Definition packageable (r : Row) : Prop :=
  source r = "modrinth"
  ∧ truthy (target_file_sha1 r) = true ∧ truthy (target_file_sha512 r) = true
  ∧ (∃ n, target_file_size r = Some n ∧ (0 < n)%Z)
  ∧ truthy (target_file_url r) = true.

End Builder.

(** ** Concrete inputs used below *)

Module Samples.

(** Versions of one project: an alpha, and two releases of which the
    second is the later one and carries a file flagged primary behind an
    unflagged one. *)
Definition sources_jar : VFile :=
  mkVFile false (Some "1f0c") (Some "77aa") (Some 1024%Z)
          (Some "https://cdn.modrinth.com/data/AANobbMI/sources.jar")
          (Some "sodium-sources.jar").

Definition main_jar : VFile :=
  mkVFile true (Some "9b2e") (Some "c4d1") (Some 2048%Z)
          (Some "https://cdn.modrinth.com/data/AANobbMI/sodium.jar")
          (Some "sodium.jar").

Definition lithium_jar : VFile :=
  mkVFile false (Some "5e5e") (Some "ab12") (Some 4096%Z)
          (Some "https://cdn.modrinth.com/data/gvQqBUqZ/lithium.jar")
          (Some "lithium.jar").

Definition v_alpha : Version :=
  mkVersion (Some "Sodium alpha") (Some "0.6.0-alpha") "alpha" 300 (Some [main_jar]).

Definition v_release_old : Version :=
  mkVersion (Some "Sodium 0.5.8") (Some "0.5.8") "release" 100 (Some [main_jar]).

Definition v_release_new : Version :=
  mkVersion (Some "Sodium 0.5.11") (Some "0.5.11") "release" 200
            (Some [sources_jar; main_jar]).

Definition v_lithium : Version :=
  mkVersion (Some "Lithium 0.12") (Some "0.12.0") "release" 150 (Some [lithium_jar]).

(** A release feed: a draft and a prerelease that carry a matching jar, a
    release without one, and two releases with one. *)
Definition carpet_jar (name : string) : Asset :=
  mkAsset name (Some ("https://github.com/gnembon/fabric-carpet/releases/download/" +:+ name)).

Definition feed : list Release :=
  [ mkRelease true false (Some "draft") (Some 900%Z) None
      (Some [carpet_jar "fabric-carpet-1.21-1.4.150.jar"]);
    mkRelease false true (Some "pre") (Some 800%Z) None
      (Some [carpet_jar "fabric-carpet-1.21-1.4.149.jar"]);
    mkRelease false false (Some "1.4.148") (Some 700%Z) None
      (Some [carpet_jar "fabric-carpet-1.20.6-1.4.148.jar"]);
    mkRelease false false (Some "1.4.147") (Some 500%Z) None
      (Some [carpet_jar "notes-1.21.txt"; carpet_jar "fabric-carpet-1.21-1.4.147.jar"]);
    mkRelease false false (Some "1.4.146") (Some 600%Z) None
      (Some [carpet_jar "fabric-carpet-1.21-1.4.146.jar"]) ].

Definition sodium : Project :=
  mkProject (Some "Sodium") (Some "sodium") (Some "mod") (Some ["fabric"]).

Definition carpet : Project :=
  mkProject (Some "Carpet") (Some "fabric-carpet") (Some "mod") (Some ["fabric"]).

Definition lithium : Project :=
  mkProject (Some "Lithium") (Some "lithium") (Some "mod") (Some ["fabric"]).

Definition no_build : Project :=
  mkProject (Some "Old Mod") (Some "old-mod") (Some "mod") (Some ["fabric"]).

(** The world: Modrinth lists builds of Sodium and Lithium and none of
    Carpet or of the fourth project; Fabric meta knows [1.21] only. *)
Definition world : World :=
  {| w_versions := λ pid _ _,
       if decide (pid = "AANobbMI")
       then Fulfilled (Ok (Some [v_alpha; v_release_old; v_release_new]))
       else if decide (pid = "gvQqBUqZ")
       then Fulfilled (Ok (Some [v_lithium]))
       else Fulfilled (Ok (Some []));
     w_project := λ pid,
       if decide (pid = "AANobbMI") then Fulfilled (Ok sodium)
       else if decide (pid = "TQTTVgYE") then Fulfilled (Ok carpet)
       else if decide (pid = "gvQqBUqZ") then Fulfilled (Ok lithium)
       else Fulfilled (NotOk 404);
     w_github := Fulfilled (Ok feed);
     w_fabric_meta := λ mc,
       if decide (mc = "1.21")
       then Fulfilled (Ok (Some [mkLoaderEntry false (Some "0.16.1");
                                 mkLoaderEntry true (Some "0.16.0")]))
       else Fulfilled (NotOk 404) |}.

(** The same world with GitHub and Fabric meta out of reach. *)
Definition world_offline : World :=
  {| w_versions := w_versions world;
     w_project := w_project world;
     w_github := Rejected "Failed to fetch";
     w_fabric_meta := λ _, Rejected "Failed to fetch" |}.

(** What the analysis of a pack with these four projects closes over. *)
Definition ctx : Resolver.Ctx :=
  {| Resolver.projectEntries :=
       list_to_map
         [("AANobbMI", Resolver.mkProjectEntry v_release_old "aa01" "mod");
          ("TQTTVgYE", Resolver.mkProjectEntry v_release_old "aa02" "mod");
          ("gvQqBUqZ", Resolver.mkProjectEntry v_lithium "aa03" "mod");
          ("P7dR8mSH", Resolver.mkProjectEntry v_release_old "aa04" "mod")];
     Resolver.projectMap :=
       list_to_map
         [("AANobbMI", sodium); ("TQTTVgYE", carpet);
          ("gvQqBUqZ", lithium); ("P7dR8mSH", no_build)];
     Resolver.packLoader := "fabric";
     Resolver.targetMc := "1.21";
     Resolver.PACK_MC := "1.20.1" |}.

(** The rows of three of these projects: Sodium and Lithium from
    Modrinth, Carpet from GitHub. *)
Definition blank_row : Resolver.Row :=
  Resolver.make_row ctx "" None "" None "" None "" None.

Definition row_of (pid : string) : Resolver.Row :=
  match Resolver.task_outcome (Resolver.resolveTask world ctx) pid with
  | Fulfilled r => r
  | Rejected _ => blank_row
  end.

Definition sodium_row : Resolver.Row := Eval vm_compute in row_of "AANobbMI".
Definition carpet_row : Resolver.Row := Eval vm_compute in row_of "TQTTVgYE".
Definition lithium_row : Resolver.Row := Eval vm_compute in row_of "gvQqBUqZ".

Definition three_rows : list Resolver.Row := [sodium_row; carpet_row; lithium_row].

(** The loaded pack: three entries, pinned to Fabric Loader 0.15.0. *)
Definition pack : Builder.Modpack :=
  {| Builder.rows := three_rows;
     Builder.index :=
       Some (Builder.mkIndex
               (list_to_map [("minecraft", "1.20.1"); ("fabric-loader", "0.15.0")]));
     Builder.zip_loaded := true;
     Builder.projectIdToOrigFile :=
       list_to_map
         [("AANobbMI", Builder.mkOrigFile (Some "mods/sodium-0.5.8.jar") None);
          ("TQTTVgYE", Builder.mkOrigFile (Some "mods/carpet.jar") None);
          ("gvQqBUqZ", Builder.mkOrigFile (Some "mods/lithium-0.11.jar") None)];
     Builder.mp_targetMc := "1.21";
     Builder.selectedLoader := "fabric" |}.

(** The same pack when its manifest lists two entries under one path. *)
Definition pack_same_path : Builder.Modpack :=
  {| Builder.rows := three_rows;
     Builder.index := Builder.index pack;
     Builder.zip_loaded := true;
     Builder.projectIdToOrigFile :=
       list_to_map
         [("AANobbMI", Builder.mkOrigFile (Some "mods/performance.jar") None);
          ("TQTTVgYE", Builder.mkOrigFile (Some "mods/carpet.jar") None);
          ("gvQqBUqZ", Builder.mkOrigFile (Some "mods/performance.jar") None)];
     Builder.mp_targetMc := "1.21";
     Builder.selectedLoader := "fabric" |}.

(** The same pack rebuilt for Quilt. *)
Definition pack_quilt : Builder.Modpack :=
  {| Builder.rows := three_rows;
     Builder.index := Builder.index pack;
     Builder.zip_loaded := true;
     Builder.projectIdToOrigFile := Builder.projectIdToOrigFile pack;
     Builder.mp_targetMc := "1.21";
     Builder.selectedLoader := "quilt" |}.

(** The single-file variant at a moment when project metadata cannot be
    had: the rows of Sodium and Lithium carry no slug. *)
Definition world_projects_down : World :=
  {| w_versions := w_versions world;
     w_project := λ _, Fulfilled (NotOk 429);
     w_github := w_github world;
     w_fabric_meta := w_fabric_meta world |}.

Definition row_inline_of (pid : string) : Resolver.Row :=
  match Resolver.task_outcome (Resolver.resolveTask_inline world_projects_down ctx) pid with
  | Fulfilled r => r
  | Rejected _ => blank_row
  end.

Definition sodium_row_no_slug : Resolver.Row :=
  Eval vm_compute in row_inline_of "AANobbMI".

Definition lithium_row_no_slug : Resolver.Row :=
  Eval vm_compute in row_inline_of "gvQqBUqZ".

Definition two_rows_no_slug : list Resolver.Row :=
  [sodium_row_no_slug; lithium_row_no_slug].

(** A pack whose manifest entries carry no path. *)
Definition pack_no_paths : Builder.Modpack :=
  {| Builder.rows := two_rows_no_slug;
     Builder.index := Builder.index pack;
     Builder.zip_loaded := true;
     Builder.projectIdToOrigFile :=
       list_to_map
         [("AANobbMI", Builder.mkOrigFile None None);
          ("gvQqBUqZ", Builder.mkOrigFile None None)];
     Builder.mp_targetMc := "1.21";
     Builder.selectedLoader := "fabric" |}.

(** *** A run of the scheduler over three of these projects *)

Definition three_ids : list string := ["AANobbMI"; "TQTTVgYE"; "gvQqBUqZ"].

(** The task of [script.js] as [mapLimitProgress] runs it, with GitHub
    within reach and out of reach.  Out of reach, the task of Carpet (no
    build on Modrinth) rejects. *)
Definition task_online : string → Settled Resolver.Row string :=
  Resolver.task_outcome (Resolver.resolveTask world ctx).

Definition task_offline : string → Settled Resolver.Row string :=
  Resolver.task_outcome (Resolver.resolveTask world_offline ctx).

(** The run in which every task is started and settles in turn. *)
Definition full_run : list Scheduler.Event :=
  [Scheduler.Main; Scheduler.Main; Scheduler.Settle 0;
   Scheduler.Main; Scheduler.Settle 1;
   Scheduler.Main; Scheduler.Settle 2;
   Scheduler.Main; Scheduler.Main; Scheduler.Main].

(** The run that ends when the second task rejects. *)
Definition aborted_run : list Scheduler.Event :=
  [Scheduler.Main; Scheduler.Main; Scheduler.Settle 0;
   Scheduler.Main; Scheduler.Settle 1].

(** The states in which these runs end. *)
Definition full_state : Scheduler.State Resolver.Row string :=
  Eval vm_compute in
    default (Scheduler.init three_ids)
      (Scheduler.exec three_ids MAX_CONCURRENCY task_online full_run
         (Scheduler.init three_ids)).

Definition aborted_state : Scheduler.State Resolver.Row string :=
  Eval vm_compute in
    default (Scheduler.init three_ids)
      (Scheduler.exec three_ids MAX_CONCURRENCY task_offline aborted_run
         (Scheduler.init three_ids)).

(** *** A chosen version that lists no file *)

(** A later release of Lithium whose [files] array is empty. *)
Definition v_lithium_bare : Version :=
  mkVersion (Some "Lithium 0.13") (Some "0.13.0") "release" 400 (Some []).

(** The world when Modrinth lists that release next to the earlier one. *)
Definition world_bare : World :=
  {| w_versions := λ pid mc l,
       if decide (pid = "gvQqBUqZ")
       then Fulfilled (Ok (Some [v_lithium; v_lithium_bare]))
       else w_versions world pid mc l;
     w_project := w_project world;
     w_github := w_github world;
     w_fabric_meta := w_fabric_meta world |}.

Definition task_bare : string → Settled Resolver.Row string :=
  Resolver.task_outcome (Resolver.resolveTask world_bare ctx).

Definition lithium_row_bare : Resolver.Row :=
  Eval vm_compute in
    match task_bare "gvQqBUqZ" with
    | Fulfilled r => r
    | Rejected _ => blank_row
    end.

(** The pack of above with the rows of this world. *)
Definition pack_bare : Builder.Modpack :=
  {| Builder.rows := [sodium_row; carpet_row; lithium_row_bare];
     Builder.index := Builder.index pack;
     Builder.zip_loaded := true;
     Builder.projectIdToOrigFile := Builder.projectIdToOrigFile pack;
     Builder.mp_targetMc := "1.21";
     Builder.selectedLoader := "fabric" |}.

End Samples.

(** ** Reading the pack: [Modpack.analyze] around its tasks *)

Module Analyze.
Import Resolver Builder.

(** An entry of [index.files]: [f?.hashes?.sha1], and the entry as
    [build] reads it later. *)
Record PackFile : Type := mkPackFile {
  pf_sha1 : option string;
  pf_entry : OrigFile
}.

(** [modrinth.index.json] as far as [analyze] and [build] read it:
    [index?.name], [index?.dependencies] and [index.files]. *)
Record PackIndex : Type := mkPackIndex {
  ix_name : option string;
  ix_dependencies : option (gmap string string);
  ix_files : option (list PackFile)
}.

(** What [version_files] answers for one hash, when it is a version
    object: [ver.project_id] and the version. *)
Record HashHit : Type := mkHashHit {
  hit_project_id : option string;
  hit_version : Version
}.

(** [sha1s], [sha1ToPath] and [sha1ToFileObj]. *)
Record Hashes : Type := mkHashes {
  sha1s : list string;
  sha1ToPath : gmap string string;
  sha1ToFileObj : gmap string OrigFile
}.

(** The body of [for (const f of index.files || [])]. *)
Definition collect_step (h : Hashes) (f : PackFile) : Hashes :=
  match or_null (pf_sha1 f) with
  | Some sha1 =>
      mkHashes (sha1s h ++ [sha1])
               (<[sha1 := or_str (of_path (pf_entry f)) ""]> (sha1ToPath h))
               (<[sha1 := pf_entry f]> (sha1ToFileObj h))
  | None => h
  end.

Definition collect (files : list PackFile) : Hashes :=
  foldl collect_step (mkHashes [] ∅ ∅) files.

(** [path.startsWith("resourcepacks/") ? "resourcepack"
     : path.startsWith("shaderpacks/") ? "shaderpack" : "mod"] *)
Definition categoryOfPath (path : string) : string :=
  if String.prefix "resourcepacks/" path then "resourcepack"
  else if String.prefix "shaderpacks/" path then "shaderpack"
  else "mod".

(** [projectEntries], in the order of insertion (that of
    [projectEntries.keys()]), and [this.projectIdToOrigFile]. *)
Record Collapsed : Type := mkCollapsed {
  entries : list (string * ProjectEntry);
  origFiles : gmap string OrigFile
}.

(** The project an entry of [versionMap] counts for: none when
    [!ver || !ver.project_id]. *)
Definition project_of (kv : string * option HashHit) : option string :=
  kv.2 ≫= λ ver, or_null (hit_project_id ver).

(** The body of [for (const [sha1, ver] of Object.entries(versionMap))].
    Setting a key of [projectIdToOrigFile] to [undefined] reads like
    leaving it out. *)
Definition collapse_step (h : Hashes) (acc : Collapsed)
    (kv : string * option HashHit) : Collapsed :=
  match project_of kv, kv.2 with
  | Some pid, Some ver =>
      if decide (pid ∈ (entries acc).*1) then acc
      else
        let path := or_str (sha1ToPath h !! kv.1) "" in
        mkCollapsed
          (entries acc
           ++ [(pid, mkProjectEntry (hit_version ver) kv.1 (categoryOfPath path))])
          (partial_alter (λ _, sha1ToFileObj h !! kv.1) pid (origFiles acc))
  | _, _ => acc
  end.

Definition collapse (h : Hashes) (versionMap : list (string * option HashHit))
  : Collapsed :=
  foldl (collapse_step h) (mkCollapsed [] ∅) versionMap.

(** [getProjectsBatch]: the answer of the batch endpoint turned into a map
    ([new Map(projects.map(p => [p.id, p]))], where a later entry replaces
    an earlier one with the same id); the empty map without a request when
    there are no ids, and on any failure. *)
Definition getProjectsBatch
    (answer : list string → Settled (Response (list (string * Project))) string)
    (projectIds : list string) : gmap string Project :=
  match projectIds with
  | [] => ∅
  | _ :: _ =>
      match answer projectIds with
      | Fulfilled (Ok projects) => foldl (λ m p, <[p.1 := p.2]> m) ∅ projects
      | _ => ∅
      end
  end.

(** What [analyze] is given besides the world of its tasks, once the
    archive is read (a file that is no archive, or a manifest that is no
    JSON, makes it throw before any of what follows): the manifest
    (absent when the archive has none), the answer of [version_files] as
    [Object.entries] lists it, the answer of the batch endpoint, and the
    two selections of the page. *)
Record Input : Type := mkInput {
  in_index : option PackIndex;
  in_version_files : list string → Settled (list (string * option HashHit)) string;
  in_projects : list string → Settled (Response (list (string * Project))) string;
  in_targetMc : string;
  in_packLoader : string
}.

(** Where [analyze] stands before the tasks are run: it has returned
    [null], or it has what the tasks close over. *)
Inductive Prepared : Type :=
| NoIndexFile
| NoHashes
| NoProjects
| Ready (name : string) (projectIds : list string) (c : Ctx)
        (orig : gmap string OrigFile).

(** [analyze] up to the call of [mapLimitProgress]. *)
Definition prepare (i : Input) : Settled Prepared string :=
  match in_index i with
  | None => Fulfilled NoIndexFile
  | Some index =>
      let h := collect (default [] (ix_files index)) in
      match sha1s h with
      | [] => Fulfilled NoHashes
      | _ :: _ =>
          match in_version_files i (sha1s h) with
          | Rejected e => Rejected e
          | Fulfilled versionMap =>
              let col := collapse h versionMap in
              let projectIds := (entries col).*1 in
              match projectIds with
              | [] => Fulfilled NoProjects
              | _ :: _ =>
                  Fulfilled
                    (Ready (or_str (ix_name index) "Updated Pack") projectIds
                       {| projectEntries := list_to_map (entries col);
                          projectMap := getProjectsBatch (in_projects i) projectIds;
                          packLoader := in_packLoader i;
                          targetMc := in_targetMc i;
                          PACK_MC :=
                            or_str (ix_dependencies index ≫= (.!! "minecraft")) "-" |}
                       (origFiles col))
              end
          end
      end
  end.

(** How a call of [analyze] ends. *)
Inductive Outcome : Type :=
| ReturnedNull
| ReturnedRows (rows : list (option Row))
| Threw (e : string).

Definition outcome_of (r : Settled (list (option Row)) string) : Outcome :=
  match r with
  | Fulfilled rows => ReturnedRows rows
  | Rejected e => Threw e
  end.

(** The task handed to [mapLimitProgress]. *)
Definition task (w : World) (c : Ctx) : string → Settled Row string :=
  task_outcome (resolveTask w c).

(** [analyze] ends with [o]: by one of the early exits, by a rejection of
    [version_files], or with the result of a run of [mapLimitProgress]
    over the project ids. *)
Definition analyze (w : World) (i : Input) (o : Outcome) : Prop :=
  match prepare i with
  | Rejected e => o = Threw e
  | Fulfilled (Ready _ projectIds c _) =>
      ∃ tr s r,
        Scheduler.exec projectIds MAX_CONCURRENCY (task w c) tr
                       (Scheduler.init projectIds) = Some s
        ∧ Scheduler.result s = Some r
        ∧ o = outcome_of r
  | Fulfilled _ => o = ReturnedNull
  end.

(** The instance after a call of [analyze] that went through to
    [this.rows = rows]. *)
Definition loaded (i : Input) (index : PackIndex) (orig : gmap string OrigFile)
    (rows : list Row) : Modpack :=
  {| Builder.rows := rows;
     index := Some (mkIndex (default ∅ (ix_dependencies index)));
     zip_loaded := true;
     projectIdToOrigFile := orig;
     mp_targetMc := in_targetMc i;
     selectedLoader := in_packLoader i |}.

(** Position [k] of [versionMap] is the first that counts for [pid]. *)
Definition first_of (versionMap : list (string * option HashHit))
    (pid : string) (k : nat) : Prop :=
  project_of <$> versionMap !! k = Some (Some pid)
  ∧ ∀ j kv, j < k → versionMap !! j = Some kv → project_of kv ≠ Some pid.

(** The entry of [projectEntries] made from position [k] of
    [versionMap]. *)
Definition entry_from (h : Hashes) (versionMap : list (string * option HashHit))
    (pe : string * ProjectEntry) (k : nat) : Prop :=
  first_of versionMap pe.1 k
  ∧ ∃ ver, versionMap !! k = Some (exampleSha1 pe.2, Some ver)
           ∧ anyVersion pe.2 = hit_version ver
           ∧ category pe.2
             = categoryOfPath (or_str (sha1ToPath h !! exampleSha1 pe.2) "").

(** The last entry of the manifest that carries the hash [sha1]. *)
Definition last_with (files : list PackFile) (sha1 : string) (f : PackFile) : Prop :=
  ∃ k, files !! k = Some f ∧ or_null (pf_sha1 f) = Some sha1
       ∧ ∀ j f', k < j → files !! j = Some f' → or_null (pf_sha1 f') ≠ Some sha1.

(** [source] before the fallback is looked at. *)
Definition src_of (c : Ctx) (pid : string) : string :=
  match projectMap c !! pid with
  | Some _ => "modrinth"
  | None => "none"
  end.

(** The row of [pid] for a given [best], [source] and [bestModrinth]. *)
Definition row_with (c : Ctx) (pid : string) (best : option Best) (src : string)
    (bestModrinth : option Version) : Row :=
  make_row c pid (anyVersion <$> projectEntries c !! pid) (task_cat c pid)
           (projectMap c !! pid) (task_loader c pid) best src
           (pickPrimaryFile bestModrinth).

(** The path [analyze] read for the representative hash of an entry. *)
Definition entry_path (h : Hashes) (e : ProjectEntry) : string :=
  or_str (sha1ToPath h !! exampleSha1 e) "".

(** Running the tasks one after the other, as a function: what every
    run of [mapLimitProgress] comes to. *)
Definition analyze_in_order (w : World) (i : Input) : Outcome :=
  match prepare i with
  | Rejected e => Threw e
  | Fulfilled (Ready _ projectIds c _) =>
      outcome_of (Scheduler.sequentialInOrder (task w c) projectIds)
  | Fulfilled _ => ReturnedNull
  end.

Definition three_categories (cat : string) : Prop :=
  cat = "mod" ∨ cat = "resourcepack" ∨ cat = "shaderpack".

End Analyze.

(** ** Counting and showing the rows: [getSummary], [ResultsTable.render] *)

Module Tables.
Import Resolver.

(** [this.rows.filter(row => !row.target_available)] *)
Definition getMissingItems (rows : list Row) : list Row :=
  filter (λ r, target_available r = false) rows.

(** [this.rows.filter(row => row.target_available)] *)
Definition getAvailableItems (rows : list Row) : list Row :=
  filter (λ r, target_available r = true) rows.

Record Summary : Type := mkSummary {
  total : Z;
  available : Z;
  missing : Z
}.

(** [{ total, available, missing: total - available }] *)
Definition getSummary (rows : list Row) : Summary :=
  let total := Z.of_nat (length rows) in
  let available := Z.of_nat (length (getAvailableItems rows)) in
  mkSummary total available (total - available).

(** The rows handed to the three tables by [render]. *)
Record Rendered : Type := mkRendered {
  mods : list Row;
  res : list Row;
  sh : list Row
}.

Definition render (rows : list Row) : Rendered :=
  {| mods := filter (λ r, row_category r = "mod") rows;
     res := filter (λ r, row_category r = "resourcepack") rows;
     sh := filter (λ r, row_category r = "shaderpack") rows |}.

End Tables.

(** ** Strings: [escapeHtml], [slugify], [parseModpackNames],
       [parseVersion] and [compareVersions]

    A string is read as the list of its code units.  Where the code
    classifies characters ([toLowerCase], [trim], [\s], [parseInt]), what
    follows is the behaviour on code units below 256. *)

Module Text.

Definition chars (s : string) : list ascii := String.list_ascii_of_string s.
Definition str (l : list ascii) : string := String.string_of_list_ascii l.
Definition code (c : ascii) : nat := nat_of_ascii c.

Definition is_digit (c : ascii) : bool := (48 <=? code c) && (code c <=? 57).
Definition is_lower (c : ascii) : bool := (97 <=? code c) && (code c <=? 122).
Definition is_upper (c : ascii) : bool := (65 <=? code c) && (code c <=? 90).

(** White space and line terminators: what [trim] removes, [\s] matches
    and [parseInt] skips. *)
Definition is_space (c : ascii) : bool :=
  ((9 <=? code c) && (code c <=? 13)) || (code c =? 32) || (code c =? 160).

(** [toLowerCase] on one code unit: [A-Z], and the capital letters of
    Latin-1 (U+00C0 to U+00DE without the multiplication sign). *)
Definition lower_char (c : ascii) : ascii :=
  if is_upper c
     || ((192 <=? code c) && (code c <=? 222) && negb (code c =? 215))
  then ascii_of_nat (code c + 32)
  else c.

Definition toLowerCase (s : list ascii) : list ascii := lower_char <$> s.

Fixpoint skip_spaces (s : list ascii) : list ascii :=
  match s with
  | c :: s' => if is_space c then skip_spaces s' else s
  | [] => []
  end.

(** [s.replace(/\s+$/, "")] *)
Definition trimEnd (s : list ascii) : list ascii := rev (skip_spaces (rev s)).

(** [s.trim()] *)
Definition trim (s : list ascii) : list ascii := trimEnd (skip_spaces s).

(** *** [escapeHtml] *)

Definition quot : ascii := "034"%char.
Definition apos : ascii := "039"%char.

(** The replacement function of [escapeHtml], extended by the identity to
    the characters its pattern does not match (all but the ampersand, the
    two angle brackets and the two quotes). *)
Definition escape_char (c : ascii) : list ascii :=
  if Ascii.eqb c "&" then chars "&amp;"
  else if Ascii.eqb c "<" then chars "&lt;"
  else if Ascii.eqb c ">" then chars "&gt;"
  else if Ascii.eqb c quot then chars "&quot;"
  else if Ascii.eqb c apos then chars "&#39;"
  else [c].

Definition escapeHtml (s : string) : string :=
  str (flat_map escape_char (chars s)).

(** The characters that end or open markup or an attribute value. *)
Definition markup_char (c : ascii) : bool :=
  Ascii.eqb c "<" || Ascii.eqb c ">" || Ascii.eqb c quot || Ascii.eqb c apos.

(** *** [slugify] and the name of the download *)

(** [[a-z0-9]] *)
Definition is_slug_char (c : ascii) : bool := is_lower c || is_digit c.

Definition dash : ascii := "-"%char.

(** [.replace(/[^a-z0-9]+/g, "-")]: every maximal run of other characters
    becomes one dash.  [in_run] tells that the character before belongs
    to such a run. *)
Fixpoint dash_runs (in_run : bool) (s : list ascii) : list ascii :=
  match s with
  | [] => []
  | c :: s' =>
      if is_slug_char c then c :: dash_runs false s'
      else if in_run then dash_runs true s'
      else dash :: dash_runs true s'
  end.

Fixpoint skip_dashes (s : list ascii) : list ascii :=
  match s with
  | c :: s' => if Ascii.eqb c dash then skip_dashes s' else s
  | [] => []
  end.

(** [.replace(/^-+|-+$/g, "")] *)
Definition strip_dashes (s : list ascii) : list ascii :=
  rev (skip_dashes (rev (skip_dashes s))).

Definition slugify_chars (s : list ascii) : list ascii :=
  take 80 (strip_dashes (dash_runs false (toLowerCase s))).

Definition slugify (s : string) : string := str (slugify_chars (chars s)).

(** [newIndex.name] and [fileName] of [build]:
    [`${(this.name || "Pack").replace(/\s+$/, "")} (for ${this.targetMc})`]
    and [`${slugify(newIndex.name)}.mrpack`]. *)
Definition newIndex_name (name targetMc : string) : string :=
  str (trimEnd (chars (or_str (Some name) "Pack")))
  +:+ " (for " +:+ targetMc +:+ ")".

Definition fileName (name targetMc : string) : string :=
  slugify (newIndex_name name targetMc) +:+ ".mrpack".

(** *** The id of a missing item *)

(** [[a-zA-Z0-9\-]] *)
Definition is_id_char (c : ascii) : bool :=
  is_lower c || is_upper c || is_digit c || Ascii.eqb c dash.

(** [`${category}-${name}-${targetMcVersion}`.replace(/[^a-zA-Z0-9\-]/g, '-')] *)
Definition item_id (category name targetMcVersion : string) : string :=
  str ((λ c, if is_id_char c then c else dash)
       <$> chars (category +:+ "-" +:+ name +:+ "-" +:+ targetMcVersion)).

(** *** [parseModpackNames] and [join(', ')] *)

(** [s.split(', ')]; [cur] is the piece read so far. *)
Fixpoint split_comma_space (cur s : list ascii) : list (list ascii) :=
  match s with
  | [] => [cur]
  | c :: s' =>
      match s' with
      | c2 :: rest =>
          if Ascii.eqb c "," && Ascii.eqb c2 " "
          then cur :: split_comma_space [] rest
          else split_comma_space (cur ++ [c]) s'
      | [] => split_comma_space (cur ++ [c]) s'
      end
  end.

(** [parseModpackNames]: the empty list for a value that is falsy or not
    a string. *)
Definition parseModpackNames (modpackString : option string) : list string :=
  match or_null modpackString with
  | None => []
  | Some s => (λ mp, str (trim mp)) <$> split_comma_space [] (chars s)
  end.

(** [names.join(', ')] *)
Fixpoint join_comma_space (names : list string) : string :=
  match names with
  | [] => ""
  | [n] => n
  | n :: rest => n +:+ ", " +:+ join_comma_space rest
  end.

(** A pack name that survives [join(', ')] followed by
    [parseModpackNames]: not empty, no white space at either end, and no
    comma followed by a space inside. *)
Definition no_separator (l : list ascii) : Prop :=
  ∀ pre post, l ≠ pre ++ chars ", " ++ post.

Definition plain_name (n : string) : Prop :=
  n ≠ "" ∧ trim (chars n) = chars n ∧ no_separator (chars n).

(** *** [parseVersion] and [compareVersions] *)

(** [s.split('.')] *)
Fixpoint split_dot (cur s : list ascii) : list (list ascii) :=
  match s with
  | [] => [cur]
  | c :: s' =>
      if Ascii.eqb c "." then cur :: split_dot [] s'
      else split_dot (cur ++ [c]) s'
  end.

Definition digit_value (c : ascii) : Z := Z.of_nat (code c - 48).

(** The value of the longest run of digits at the head of [s], after the
    digits [acc] read so far; [None] when there is no digit at all. *)
Fixpoint read_digits (acc : option Z) (s : list ascii) : option Z :=
  match s with
  | c :: s' =>
      if is_digit c
      then read_digits (Some (10 * default 0 acc + digit_value c)%Z) s'
      else acc
  | [] => acc
  end.

(** The numbers these functions meet: [NaN], an infinity, or a whole
    number that a double holds.  [0] and [-0] are one value here: [!==]
    and the sign that [sort] reads do not tell them apart. *)
Inductive Num : Type :=
| NaN
| Infinite (negative : bool)
| Whole (z : Z).

(** The Number for the whole number [z]: [z] itself when its size is
    below [2^53]; else the nearest double, which keeps 53 binary digits,
    with a tie going to the even one of the two neighbours; and an
    infinity when that rounding reaches [2^1024]. *)
Definition to_double (z : Z) : Num :=
  let m := Z.abs z in
  if (m <? 2 ^ 53)%Z then Whole z
  else
    let e := (Z.log2 m - 52)%Z in
    let q := (m / 2 ^ e)%Z in
    let r := (m mod 2 ^ e)%Z in
    let q' := if (2 ^ e <? 2 * r)%Z || ((2 * r =? 2 ^ e)%Z && Z.odd q)
              then (q + 1)%Z else q in
    let v := (q' * 2 ^ e)%Z in
    if (2 ^ 1024 <=? v)%Z then Infinite (z <? 0)%Z
    else Whole (Z.sgn z * v).

(** The Number of a run of digits read behind a sign; [NaN] when there is
    no digit. *)
Definition signed_number (sign : Z) (digits : option Z) : Num :=
  match digits with
  | Some n => to_double (sign * n)
  | None => NaN
  end.

(** [parseInt(s, 10)]: white space in front is skipped, a sign is read,
    and the longest run of digits behind it gives the number.  The
    standard lets an engine read the digits behind the twentieth
    significant one as zeros; here the value of the whole run is
    rounded. *)
Definition parseInt (s : list ascii) : Num :=
  match skip_spaces s with
  | c :: s' =>
      if Ascii.eqb c "-" then signed_number (-1) (read_digits None s')
      else if Ascii.eqb c "+" then signed_number 1 (read_digits None s')
      else signed_number 1 (read_digits None (c :: s'))
  | [] => NaN
  end.

(** [parseVersion]: the parts as numbers, filled up with zeros to three. *)
Definition parseVersion (versionStr : string) : list Num :=
  let parts := parseInt <$> split_dot [] (chars versionStr) in
  parts ++ replicate (3 - length parts) (Whole 0).

(** [pb[i] !== pa[i]] on numbers: [NaN] differs from every number and
    from itself. *)
Definition num_differ (x y : Num) : bool :=
  match x, y with
  | Whole a, Whole b => negb (a =? b)%Z
  | Infinite s, Infinite t => negb (Bool.eqb s t)
  | _, _ => true
  end.

(** [x - y] on numbers: the difference of two whole numbers is rounded
    like every result; an infinity minus itself is [NaN]. *)
Definition num_sub (x y : Num) : Num :=
  match x, y with
  | Whole a, Whole b => to_double (a - b)
  | Infinite s, Whole _ => Infinite s
  | Whole _, Infinite t => Infinite (negb t)
  | Infinite s, Infinite t => if Bool.eqb s t then NaN else Infinite s
  | _, _ => NaN
  end.

(** The loop [for (let i = 0; i < 3; i++)] of [compareVersions], with [n]
    rounds to go; both lists hold three parts at least. *)
Fixpoint compare_parts (n : nat) (pa pb : list Num) : Num :=
  match n, pa, pb with
  | S n', x :: pa', y :: pb' =>
      if num_differ y x then num_sub y x else compare_parts n' pa' pb'
  | _, _, _ => Whole 0
  end.

Definition compareVersions (a b : string) : Num :=
  compare_parts 3 (parseVersion a) (parseVersion b).

(** [\d+] at the head of [s]: what is left behind the longest run of
    digits, when there is a digit. *)
Fixpoint skip_digits (s : list ascii) : list ascii :=
  match s with
  | c :: s' => if is_digit c then skip_digits s' else s
  | [] => []
  end.

Definition digits1 (s : list ascii) : option (list ascii) :=
  match s with
  | c :: s' => if is_digit c then Some (skip_digits s') else None
  | [] => None
  end.

(** [/^\d+\.\d+(\.\d+)?$/.test(v)] *)
Definition version_re (v : string) : bool :=
  match digits1 (chars v) with
  | Some (c1 :: r1) =>
      Ascii.eqb c1 "." &&
      match digits1 r1 with
      | Some [] => true
      | Some (c2 :: r2) =>
          Ascii.eqb c2 "." &&
          match digits1 r2 with
          | Some [] => true
          | _ => false
          end
      | None => false
      end
  | _ => false
  end.

(** A tag of [tag/game_version]: [t.version]. *)
Record GameVersionTag : Type := mkGameVersionTag {
  tag_version : option string
}.

(** The comparator as [sort] reads it: a result of [NaN] counts as [0],
    and of any other result only the sign is looked at, which for an
    infinity is kept here as [1] or [-1]. *)
Definition sort_cmp (a b : string) : Z :=
  match compareVersions a b with
  | NaN => 0
  | Infinite negative => if negative then (-1)%Z else 1%Z
  | Whole d => d
  end.

(** The options of the version selector, from the answer of the tag
    endpoint: [tags.map(t => t.version || t).filter(v => re.test(v))]
    sorted with [compareVersions].  A tag without a version maps to the
    tag object itself, which fails the test. *)
Definition clean_versions (tags : list GameVersionTag) : list string :=
  VersionPolicy.array_sort sort_cmp
    (filter (λ v, version_re v = true) (omap (λ t, or_null (tag_version t)) tags)).

(** The number a run of digits stands for. *)
Definition number (d : list ascii) : Z :=
  foldl (λ acc c, 10 * acc + digit_value c)%Z 0%Z d.

(** A non-empty run of digits. *)
Definition digit_run (d : list ascii) : Prop :=
  d ≠ [] ∧ Forall (λ c, is_digit c = true) d.

(** The three numbers that a version string spells out: the value of the
    digits of each part between the dots, and [0] for a third part that
    is not there. *)
Definition version_key (v : string) : list Z :=
  let parts := number <$> split_dot [] (chars v) in
  parts ++ replicate (3 - length parts) 0%Z.

(** Every number that the version string spells out is below [2^53], so
    that a double holds it as it is. *)
Definition safe_integers (v : string) : Prop :=
  Forall (λ n, (n < 2 ^ 53)%Z) (version_key v).

(** [k1] comes before [k2] in the lexicographic order. *)
Fixpoint lex_lt (k1 k2 : list Z) : Prop :=
  match k1, k2 with
  | x :: k1', y :: k2' => (x < y)%Z ∨ (x = y ∧ lex_lt k1' k2')
  | _, _ => False
  end.

(** [a] is not older than [b]. *)
Definition not_older (a b : string) : Prop :=
  ¬ lex_lt (version_key a) (version_key b).

End Text.

(** ** The tracker of missing items: [MissingItemsManager] *)

Module MissingItems.

(** [getDefaultLoaderForCategory] *)
Definition getDefaultLoaderForCategory (category : string) : string :=
  if decide (category = "mod") then "fabric"
  else if decide (category = "shaderpack") then "iris"
  else "minecraft".

(** [checkModrinthVersionAvailability] returns [versions &&
    versions.length > 0]: [null] ([None] here) when the listing failed,
    else whether the listing holds a version. *)
Definition checkModrinthVersionAvailability (w : World)
    (projectId targetMc loader : string) : Net (option bool) :=
  versions ← Resolver.fetchModrinthVersions w projectId targetMc loader;
  mret ((λ vs : list Version, bool_decide (0 < length vs)) <$> versions).

(** A hit of the search endpoint; [hit_title] is absent when reading
    [hit.title.toLowerCase()] would throw. *)
Record Hit : Type := mkHit {
  hit_title : option string;
  hit_project_id : string
}.

(** What the search endpoint answers to a query ([searchData.hits], absent
    when the field is), and what the listing endpoint answers to the
    validating request of [resolveProjectIdFromName] for a project and a
    loader (game version 1.20.1, limit 1). *)
Record SearchWorld : Type := mkSearchWorld {
  s_search : string → Settled (Response (option (list Hit))) string;
  s_validate : string → string → Settled (Response (option (list Version))) string
}.

Definition lower (s : string) : list ascii := Text.toLowerCase (Text.chars s).

(** [hit.title.toLowerCase().includes(name.toLowerCase()) ||
     name.toLowerCase().includes(hit.title.toLowerCase())] *)
Definition title_matches (title name : string) : bool :=
  Fallback.contains (lower name) (lower title)
  || Fallback.contains (lower title) (lower name).

(** The validating request found a version:
    [versionRes.ok && Array.isArray(versions) && versions.length > 0]; a
    request that rejects is caught and counts as a failure. *)
Definition validated (sw : SearchWorld) (projectId loader : string) : bool :=
  match s_validate sw projectId loader with
  | Fulfilled (Ok (Some (_ :: _))) => true
  | _ => false
  end.

(** The loop [for (const hit of hits)]; a hit without a title throws, and
    the outer [catch] ends the search with [null]. *)
Fixpoint first_valid_hit (sw : SearchWorld) (name loader : string)
    (hits : list Hit) : option string :=
  match hits with
  | [] => None
  | hit :: rest =>
      match hit_title hit with
      | None => None
      | Some title =>
          if title_matches title name && validated sw (hit_project_id hit) loader
          then Some (hit_project_id hit)
          else first_valid_hit sw name loader rest
      end
  end.

(** [resolveProjectIdFromName]: [null] on every failure. *)
Definition resolveProjectIdFromName (sw : SearchWorld) (name category : string)
  : option string :=
  match s_search sw name with
  | Fulfilled (Ok hits) =>
      first_valid_hit sw name (getDefaultLoaderForCategory category)
                      (default [] hits)
  | _ => None
  end.

(** The loop goes past a hit: it has a title, and the title does not
    fit the name or the validating request found no version. *)
Definition hit_rejected (sw : SearchWorld) (name loader : string) (h : Hit) : Prop :=
  ∃ t, hit_title h = Some t
       ∧ title_matches t name && validated sw (hit_project_id h) loader = false.

(** [if (found)] on what the check returned. *)
Definition truthy_flag (found : option bool) : bool := default false found.

(** A tracked item. *)
Record Item : Type := mkItem {
  i_id : string;
  name : string;
  category : string;
  targetMcVersion : string;
  originalModpack : option string;
  projectId : option string;
  loader : option string;
  dateAdded : string;
  lastChecked : option string;
  found : option bool
}.

(** The object kept under [MISSING_ITEMS_KEY].  [version] is
    [data.version] as the one place that reads it does, the test
    [data.version < 3], which converts its left side to a number first:
    the number itself, [0] for [null], [0] and [1] for [false] and
    [true], the number that a numeric string spells; a fraction is cut
    off here, which a test against a whole number cannot tell (a number
    written beyond the range of a double, which reads as an infinity, is
    left out).  It is absent when the conversion gives [NaN], as it does
    for a key that is missing.  [items] is [data.items]. *)
Record Data : Type := mkData {
  version : option Z;
  items : option (list Item)
}.

(** What [localStorage.getItem] and [JSON.parse] make of the slot: no
    value (or the empty string), a value on which reading throws, or
    data. *)
Inductive Stored : Type :=
| Absent
| Unreadable
| Held (data : Data).

Definition MISSING_ITEMS_VERSION : Z := 3.

(** [{ version: this.MISSING_ITEMS_VERSION, items: [] }] *)
Definition fresh : Data := mkData (Some MISSING_ITEMS_VERSION) (Some []).

(** [item.originalModpack = s; item.dateAdded = now] *)
Definition with_modpack (s : string) (now : string) (it : Item) : Item :=
  mkItem (i_id it) (name it) (category it) (targetMcVersion it) (Some s)
         (projectId it) (loader it) now (lastChecked it) (found it).

(** [item.originalModpack = s] *)
Definition with_modpack_only (s : string) (it : Item) : Item :=
  mkItem (i_id it) (name it) (category it) (targetMcVersion it) (Some s)
         (projectId it) (loader it) (dateAdded it) (lastChecked it) (found it).

(** [item.found = found; item.lastChecked = stamp] *)
Definition with_status (f : option bool) (stamp : string) (it : Item) : Item :=
  mkItem (i_id it) (name it) (category it) (targetMcVersion it)
         (originalModpack it) (projectId it) (loader it) (dateAdded it)
         (Some stamp) f.

(** [{ ...item, projectId: pid, loader: l }] *)
Definition with_project (pid : option string) (l : string) (it : Item) : Item :=
  mkItem (i_id it) (name it) (category it) (targetMcVersion it)
         (originalModpack it) pid (Some l) (dateAdded it) (lastChecked it)
         (found it).

(** A change made to the object that [items.find(item => item.id === id)]
    returned: the first item with this id is changed in place. *)
Fixpoint update_first (id : string) (f : Item → Item) (l : list Item) : list Item :=
  match l with
  | [] => []
  | it :: l' =>
      if decide (i_id it = id) then f it :: l'
      else it :: update_first id f l'
  end.

(** [items.find(item => item.id === id)] *)
Definition find_item (id : string) (l : list Item) : option Item :=
  List.find (λ it, bool_decide (i_id it = id)) l.

Section store.

(** Whether [localStorage.setItem] accepts the data (it throws when the
    quota is exceeded), and what [resolveProjectIdFromName] fulfils
    with. *)
Variable fits : Data → bool.
Variable resolve : string → string → option string.

(** [saveMissingItems]: the slot after the call, and the result. *)
Definition saveMissingItems (data : Data) (st : Stored) : bool * Stored :=
  if fits data then (true, Held data) else (false, st).

(** One round of the upgrade loop: the item as it is pushed on
    [upgradedItems], or nothing when it is skipped. *)
Definition upgrade_item (it : Item) : option Item :=
  if truthy (projectId it) && truthy (loader it) then Some it
  else if truthy (projectId it)
  then Some (with_project (projectId it) (getDefaultLoaderForCategory (category it)) it)
  else
    match or_null (resolve (name it) (category it)) with
    | Some resolvedId =>
        Some (with_project (Some resolvedId)
                (getDefaultLoaderForCategory (category it)) it)
    | None => None
    end.

(** [data.version < 3], which is false of [NaN] *)
Definition outdated (data : Data) : bool :=
  match version data with
  | Some v => (v <? 3)%Z
  | None => false
  end.

(** [getMissingItems]: what it returns, and the slot after the call. *)
Definition getMissingItems (st : Stored) : Data * Stored :=
  match st with
  | Absent | Unreadable => (fresh, st)
  | Held data =>
      if outdated data then
        let upgradedData :=
          mkData (Some MISSING_ITEMS_VERSION)
                 (Some (omap upgrade_item (default [] (items data)))) in
        (upgradedData, (saveMissingItems upgradedData st).2)
      else (data, st)
  end.

(** Reading [data.items] where the code calls a method on it: a
    [TypeError] when it is absent. *)
Definition items_of (data : Data) : Settled (list Item) string :=
  match items data with
  | Some its => Fulfilled its
  | None => Rejected "TypeError"
  end.

(** [addMissingItem]; [now] is [new Date().toISOString()]. *)
Definition addMissingItem (now : string)
    (name category targetMcVersion originalModpack : string)
    (projectId loader : option string) (st : Stored)
  : Settled Item string * Stored :=
  let '(data, st1) := getMissingItems st in
  let id := Text.item_id category name targetMcVersion in
  match items_of data with
  | Rejected e => (Rejected e, st1)
  | Fulfilled its =>
      match find_item id its with
      | Some existing =>
          let modpacks := Text.parseModpackNames (MissingItems.originalModpack existing) in
          if decide (originalModpack ∈ modpacks) then (Fulfilled existing, st1)
          else
            let joined := Text.join_comma_space (modpacks ++ [originalModpack]) in
            (Fulfilled (with_modpack joined now existing),
             (saveMissingItems
                (mkData (version data)
                        (Some (update_first id (with_modpack joined now) its)))
                st1).2)
      | None =>
          let item :=
            mkItem id name category targetMcVersion (Some originalModpack)
                   projectId
                   (Some (or_str loader (getDefaultLoaderForCategory category)))
                   now None (Some false) in
          (Fulfilled item,
           (saveMissingItems (mkData (version data) (Some (its ++ [item]))) st1).2)
      end
  end.

(** [removeMissingItem] *)
Definition removeMissingItem (id : string) (st : Stored)
  : Settled unit string * Stored :=
  let '(data, st1) := getMissingItems st in
  match items_of data with
  | Rejected e => (Rejected e, st1)
  | Fulfilled its =>
      (Fulfilled (),
       (saveMissingItems
          (mkData (version data) (Some (filter (λ it, i_id it ≠ id) its))) st1).2)
  end.

(** [updateMissingItemStatus]; [stamp] is [lastChecked || new
    Date().toISOString()]. *)
Definition updateMissingItemStatus (id : string) (f : option bool)
    (stamp : string) (st : Stored) : Settled unit string * Stored :=
  let '(data, st1) := getMissingItems st in
  match items_of data with
  | Rejected e => (Rejected e, st1)
  | Fulfilled its =>
      match find_item id its with
      | Some _ =>
          (Fulfilled (),
           (saveMissingItems
              (mkData (version data) (Some (update_first id (with_status f stamp) its)))
              st1).2)
      | None => (Fulfilled (), st1)
      end
  end.

(** [clearMissingItems] *)
Definition clearMissingItems (st : Stored) : Stored :=
  (saveMissingItems fresh st).2.

(** [removeMissingItemFromModpack] *)
Definition removeMissingItemFromModpack (id modpackName : string) (st : Stored)
  : Settled unit string * Stored :=
  let '(data, st1) := getMissingItems st in
  match items_of data with
  | Rejected e => (Rejected e, st1)
  | Fulfilled its =>
      match find_item id its with
      | Some item =>
          let modpacks := Text.parseModpackNames (originalModpack item) in
          let updatedModpacks := filter (λ mp, mp ≠ modpackName) modpacks in
          let its' :=
            match updatedModpacks with
            | [] => filter (λ it, i_id it ≠ id) its
            | _ :: _ =>
                update_first id
                  (with_modpack_only (Text.join_comma_space updatedModpacks)) its
            end in
          (Fulfilled (), (saveMissingItems (mkData (version data) (Some its')) st1).2)
      | None => (Fulfilled (), st1)
      end
  end.

(** What [checkMissingItemsForUpdates] tells the user in the end. *)
Inductive Notice : Type :=
| NothingToCheck
| FoundSome (foundCount : nat) (foundItems : list string)
| NoUpdates
| CheckFailed.

(** [`${item.name} (${item.originalModpack || 'Unknown'})`] *)
Definition label (item : Item) : string :=
  name item +:+ " (" +:+ or_str (originalModpack item) "Unknown" +:+ ")".

(** The loop [for (const item of items)] of
    [checkMissingItemsForUpdates], from its round [k] on: the slot, the
    count of finds (or the failure that sends it to the [catch] branch)
    and the calls made.  [clock k] is the time at which round [k] writes its
    status.  The status of an item is written by a call of
    [updateMissingItemStatus] that is not awaited; on a slot that holds
    current data this call has read and written the slot by the time the
    pause of the round is over, and this is how it is placed here. *)
Fixpoint check_loop (w : World) (clock : nat → string) (k : nat)
    (todo : list Item) (st : Stored) (foundCount : nat) (log : list Call)
  : Stored * Settled nat string * list Call :=
  match todo with
  | [] => (st, Fulfilled foundCount, log)
  | item :: rest =>
      match or_null (projectId item) with
      | None => check_loop w clock (S k) rest st foundCount log
      | Some pid =>
          let l := or_str (loader item) (getDefaultLoaderForCategory (category item)) in
          match checkModrinthVersionAvailability w pid (targetMcVersion item) l log with
          | (Fulfilled f, log') =>
              check_loop w clock (S k) rest
                (updateMissingItemStatus (i_id item) f (clock k) st).2
                (if truthy_flag f then S foundCount else foundCount) log'
          | (Rejected e, log') => (st, Rejected e, log')
          end
      end
  end.

(** [items.filter(item => { const updated = data.items.find(i => i.id ===
    item.id); return updated && updated.found; })], on the data read at
    the start of the check. *)
Definition foundItems (its : list Item) : list Item :=
  filter (λ item, truthy_flag (find_item (i_id item) its ≫= found) = true) its.

(** [checkMissingItemsForUpdates], for a call that finds no other check
    under way: the notice, the slot and the calls. *)
Definition checkMissingItemsForUpdates (w : World) (clock : nat → string)
    (st : Stored) (log : list Call) : Notice * Stored * list Call :=
  let '(data, st1) := getMissingItems st in
  match default [] (items data) with
  | [] => (NothingToCheck, st1, log)
  | its =>
      match check_loop w clock 0 its st1 0 log with
      | (st2, Fulfilled foundCount, log') =>
          (if decide (0 < foundCount)
           then FoundSome foundCount (label <$> foundItems its)
           else NoUpdates, st2, log')
      | (st2, Rejected _, log') => (CheckFailed, st2, log')
      end
  end.

End store.

(** What the check of an item comes to: nothing for an item without a
    project id, else what [checkModrinthVersionAvailability] returns for
    its project, target and loader. *)
Definition availability (w : World) (item : Item) : option (option bool) :=
  match or_null (projectId item) with
  | None => None
  | Some pid =>
      Some ((λ vs : list Version, bool_decide (0 < length vs))
            <$> Resolver.listed_versions w pid (targetMcVersion item)
                  (or_str (loader item) (getDefaultLoaderForCategory (category item))))
  end.

(** The item after round [k] of the check. *)
Definition checked (w : World) (clock : nat → string) (k : nat) (item : Item) : Item :=
  match availability w item with
  | Some f => with_status f (clock k) item
  | None => item
  end.

(** The check finds the item now. *)
Definition found_now (w : World) (item : Item) : bool :=
  match availability w item with
  | Some f => truthy_flag f
  | None => false
  end.

(** The listing request of the check of an item. *)
Definition call_of (item : Item) : option Call :=
  (λ pid, GetVersions pid (targetMcVersion item)
            (or_str (loader item) (getDefaultLoaderForCategory (category item))))
  <$> or_null (projectId item).

(** The packs an item is tracked for. *)
Definition packs_of (it : Item) : list string :=
  Text.parseModpackNames (originalModpack it).

(** The item lists the plain pack names [names], at least one. *)
Definition lists_packs (it : Item) (names : list string) : Prop :=
  names ≠ [] ∧ Forall Text.plain_name names
  ∧ originalModpack it = Some (Text.join_comma_space names).

(** The slot holds current data in which no two items share an id and
    every item lists plain pack names. *)
Definition well_kept (st : Stored) : Prop :=
  ∃ its,
    st = Held (mkData (Some MISSING_ITEMS_VERSION) (Some its))
    ∧ NoDup (i_id <$> its)
    ∧ Forall (λ it, ∃ names, lists_packs it names) its.

(** The slot is empty or holds current data with a list of items. *)
Definition current_slot (st : Stored) : Prop :=
  st = Absent
  ∨ ∃ its, st = Held (mkData (Some MISSING_ITEMS_VERSION) (Some its)).

(** The slot is empty or well kept. *)
Definition tidy (st : Stored) : Prop := st = Absent ∨ well_kept st.

(** The items the slot holds. *)
Definition held_items (st : Stored) : list Item :=
  match st with
  | Held data => default [] (items data)
  | _ => []
  end.

End MissingItems.

(** ** A pack on disk, used below *)

Module PackSamples.
Import Samples.

(** A manifest of five entries: one carries no hash, two resolve to the
    same project. *)
Definition manifest : Analyze.PackIndex :=
  Analyze.mkPackIndex (Some "Vanilla Plus")
    (Some (list_to_map [("minecraft", "1.20.1"); ("fabric-loader", "0.15.0")]))
    (Some
       [ Analyze.mkPackFile (Some "aa01")
           (Builder.mkOrigFile (Some "mods/sodium-0.5.8.jar") None);
         Analyze.mkPackFile (Some "aa02")
           (Builder.mkOrigFile (Some "mods/carpet.jar") None);
         Analyze.mkPackFile None
           (Builder.mkOrigFile (Some "mods/unhashed.jar") None);
         Analyze.mkPackFile (Some "aa05")
           (Builder.mkOrigFile (Some "mods/sodium-extra.jar") None);
         Analyze.mkPackFile (Some "aa03")
           (Builder.mkOrigFile (Some "mods/lithium-0.11.jar") None) ]).

Definition hash_answers : list (string * option Analyze.HashHit) :=
  [ ("aa01", Some (Analyze.mkHashHit (Some "AANobbMI") v_release_old));
    ("aa02", Some (Analyze.mkHashHit (Some "TQTTVgYE") v_release_old));
    ("aa05", Some (Analyze.mkHashHit (Some "AANobbMI") v_alpha));
    ("aa03", Some (Analyze.mkHashHit (Some "gvQqBUqZ") v_lithium));
    ("error", None) ].

Definition input : Analyze.Input :=
  {| Analyze.in_index := Some manifest;
     Analyze.in_version_files := λ _, Fulfilled hash_answers;
     Analyze.in_projects := λ _,
       Fulfilled (Ok [("AANobbMI", sodium); ("TQTTVgYE", carpet);
                      ("gvQqBUqZ", lithium)]);
     Analyze.in_targetMc := "1.21";
     Analyze.in_packLoader := "fabric" |}.

(** The same pack at a moment when the batch endpoint fails. *)
Definition input_no_batch : Analyze.Input :=
  {| Analyze.in_index := Some manifest;
     Analyze.in_version_files := λ _, Fulfilled hash_answers;
     Analyze.in_projects := λ _, Fulfilled (NotOk 502);
     Analyze.in_targetMc := "1.21";
     Analyze.in_packLoader := "fabric" |}.

(** What [analyze] returns for it, and what the tasks closed over. *)
Definition rows_of (w : World) (i : Analyze.Input) : list (option Resolver.Row) :=
  match Analyze.analyze_in_order w i with
  | Analyze.ReturnedRows rows => rows
  | _ => []
  end.

Definition rows : list (option Resolver.Row) := Eval vm_compute in rows_of world input.

Definition rows_no_batch : list (option Resolver.Row) :=
  Eval vm_compute in rows_of world input_no_batch.

End PackSamples.

(** ** A tracker, used below *)

Module TrackerSamples.
Import MissingItems.

(** A browser that accepts every write, and a search that resolves no
    name but one. *)
Definition roomy : Data → bool := λ _, true.

Definition resolve_lithium : string → string → option string :=
  λ name _, if decide (name = "Lithium") then Some "gvQqBUqZ" else None.

Definition noon : string := "2026-01-01T12:00:00.000Z".

(** The slot after Sodium was remembered for one pack. *)
Definition tracked : Stored :=
  Eval vm_compute in
    (addMissingItem roomy resolve_lithium noon "Sodium" "mod" "1.21"
       "Vanilla Plus" (Some "AANobbMI") None Absent).2.

(** Data as the first version of the tracker wrote it: no project ids, no
    loaders. *)
Definition old_item (id name : string) : Item :=
  mkItem id name "mod" "1.21" (Some "Vanilla Plus") None None noon None (Some false).

Definition old_data : Data :=
  mkData (Some 1%Z)
         (Some [old_item "mod-Lithium-1-21" "Lithium";
                old_item "mod-Gone-1-21" "Gone"]).

(** An answer of the tag endpoint: releases, a snapshot and a tag
    without a version. *)
Definition game_versions : list Text.GameVersionTag :=
  [ Text.mkGameVersionTag (Some "1.9");
    Text.mkGameVersionTag (Some "1.21.4");
    Text.mkGameVersionTag (Some "24w14a");
    Text.mkGameVersionTag None;
    Text.mkGameVersionTag (Some "1.21") ].

(** A search that knows the name Lithium only: the first hit is another
    project, the second holds the name in its title but has no version
    for the validating request, the third passes both tests. *)
Definition search_lithium : SearchWorld :=
  {| s_search := λ query,
       if decide (query = "Lithium")
       then Fulfilled (Ok (Some [mkHit (Some "Sodium") "AANobbMI";
                                 mkHit (Some "Lithium Extras") "Lx7eKq2B";
                                 mkHit (Some "lithium") "gvQqBUqZ";
                                 mkHit (Some "Lithium") "nT5gVw0c"]))
       else Rejected "Failed to fetch";
     s_validate := λ pid _,
       if decide (pid = "Lx7eKq2B") then Fulfilled (Ok (Some []))
       else Fulfilled (Ok (Some [Samples.v_lithium])) |}.

End TrackerSamples.

(** * Properties *)

(** ** The scheduler *)

Module SchedulerFacts.
Import Scheduler.

Section facts.
Context {Item V E : Type}.
Variable items : list Item.
Variable limit : nat.
Variable fn : Item → Settled V E.

Local Abbreviation init := (init items).
Local Abbreviation step := (step items limit fn).
Local Abbreviation exec := (exec items limit fn).
Local Abbreviation reachable := (reachable items limit fn).
Local Abbreviation quiescent := (quiescent items limit fn).
Local Abbreviation sequentialInOrder := (sequentialInOrder fn).
Local Abbreviation slot := (slot fn).
Local Abbreviation filled := (filled items fn).
Local Abbreviation log_upto := (log_upto items).
Local Abbreviation fulfilled_before := (fulfilled_before items fn).
Local Abbreviation Inv := (Inv items limit fn).
Local Abbreviation fuel := (fuel items).

Lemma filled_length k : k ≤ length items → length (filled k) = length items.
Proof.
  intros Hk. unfold filled.
  rewrite length_app, length_fmap, length_take, length_replicate. lia.
Qed.

Lemma filled_fulfilled k x v :
  items !! k = Some x → fn x = Fulfilled v →
  array_set (filled k) k v = filled (S k).
Proof.
  intros Hx Hv. pose proof (lookup_lt_Some _ _ _ Hx) as Hlt.
  unfold array_set. rewrite filled_length by lia.
  destruct (decide (k < length items)) as [_|]; [|lia].
  unfold filled. rewrite (take_S_r _ _ _ Hx), fmap_app. simpl.
  replace (slot x) with (Some v) by (unfold Scheduler.slot; by rewrite Hv).
  replace (length items - k) with (S (length items - S k)) by lia.
  simpl. rewrite insert_app_r_alt; rewrite length_fmap, length_take; [|lia].
  replace (k - k `min` length items) with 0 by lia. simpl.
  by rewrite <- app_assoc.
Qed.

Lemma filled_rejected k x e :
  items !! k = Some x → fn x = Rejected e → filled k = filled (S k).
Proof.
  intros Hx He. pose proof (lookup_lt_Some _ _ _ Hx) as Hlt.
  unfold filled. rewrite (take_S_r _ _ _ Hx), fmap_app. simpl.
  replace (slot x) with (@None V) by (unfold Scheduler.slot; by rewrite He).
  replace (length items - k) with (S (length items - S k)) by lia.
  simpl. by rewrite <- app_assoc.
Qed.

Lemma log_upto_S k :
  log_upto (S k) = log_upto k ++ [Start k; Tick (S k) (length items)].
Proof.
  unfold log_upto. rewrite seq_S, flat_map_app. simpl. done.
Qed.

Lemma fulfilled_before_S k x v :
  items !! k = Some x → fn x = Fulfilled v →
  fulfilled_before k → fulfilled_before (S k).
Proof.
  intros Hx Hv Hk j y Hj Hy.
  destruct (decide (j = k)) as [->|]; [|apply (Hk j y); [lia|done]].
  rewrite Hx in Hy. injection Hy as <-. eauto.
Qed.

Lemma Inv_init : Inv init.
Proof.
  unfold Inv, init; simpl. repeat split; try done; try lia.
  - intros j x Hj. lia.
  - unfold filled. rewrite take_0. simpl. by rewrite Nat.sub_0_r.
Qed.

Lemma Inv_step s ev s' : Inv s → step s ev = Some s' → Inv s'.
Proof.
  intros HI Hs. destruct ev as [|idx]; simpl in Hs.
  - unfold main in Hs. unfold Inv in HI.
    destruct (st_pc s) eqn:Hpc; try done.
    + destruct HI as (Hr & Hd & Hi & Hf & Ho & Hl).
      destruct (decide (st_i s < length items)); injection Hs as <-;
        unfold Inv; simpl; [done|].
      assert (st_i s = length items) as Heq by lia.
      rewrite <- Heq. repeat split; try done; lia.
    + destruct HI as (Hr & Hd & Hi & Hf & Ho & Hl).
      destruct (decide (size (st_running s) < limit)) as [Hsz|],
               (items !! st_i s) eqn:Hx; injection Hs as <-;
        unfold Inv; simpl; try done.
      rewrite Hr, size_empty in Hsz.
      rewrite Hr, Hl, union_empty_r_L. pose proof (lookup_lt_Some _ _ _ Hx).
      repeat split; try done; lia.
    + destruct HI as (Hr & Hd & Hi & Hf & Ho & Hl).
      rewrite Hr, size_empty in Hs. simpl in Hs. injection Hs as <-.
      unfold Inv; simpl. done.
  - destruct (decide (idx ∈ st_running s)) as [Hin|]; [|done].
    destruct (items !! idx) as [x|] eqn:Hx; [|done].
    injection Hs as <-. unfold Inv in HI.
    destruct (st_pc s) eqn:Hpc;
      try (destruct HI as (Hr & _); rewrite Hr in Hin;
           by apply not_elem_of_empty in Hin); [|done].
    destruct HI as (Hr & Hi & Hd & Hle & Hf & Ho & Hl & Hlim).
    rewrite Hr in Hin. apply elem_of_singleton in Hin as ->.
    unfold Inv, settle. rewrite Hpc. simpl.
    rewrite bool_decide_eq_true_2 by done.
    destruct (fn x) as [v|e] eqn:Hfx; simpl.
    + rewrite Hr, Hd, Hi, Ho, Hl, (filled_fulfilled _ _ _ Hx Hfx), log_upto_S.
      rewrite <- app_assoc. simpl.
      rewrite difference_diag_L. repeat split; try done.
      by eapply fulfilled_before_S.
    + rewrite Hr, Hd, Hi, Ho, Hl, difference_diag_L. repeat split; try done.
      exists idx0, x. rewrite log_upto_S, <- app_assoc. simpl. done.
Qed.

Lemma Inv_exec tr s s' : Inv s → exec tr s = Some s' → Inv s'.
Proof.
  revert s. induction tr as [|ev tr IH]; simpl; intros s HI Hs.
  - by injection Hs as <-.
  - destruct (step s ev) as [s1|] eqn:H1; [|done].
    eapply IH; [|done]. by eapply Inv_step.
Qed.

Lemma Inv_reachable s : reachable s → Inv s.
Proof. intros [tr Htr]. eapply Inv_exec; [apply Inv_init|done]. Qed.

(** *** The run is finite and can always be finished *)

Lemma step_fuel s ev s' :
  1 ≤ limit → Inv s → step s ev = Some s' → fuel s' < fuel s.
Proof.
  intros Hlim HI Hs. destruct ev as [|idx]; simpl in Hs.
  - unfold main in Hs. unfold Scheduler.Inv in HI.
    destruct (st_pc s) eqn:Hpc; try done;
      destruct HI as (Hr & Hd & Hi & Hf & Ho & Hl).
    + destruct (decide (st_i s < length items)); injection Hs as <-;
        unfold Scheduler.fuel; rewrite Hpc; simpl;
        repeat case_decide; lia.
    + rewrite Hr, size_empty in Hs.
      destruct (decide (0 < limit)) as [_|]; [|lia].
      destruct (items !! st_i s) eqn:Hx.
      * pose proof (lookup_lt_Some _ _ _ Hx).
        injection Hs as <-. unfold Scheduler.fuel; rewrite Hpc; simpl.
        repeat case_decide; lia.
      * apply lookup_ge_None in Hx. injection Hs as <-.
        unfold Scheduler.fuel; rewrite Hpc; simpl. repeat case_decide; lia.
    + rewrite Hr, size_empty in Hs. simpl in Hs. injection Hs as <-.
      unfold Scheduler.fuel; rewrite Hpc; simpl. repeat case_decide; lia.
  - destruct (decide (idx ∈ st_running s)) as [Hin|]; [|done].
    destruct (items !! idx) as [x|] eqn:Hx; [|done].
    injection Hs as <-. unfold Scheduler.Inv in HI.
    destruct (st_pc s) eqn:Hpc;
      try (destruct HI as (Hr & _); rewrite Hr in Hin;
           by apply not_elem_of_empty in Hin); [|done].
    destruct HI as (Hr & Hi & Hd & Hle & Hf & Ho & Hl).
    rewrite Hr in Hin. apply elem_of_singleton in Hin as ->.
    unfold Scheduler.fuel, settle. rewrite Hpc. simpl.
    rewrite bool_decide_eq_true_2 by done.
    destruct (fn x); simpl; repeat case_decide; lia.
Qed.

Lemma exec_fuel tr s s' :
  1 ≤ limit → Inv s → exec tr s = Some s' → length tr + fuel s' ≤ fuel s.
Proof.
  intros Hlim. revert s. induction tr as [|ev tr IH]; simpl; intros s HI Hs.
  - injection Hs as <-. lia.
  - destruct (step s ev) as [s1|] eqn:H1; [|done].
    pose proof (step_fuel _ _ _ Hlim HI H1).
    pose proof (IH s1 (Inv_step _ _ _ HI H1) Hs). lia.
Qed.

(** Unless the call is over, something can happen. *)
Lemma progress s :
  Inv s → result s = None → ∃ ev s', step s ev = Some s'.
Proof.
  intros HI Hres. unfold result in Hres. unfold Scheduler.Inv in HI.
  destruct (st_pc s) eqn:Hpc; try done.
  - exists Main. simpl. unfold main. rewrite Hpc. case_decide; eauto.
  - exists Main. simpl. unfold main. rewrite Hpc.
    destruct (decide _), (items !! st_i s); eauto.
  - destruct HI as (Hr & Hi & Hd & Hle & _).
    destruct (lookup_lt_is_Some_2 items idx) as [x Hx]; [lia|].
    exists (Settle idx). simpl. rewrite Hr.
    rewrite decide_True by (by apply elem_of_singleton).
    rewrite Hx. eauto.
  - exists Main. simpl. unfold main. rewrite Hpc. case_decide; eauto.
Qed.

Lemma exec_app tr1 tr2 s :
  exec (tr1 ++ tr2) s = exec tr1 s ≫= exec tr2.
Proof.
  revert s. induction tr1 as [|ev tr1 IH]; simpl; intros s; [done|].
  destruct (step s ev); simpl; [apply IH|done].
Qed.

Lemma can_finish s :
  1 ≤ limit → Inv s → ∃ tr s', exec tr s = Some s' ∧ is_Some (result s').
Proof.
  intros Hlim. remember (fuel s) as n eqn:Hn. revert s Hn.
  induction (lt_wf n) as [n _ IH]. intros s -> HI.
  destruct (result s) as [r|] eqn:Hres.
  - exists [], s. simpl. rewrite Hres. eauto.
  - destruct (progress s HI Hres) as (ev & s1 & H1).
    destruct (IH (fuel s1) (step_fuel _ _ _ Hlim HI H1) s1 eq_refl
                 (Inv_step _ _ _ HI H1)) as (tr & s' & Htr & Hr).
    exists (ev :: tr), s'. simpl. rewrite H1. done.
Qed.

(** Once the call is over, nothing is in flight and nothing can happen. *)
Lemma result_quiescent s : Inv s → is_Some (result s) → quiescent s.
Proof.
  intros HI [r Hr] ev. unfold result in Hr. unfold Scheduler.Inv in HI.
  destruct (st_pc s) eqn:Hpc; try done;
    destruct HI as (Hrun & _);
    (destruct ev as [|idx]; simpl;
     [unfold main; by rewrite Hpc
     |rewrite Hrun; by rewrite decide_False by apply not_elem_of_empty]).
Qed.

Lemma quiescent_result s : Inv s → quiescent s → is_Some (result s).
Proof.
  intros HI Hq. destruct (result s) eqn:Hres; [eauto|].
  destruct (progress s HI Hres) as (ev & s' & Hs). by rewrite Hq in Hs.
Qed.

(** *** The sequential run *)

Lemma sequential_fulfilled (l : list Item) :
  (∀ j x, l !! j = Some x → ∃ v, fn x = Fulfilled v) →
  sequentialInOrder l = Fulfilled (slot <$> l).
Proof.
  induction l as [|x l IH]; intros Hall; simpl; [done|].
  destruct (Hall 0 x eq_refl) as [v Hv]. unfold Scheduler.slot at 1.
  rewrite Hv, IH; [done|]. intros j y Hy. by apply (Hall (S j)).
Qed.

Lemma sequential_rejected (l : list Item) k x e :
  l !! k = Some x → fn x = Rejected e →
  (∀ j y, j < k → l !! j = Some y → ∃ v, fn y = Fulfilled v) →
  sequentialInOrder l = Rejected e.
Proof.
  revert k. induction l as [|y l IH]; intros k Hx He Hbefore; [done|].
  destruct k as [|k]; simpl in *.
  - injection Hx as ->. by rewrite He.
  - destruct (Hbefore 0 y) as [v Hv]; [lia|done|]. rewrite Hv.
    rewrite (IH k Hx He); [done|].
    intros j z Hj Hz. apply (Hbefore (S j)); [lia|done].
Qed.

Lemma filled_all : filled (length items) = slot <$> items.
Proof.
  unfold Scheduler.filled.
  rewrite firstn_all, Nat.sub_diag. simpl. by rewrite app_nil_r.
Qed.

Lemma result_sequential s r :
  Inv s → result s = Some r → r = sequentialInOrder items.
Proof.
  intros HI Hr. unfold result in Hr. unfold Scheduler.Inv in HI.
  destruct (st_pc s) eqn:Hpc; try done; injection Hr as <-.
  - destruct HI as (_ & _ & _ & Hf & Ho & _).
    rewrite Ho, filled_all. symmetry. apply sequential_fulfilled.
    intros j x Hx. apply (Hf j x); [by eapply lookup_lt_Some|done].
  - destruct HI as (_ & _ & _ & idx & x & _ & Hx & He & Hf & _).
    symmetry. by eapply sequential_rejected.
Qed.

(** *** After a rejection *)

Lemma dispatched_log_upto k idx : Start idx ∈ log_upto k ↔ idx < k.
Proof.
  induction k as [|k IH]; [unfold Scheduler.log_upto; simpl; split; [by intros ?%elem_of_nil|lia]|].
  rewrite log_upto_S, elem_of_app, IH. split.
  - intros [?|Hin]; [lia|]. apply elem_of_cons in Hin as [[= ->]|Hin]; [lia|].
    apply elem_of_cons in Hin as [?|Hin]; [done|]. by apply elem_of_nil in Hin.
  - intros Hlt. destruct (decide (idx = k)) as [->|]; [|left; lia].
    right. apply elem_of_cons. by left.
Qed.

Lemma dispatched_lt s idx : Inv s → dispatched s idx → idx < st_i s.
Proof.
  unfold dispatched, Scheduler.Inv. intros HI Hin.
  destruct (st_pc s); try done.
  1,2,4: destruct HI as (_ & _ & _ & _ & _ & Hl);
    rewrite Hl in Hin; by apply dispatched_log_upto in Hin.
  2: { destruct HI as (_ & _ & Hi & _ & _ & Hl).
       rewrite Hl in Hin. apply dispatched_log_upto in Hin. lia. }
  - destruct HI as (_ & Hi & _ & _ & _ & _ & Hl & _). rewrite Hl in Hin.
    apply elem_of_app in Hin as [Hin|Hin].
    + apply dispatched_log_upto in Hin. lia.
    + apply list_elem_of_singleton in Hin. injection Hin as ->. lia.
  - destruct HI as (_ & _ & _ & k & x & Hi & _ & _ & _ & _ & Hl).
    rewrite Hl in Hin. apply dispatched_log_upto in Hin. lia.
Qed.

Lemma fulfilled_before_le k x e n :
  items !! k = Some x → fn x = Rejected e → fulfilled_before n → n ≤ k.
Proof.
  intros Hx He Hn. destruct (decide (n ≤ k)); [done|].
  destruct (Hn k x) as [v Hv]; [lia|done|]. congruence.
Qed.

(** Once the task at [k] rejects (and none before it), nothing beyond
    [k] is ever started, and the call never returns. *)
Lemma first_rejection_stops k x e s :
  items !! k = Some x → fn x = Rejected e → fulfilled_before k → Inv s →
  st_i s ≤ S k ∧ st_done s ≤ S k ∧ st_pc s ≠ Returned
  ∧ (is_Some (result s) → result s = Some (Rejected e) ∧ st_done s = S k).
Proof.
  intros Hx He Hk HI. pose proof (lookup_lt_Some _ _ _ Hx) as Hlt.
  unfold Scheduler.Inv in HI. unfold result.
  destruct (st_pc s) eqn:Hpc; try done.
  1,2,4: destruct HI as (_ & Hd & _ & Hf & _);
    pose proof (fulfilled_before_le _ _ _ _ Hx He Hf);
    ((split_and!); [lia|lia|done|by intros [? ?]]).
  - destruct HI as (_ & Hi & Hd & _ & Hf & _).
    pose proof (fulfilled_before_le _ _ _ _ Hx He Hf).
    (split_and!); [lia|lia|done|by intros [? ?]].
  - destruct HI as (_ & _ & _ & Hf & _).
    pose proof (fulfilled_before_le _ _ _ _ Hx He Hf). lia.
  - destruct HI as (_ & Hd & _ & idx & y & Hi & Hy & He' & Hf & _).
    pose proof (fulfilled_before_le _ _ _ _ Hx He Hf).
    pose proof (fulfilled_before_le _ _ _ _ Hy He' Hk).
    assert (idx = k) as -> by lia.
    rewrite Hx in Hy. injection Hy as <-. rewrite He in He'. injection He' as <-.
    (split_and!); [lia|lia|done|]. intros _. split; [done|lia].
Qed.

(** Settling a task releases its slot, counts it and reports it. *)
Lemma settle_releases s idx s1 :
  step s (Settle idx) = Some s1 →
  (idx ∉ st_running s1) ∧ st_done s1 = S (st_done s)
  ∧ st_log s1 = st_log s ++ [Tick (S (st_done s)) (length items)].
Proof.
  simpl. destruct (decide (idx ∈ st_running s)); [|done].
  destruct (items !! idx); [|done]. intros [= <-]. simpl.
  repeat split. rewrite elem_of_difference, elem_of_singleton. tauto.
Qed.

(** A task is started only while no other task is in flight. *)
Lemma dispatch_when_idle s s1 :
  Inv s → step s Main = Some s1 → st_i s1 = S (st_i s) →
  st_running s = ∅ ∧ st_done s = st_i s ∧ st_log s1 = st_log s ++ [Start (st_i s)].
Proof.
  intros HI Hs Hi. simpl in Hs. unfold main in Hs. unfold Scheduler.Inv in HI.
  destruct (st_pc s) eqn:Hpc; try done.
  - case_decide; injection Hs as <-; simpl in Hi; lia.
  - destruct HI as (Hr & Hd & _).
    destruct (decide _), (items !! st_i s); injection Hs as <-; simpl in *;
      try lia. done.
  - case_decide; injection Hs as <-; simpl in Hi; lia.
Qed.

(** When a task fulfils, the very next step of the loop starts the task
    that follows it in the queue. *)
Lemma next_starts_at_once s idx s1 x v next :
  1 ≤ limit → Inv s → step s (Settle idx) = Some s1 →
  items !! idx = Some x → fn x = Fulfilled v → items !! S idx = Some next →
  ∃ s2, step s1 Main = Some s2 ∧ S idx ∈ st_running s2 ∧ dispatched s2 (S idx).
Proof.
  intros Hlim HI Hs Hx Hv Hnext. simpl in Hs.
  destruct (decide (idx ∈ st_running s)) as [Hin|]; [|done].
  rewrite Hx, Hv in Hs. injection Hs as <-. unfold Scheduler.Inv in HI.
  destruct (st_pc s) eqn:Hpc;
    try (destruct HI as (Hr & _); rewrite Hr in Hin;
         by apply not_elem_of_empty in Hin); [|done].
  destruct HI as (Hr & Hi & Hd & Hle & Hf & Ho & Hl).
  rewrite Hr in Hin. apply elem_of_singleton in Hin as ->.
  simpl. unfold main, settle. rewrite Hpc. simpl.
  rewrite bool_decide_eq_true_2 by done. simpl.
  rewrite Hr, Hi, Hnext.
  rewrite difference_diag_L.
  rewrite size_empty. destruct (decide (0 < limit)) as [_|]; [|lia].
  eexists. split; [done|]. simpl.
  split; [apply elem_of_union_l; by apply elem_of_singleton|].
  unfold dispatched. simpl. apply elem_of_app. right. by apply list_elem_of_singleton.
Qed.

(** At most one task is in flight, and none when the limit is [0]. *)
Lemma one_in_flight s :
  Inv s → size (st_running s) ≤ 1 ∧ size (st_running s) ≤ limit.
Proof.
  unfold Scheduler.Inv. intros HI. destruct (st_pc s); try done.
  1,2,4,5,6: destruct HI as (-> & _); rewrite size_empty; lia.
  destruct HI as (-> & _ & _ & _ & _ & _ & _ & ?). rewrite size_singleton. lia.
Qed.

Lemma done_le s : Inv s → st_done s ≤ length items.
Proof.
  unfold Scheduler.Inv. intros HI. destruct (st_pc s); try done.
  1,2,4,5,6: destruct HI as (_ & Hd & Hi & _); lia.
  destruct HI as (_ & _ & Hd & Hi & _). lia.
Qed.

Lemma fuel_init : fuel (init : State V E) ≤ 8 * length items + 2.
Proof. unfold Scheduler.fuel. simpl. case_decide; lia. Qed.

(** *** The claims on the scheduler *)

(** C1. For every list of identities, every task function and every run
    of the call (every order and timing of the events): a call that is over
    hands its caller exactly what running the tasks one after the other in
    input order gives; when it returns, the slot of [out] at each index
    holds the result of the task of that index; and for a limit of at
    least one every run is finite and can be carried on to such an end. *)
Theorem output_order_is_input_order tr s :
  exec tr init = Some s →
  (∀ r, result s = Some r → r = sequentialInOrder items)
  ∧ (st_pc s = Returned →
       ∀ idx x, items !! idx = Some x →
         ∃ v, fn x = Fulfilled v ∧ st_out s !! idx = Some (Some v))
  ∧ (1 ≤ limit →
       length tr ≤ 8 * length items + 2
       ∧ ∃ tr' s', exec (tr ++ tr') init = Some s'
                   ∧ result s' = Some (sequentialInOrder items)).
Proof.
  intros Htr. pose proof (Inv_exec _ _ _ Inv_init Htr) as HI.
  split_and!.
  - intros r Hr. by eapply result_sequential.
  - intros Hpc idx x Hx. unfold Scheduler.Inv in HI. rewrite Hpc in HI.
    destruct HI as (_ & _ & _ & Hf & Ho & _).
    destruct (Hf idx x) as [v Hv]; [by eapply lookup_lt_Some|done|].
    exists v. split; [done|].
    rewrite Ho, filled_all, list_lookup_fmap, Hx. simpl.
    unfold Scheduler.slot. by rewrite Hv.
  - intros Hlim. split.
    + pose proof (exec_fuel _ _ _ Hlim Inv_init Htr). pose proof fuel_init. lia.
    + destruct (can_finish s Hlim HI) as (tr' & s' & Htr' & [r Hr]).
      exists tr', s'. rewrite exec_app, Htr. simpl. split; [done|].
      rewrite Hr. f_equal. eapply result_sequential; [|done].
      by eapply Inv_exec.
Qed.

(** C2, as the code has it.  In every run, settling a task (fulfilled or
    rejected) removes it from [running], counts it and reports it, and a
    task is started only when nothing is in flight; but the first task
    that rejects ends the run: no task after it is ever started, the call
    never returns, and once nothing is left to happen the call has
    rejected with that task's reason after [k + 1] completions. *)
Theorem rejection_releases_slot_and_ends_run tr s :
  exec tr init = Some s →
  (∀ idx s1, step s (Settle idx) = Some s1 →
     (idx ∉ st_running s1) ∧ st_done s1 = S (st_done s)
     ∧ st_log s1 = st_log s ++ [Tick (S (st_done s)) (length items)])
  ∧ (∀ s1, step s Main = Some s1 → st_i s1 = S (st_i s) →
       st_running s = ∅ ∧ st_done s = st_i s
       ∧ st_log s1 = st_log s ++ [Start (st_i s)])
  ∧ (∀ k x e, items !! k = Some x → fn x = Rejected e → fulfilled_before k →
       (∀ idx, dispatched s idx → idx ≤ k)
       ∧ st_pc s ≠ Returned
       ∧ st_done s ≤ S k
       ∧ (quiescent s → result s = Some (Rejected e) ∧ st_done s = S k)).
Proof.
  intros Htr. pose proof (Inv_exec _ _ _ Inv_init Htr) as HI.
  split_and!.
  - intros idx s1. apply settle_releases.
  - intros s1. by apply dispatch_when_idle.
  - intros k x e Hx He Hk.
    destruct (first_rejection_stops k x e s Hx He Hk HI) as (Hi & Hd & Hpc & Hres).
    (split_and!); try done.
    + intros idx Hidx. pose proof (dispatched_lt _ _ HI Hidx). lia.
    + intros Hq. apply Hres. by apply quiescent_result.
Qed.

(** C3, as the code has it.  In every run the tasks in flight never
    exceed the limit; when a task fulfils, the next step of the loop starts
    the task that follows it in the queue; and when the limit is at least
    one and no task rejects, the completion count never exceeds the number
    of identities, equals it once nothing is left to happen, and every run
    can be carried on to that point.  In fact at most one task is in
    flight; and when the task at [k] is the first that rejects, the call
    never returns, the count never exceeds [k + 1], and once nothing is
    left to happen the call has rejected and the count is [k + 1]. *)
Theorem in_flight_bounded_and_all_complete tr s :
  exec tr init = Some s →
  size (st_running s) ≤ limit
  ∧ (∀ idx s1 x v next,
       1 ≤ limit → step s (Settle idx) = Some s1 →
       items !! idx = Some x → fn x = Fulfilled v →
       items !! S idx = Some next →
       ∃ s2, step s1 Main = Some s2 ∧ S idx ∈ st_running s2
             ∧ dispatched s2 (S idx))
  ∧ (1 ≤ limit → (∀ x, x ∈ items → ∃ v, fn x = Fulfilled v) →
       st_done s ≤ length items
       ∧ (quiescent s → st_done s = length items)
       ∧ ∃ tr' s', exec (tr ++ tr') init = Some s' ∧ quiescent s'
                   ∧ st_done s' = length items)
  ∧ size (st_running s) ≤ 1
  ∧ (∀ k x e, items !! k = Some x → fn x = Rejected e → fulfilled_before k →
       st_done s ≤ S k
       ∧ st_pc s ≠ Returned
       ∧ (quiescent s → result s = Some (Rejected e) ∧ st_done s = S k)).
Proof.
  intros Htr. pose proof (Inv_exec _ _ _ Inv_init Htr) as HI.
  assert (∀ s0, Inv s0 → (∀ x, x ∈ items → ∃ v, fn x = Fulfilled v) →
                is_Some (result s0) → st_done s0 = length items) as Hdone.
  { intros s0 HI0 Hall [r Hr]. unfold result in Hr.
    unfold Scheduler.Inv in HI0. destruct (st_pc s0); try done.
    - by destruct HI0 as (_ & ? & _).
    - destruct HI0 as (_ & _ & _ & idx & x & _ & Hx & He & _).
      destruct (Hall x) as [v Hv]; [by eapply list_elem_of_lookup_2|].
      congruence. }
  split_and!.
  - by apply one_in_flight.
  - intros idx s1 x v next Hlim Hs Hx Hv Hnext. by eapply next_starts_at_once.
  - intros Hlim Hall. split_and!.
    + by apply done_le.
    + intros Hq. apply Hdone; [done|done|]. by apply quiescent_result.
    + destruct (can_finish s Hlim HI) as (tr' & s' & Htr' & Hr).
      pose proof (Inv_exec _ _ _ HI Htr') as HI'.
      exists tr', s'. rewrite exec_app, Htr. simpl. (split_and!); [done| |].
      * by apply result_quiescent.
      * by apply Hdone.
  - by apply one_in_flight.
  - intros k x e Hx He Hk.
    destruct (first_rejection_stops k x e s Hx He Hk HI) as (_ & Hd & Hpc & Hres).
    (split_and!); [done|done|].
    intros Hq. apply Hres. by apply quiescent_result.
Qed.

End facts.

Import Samples.

Lemma carpet_rejects_offline :
  task_offline "TQTTVgYE" = Rejected "Failed to fetch".
Proof. vm_compute. reflexivity. Qed.

Lemma sodium_first_offline : fulfilled_before three_ids task_offline 1.
Proof.
  intros j x Hj Hx. destruct j as [|j]; [|lia].
  injection Hx as <-. eexists. vm_compute. reflexivity.
Qed.

Lemma all_fulfil_online x : x ∈ three_ids → ∃ v, task_online x = Fulfilled v.
Proof.
  unfold three_ids. rewrite !elem_of_cons, elem_of_nil.
  intros [->|[->|[->|[]]]]; eexists; vm_compute; reflexivity.
Qed.

Lemma output_order_is_input_order_witness :
  exec three_ids MAX_CONCURRENCY task_online full_run (init three_ids)
  = Some full_state
  ∧ st_out full_state = [Some sodium_row; Some carpet_row; Some lithium_row]
  ∧ sequentialInOrder task_online three_ids = Fulfilled (st_out full_state)
  ∧ length full_run ≤ 8 * length three_ids + 2.
Proof.
  split; [vm_compute; reflexivity|]. split; [reflexivity|].
  pose proof (output_order_is_input_order three_ids MAX_CONCURRENCY
                task_online full_run full_state) as H.
  destruct H as (Hseq & _ & Hfin); [vm_compute; reflexivity|].
  split.
  - symmetry. apply Hseq. reflexivity.
  - apply Hfin. unfold MAX_CONCURRENCY. lia.
Defined.

Lemma rejection_releases_slot_and_ends_run_witness :
  exec three_ids MAX_CONCURRENCY task_offline aborted_run (init three_ids)
  = Some aborted_state
  ∧ (∀ idx, dispatched aborted_state idx → idx ≤ 1)
  ∧ st_pc aborted_state ≠ Returned.
Proof.
  split; [vm_compute; reflexivity|].
  pose proof (rejection_releases_slot_and_ends_run three_ids MAX_CONCURRENCY
                task_offline aborted_run aborted_state) as H.
  destruct H as (_ & _ & Hrej); [vm_compute; reflexivity|].
  destruct (Hrej 1 "TQTTVgYE" "Failed to fetch" eq_refl carpet_rejects_offline
              sodium_first_offline) as (Hd & Hpc & _).
  split; [exact Hd|exact Hpc].
Defined.

Lemma in_flight_bounded_and_all_complete_witness :
  exec three_ids MAX_CONCURRENCY task_online full_run (init three_ids)
  = Some full_state
  ∧ size (st_running full_state) ≤ MAX_CONCURRENCY
  ∧ st_done full_state ≤ length three_ids.
Proof.
  split; [vm_compute; reflexivity|].
  pose proof (in_flight_bounded_and_all_complete three_ids MAX_CONCURRENCY
                task_online full_run full_state) as H.
  destruct H as (Hsz & _ & Hall & _); [vm_compute; reflexivity|].
  split; [exact Hsz|].
  refine (proj1 (Hall _ all_fulfil_online)). unfold MAX_CONCURRENCY. lia.
Defined.

(** C2 as stated fails.  Three identities are resolved while GitHub is
    out of reach; the second is Carpet, which has no build on Modrinth, so
    its task rejects.  The third identity is never dispatched and the call
    never returns, in any run; the run that settles the first two tasks in
    turn is over, with the rejection handed to the caller. *)
Lemma third_identity_never_dispatched :
  task_offline "TQTTVgYE" = Rejected "Failed to fetch"
  ∧ (∀ tr s, exec three_ids MAX_CONCURRENCY task_offline tr (init three_ids) = Some s →
       ¬ dispatched s 2 ∧ st_pc s ≠ Returned)
  ∧ exec three_ids MAX_CONCURRENCY task_offline aborted_run (init three_ids)
    = Some aborted_state
  ∧ quiescent three_ids MAX_CONCURRENCY task_offline aborted_state
  ∧ st_log aborted_state = [Start 0; Tick 1 3; Start 1; Tick 2 3]
  ∧ result aborted_state = Some (Rejected "Failed to fetch").
Proof.
  split; [apply carpet_rejects_offline|]. split.
  - intros tr s Htr.
    pose proof (Inv_exec _ _ _ _ _ _ (Inv_init _ _ _) Htr) as HI.
    destruct (first_rejection_stops three_ids MAX_CONCURRENCY task_offline
                1 "TQTTVgYE" "Failed to fetch" s eq_refl carpet_rejects_offline
                sodium_first_offline HI) as (Hi & _ & Hpc & _).
    split; [|done]. intros Hd. pose proof (dispatched_lt _ _ _ _ _ HI Hd). lia.
  - (split_and!); [vm_compute; reflexivity| |reflexivity|reflexivity].
    apply result_quiescent; [|by eexists].
    eapply Inv_exec; [apply Inv_init|]. instantiate (1 := aborted_run).
    vm_compute; reflexivity.
Qed.

(** C3 as stated fails.  In the same setting the completion count stays
    below the three identities in every run, and it is two when nothing is
    left to happen. *)
Lemma completion_count_stops_short :
  length three_ids = 3
  ∧ (∀ tr s, exec three_ids MAX_CONCURRENCY task_offline tr (init three_ids) = Some s →
       st_done s < 3)
  ∧ exec three_ids MAX_CONCURRENCY task_offline aborted_run (init three_ids)
    = Some aborted_state
  ∧ quiescent three_ids MAX_CONCURRENCY task_offline aborted_state
  ∧ st_done aborted_state = 2.
Proof.
  split; [reflexivity|]. split.
  - intros tr s Htr.
    pose proof (Inv_exec _ _ _ _ _ _ (Inv_init _ _ _) Htr) as HI.
    destruct (first_rejection_stops three_ids MAX_CONCURRENCY task_offline
                1 "TQTTVgYE" "Failed to fetch" s eq_refl carpet_rejects_offline
                sodium_first_offline HI) as (_ & Hd & _). lia.
  - (split_and!); [vm_compute; reflexivity| |reflexivity].
    apply result_quiescent; [|by eexists].
    eapply Inv_exec; [apply Inv_init|]. instantiate (1 := aborted_run).
    vm_compute; reflexivity.
Qed.

End SchedulerFacts.

(** ** Version selection *)

Module VersionPolicyFacts.
Import VersionPolicy.

(** [a] is put in front of [b] exactly when [b] does not outrank it. *)
Lemma compare_le a b : (compare a b ≤ 0)%Z ↔ ¬ outranks b a.
Proof. unfold compare, outranks. case_decide; lia. Qed.

Lemma compare_tie a b :
  compare a b = 0%Z ↔ tier a = tier b ∧ date_published a = date_published b.
Proof. unfold compare. case_decide; lia. Qed.

Section sorting.
Context {A : Type} (cmp : A → A → Z).

Lemma sort_insert_perm x l : sort_insert cmp x l ≡ₚ x :: l.
Proof.
  induction l as [|y l IH]; simpl; [done|].
  case_decide; [done|]. rewrite IH. apply Permutation_swap.
Qed.

Lemma array_sort_perm l : array_sort cmp l ≡ₚ l.
Proof.
  induction l as [|x l IH]; simpl; [done|].
  rewrite sort_insert_perm. by f_equiv.
Qed.

Lemma head_sort_insert x l :
  head (sort_insert cmp x l)
  = Some (match head l with
          | Some y => if decide (cmp x y ≤ 0)%Z then x else y
          | None => x
          end).
Proof. destruct l as [|y l]; simpl; [done|]. by case_decide. Qed.

(** Elements that the comparator ties keep their order. *)
Lemma filter_sort_insert (P : A → Prop) `{∀ y, Decision (P y)} x l :
  (∀ y, P x → P y → (cmp x y ≤ 0)%Z) →
  filter P (sort_insert cmp x l) = filter P (x :: l).
Proof.
  intros Htie. induction l as [|y l IH]; simpl; [done|].
  case_decide as Hxy; [done|].
  rewrite filter_cons, IH, !filter_cons.
  destruct (decide (P x)) as [Hx|], (decide (P y)) as [Hy|]; try done.
  destruct Hxy. by apply Htie.
Qed.

End sorting.

Lemma array_sort_sorted l :
  StronglySorted (λ a b, compare a b ≤ 0)%Z (array_sort compare l).
Proof.
  induction l as [|x l IH]; simpl; [constructor|].
  generalize dependent (array_sort compare l). clear l.
  intros s Hs. induction Hs as [|y s Hs IH Hall]; simpl.
  - repeat constructor.
  - case_decide as Hxy.
    + constructor; [by constructor|]. constructor; [done|].
      eapply Forall_impl; [done|]. intros z. simpl.
      rewrite !compare_le in *. unfold outranks in *. lia.
    + constructor; [done|].
      rewrite sort_insert_perm. constructor; [|done].
      rewrite compare_le in *. unfold outranks in *. lia.
Qed.

Lemma array_sort_stable a l :
  filter (λ y, compare a y = 0%Z) (array_sort compare l)
  = filter (λ y, compare a y = 0%Z) l.
Proof.
  induction l as [|x l IH]; simpl; [done|].
  rewrite filter_sort_insert.
  - by rewrite !filter_cons, IH.
  - intros y. rewrite !compare_tie, compare_le. unfold outranks. lia.
Qed.

(** The head of the sorted array is the first of the candidates that no
    other candidate outranks. *)
Lemma head_array_sort vs :
  vs ≠ [] →
  ∃ k v, head (array_sort compare vs) = Some v ∧ vs !! k = Some v
         ∧ (∀ j w, vs !! j = Some w → ¬ outranks w v)
         ∧ (∀ j w, j < k → vs !! j = Some w → outranks v w).
Proof.
  induction vs as [|x l IH]; [done|]. intros _. simpl.
  rewrite head_sort_insert.
  destruct l as [|y l'].
  { exists 0, x. simpl. split_and!; try done.
    - intros [|j] w; simpl; [|done]. intros [= <-]. unfold outranks. lia.
    - intros j w Hj. lia. }
  destruct IH as (k & v & -> & Hk & Hmax & Hfirst); [done|].
  case_decide as Hxv.
  - exists 0, x. split_and!; try done.
    + intros [|j] w; simpl.
      * intros [= <-]. unfold outranks. lia.
      * intros Hw. specialize (Hmax j w Hw).
        rewrite compare_le in Hxv. unfold outranks in *. lia.
    + intros j w Hj. lia.
  - exists (S k), v. split_and!; try done.
    + intros [|j] w; simpl.
      * intros [= <-]. rewrite compare_le in Hxv. unfold outranks in *. lia.
      * apply Hmax.
    + intros [|j] w Hj; simpl.
      * intros [= <-]. rewrite compare_le in Hxv. unfold outranks in *. lia.
      * apply Hfirst. lia.
Qed.

End VersionPolicyFacts.

(** ** The GitHub fallback *)

Module FallbackFacts.
Import Fallback.

Lemma starts_with_app tok s :
  starts_with tok s = true ↔ ∃ post, s = tok ++ post.
Proof.
  revert s. induction tok as [|p tok IH]; intros s; simpl.
  - split; [by exists s|done].
  - destruct s as [|c s]; simpl.
    + split; [done|]. by intros [post ?].
    + rewrite andb_true_iff, IH. split.
      * intros [->%Ascii.eqb_eq [post ->]]. by exists post.
      * intros [post [= -> ->]]. split; [apply Ascii.eqb_refl|by exists post].
Qed.

Lemma token_here_fenced tok prev s :
  token_here tok prev s = true ↔ ∃ post, s = tok ++ post ∧ fenced prev tok post.
Proof.
  unfold token_here, fenced, before_token.
  rewrite !andb_true_iff, !orb_true_iff, starts_with_app, bool_decide_eq_true.
  split.
  - intros [[[post ->] Hl] Hr]. exists post.
    rewrite drop_app_length in Hr. split_and!; [done|tauto|done].
  - intros (post & -> & Hl & Hr). rewrite drop_app_length.
    split_and!; [by exists post|tauto|done].
Qed.

Lemma before_token_cons prev c pre :
  before_token prev (c :: pre) = before_token (Some c) pre.
Proof.
  unfold before_token. destruct pre as [|d pre]; [done|].
  rewrite last_cons_cons. destruct (last (d :: pre)) eqn:Hl; [done|].
  by apply last_None in Hl.
Qed.

(** The scan finds the token exactly when the name contains it between
    two fences. *)
Lemma token_scan_fenced tok prev s :
  token_scan tok prev s = true
  ↔ ∃ pre post, s = pre ++ tok ++ post ∧ fenced (before_token prev pre) tok post.
Proof.
  revert prev. induction s as [|c s IH]; intros prev; simpl.
  - rewrite orb_false_r, token_here_fenced. split.
    + intros (post & Hs & Hf). by exists [], post.
    + intros (pre & post & Hs & Hf).
      destruct pre as [|? ?]; [|done]. by exists post.
  - rewrite orb_true_iff, token_here_fenced, IH. split.
    + intros [(post & Hs & Hf)|(pre & post & -> & Hf)].
      * by exists [], post.
      * exists (c :: pre), post. by rewrite before_token_cons.
    + intros (pre & post & Hs & Hf). destruct pre as [|d pre].
      * left. by exists post.
      * right. injection Hs as -> ->. exists pre, post.
        by rewrite before_token_cons in Hf.
Qed.







End FallbackFacts.

(** ** The per-project task *)

Module ResolverFacts.
Import Resolver VersionPolicy.

Ltac run_net :=
  unfold mbind, Net_bind, mret, Net_ret, fetch, throw, try_catch, promise_all2;
  simpl.

Lemma fetchModrinthVersions_run w pid mc loader log :
  fetchModrinthVersions w pid mc loader log
  = (Fulfilled (listed_versions w pid mc loader), log ++ [GetVersions pid mc loader]).
Proof.
  unfold fetchModrinthVersions, listed_versions. run_net.
  by destruct (w_versions w pid mc loader) as [[?|?]|?].
Qed.

Lemma getBestTargetVersion_run w pid mc loader log :
  getBestTargetVersion w pid mc loader log
  = (Fulfilled (pickBest (listed_versions w pid mc loader)),
     log ++ [GetVersions pid mc loader]).
Proof.
  unfold getBestTargetVersion. unfold mbind, Net_bind.
  by rewrite fetchModrinthVersions_run.
Qed.

(** C4. When the listing of a project for the target runtime and loader
    is a non-empty array, [getBestTargetVersion] fulfils with one of its
    entries: no entry outranks it (higher tier, or the same tier and a
    later date), and every entry listed before it is outranked by it, so
    that among equals the earliest listed wins.  For three candidates of
    tiers 1, 3, 3 of which the last is the later of the two releases, it
    is the last one. *)
Theorem getBestTargetVersion_first_maximal w pid mc loader vs log :
  w_versions w pid mc loader = Fulfilled (Ok (Some vs)) → vs ≠ [] →
  ∃ k v,
    getBestTargetVersion w pid mc loader log
    = (Fulfilled (Some v), log ++ [GetVersions pid mc loader])
    ∧ vs !! k = Some v
    ∧ (∀ j v', vs !! j = Some v' → ¬ outranks v' v)
    ∧ (∀ j v', j < k → vs !! j = Some v' → outranks v v')
    ∧ (∀ v1 v2 v3, vs = [v1; v2; v3] →
         tier v1 = 1%Z → tier v2 = 3%Z → tier v3 = 3%Z →
         (date_published v2 < date_published v3)%Z → v = v3).
Proof.
  intros Hw Hne.
  destruct (VersionPolicyFacts.head_array_sort vs Hne)
    as (k & v & Hhead & Hk & Hmax & Hfirst).
  exists k, v. rewrite getBestTargetVersion_run.
  unfold listed_versions. rewrite Hw. split_and!; try done.
  - unfold pickBest. destruct vs; [done|]. by rewrite Hhead.
  - intros v1 v2 v3 -> H1 H2 H3 Hd.
    destruct k as [|[|[|k]]]; simpl in Hk; try done; injection Hk as <-.
    + destruct (Hmax 1 v2 eq_refl). unfold outranks. lia.
    + destruct (Hmax 2 v3 eq_refl). unfold outranks. lia.
    + done.
Qed.

Lemma getBestTargetVersion_first_maximal_witness :
  getBestTargetVersion Samples.world "AANobbMI" "1.21" "fabric" []
  = (Fulfilled (Some Samples.v_release_new), [GetVersions "AANobbMI" "1.21" "fabric"]).
Proof.
  destruct (getBestTargetVersion_first_maximal Samples.world "AANobbMI" "1.21"
              "fabric" [Samples.v_alpha; Samples.v_release_old; Samples.v_release_new]
              [] eq_refl)
    as (k & v & Hrun & _ & _ & _ & Hex); [done|].
  rewrite Hrun. simpl. do 3 f_equal.
  apply (Hex _ _ _ eq_refl); vm_compute; reflexivity.
Defined.

(** *** How the task runs *)

Lemma fetchCarpetGitHubRelease_calls w mc pre log :
  ∃ res, Fallback.fetchCarpetGitHubRelease w mc pre log
         = (res, log ++ [GetGitHubReleases]).
Proof.
  unfold Fallback.fetchCarpetGitHubRelease. run_net.
  destruct (w_github w) as [[?|?]|?]; eauto.
Qed.

(** The fallback is called exactly when Modrinth has no build and the
    identity is Carpet; without the call, [best] and [source] stay as they
    were. *)
Lemma carpet_fallback_run w c pid proj bm src log :
  ∃ calls res,
    carpet_fallback w c pid proj bm src log = (res, log ++ calls)
    ∧ (GetGitHubReleases ∈ calls ↔ bm = None ∧ isCarpet proj pid = true)
    ∧ (∀ v, bm = Some v → res = Fulfilled (Some (FromModrinth v), src))
    ∧ (isCarpet proj pid = false → res = Fulfilled (FromModrinth <$> bm, src))
    ∧ (bm = None → ∀ bs, res = Fulfilled bs →
         bs = (None, src) ∨ ∃ g, bs = (Some (FromGitHub g), "github-fallback")).
Proof.
  unfold carpet_fallback.
  destruct bm as [v|]; simpl.
  { exists [], (Fulfilled (Some (FromModrinth v), src)).
    rewrite app_nil_r. split_and!; try done.
    - split; [by intros ?%elem_of_nil|by intros [? _]].
    - by intros v0 [= <-]. }
  destruct (isCarpet proj pid) eqn:Hc; simpl.
  - destruct (fetchCarpetGitHubRelease_calls w (targetMc c) false log)
      as [res Hres].
    unfold mbind, Net_bind. rewrite Hres.
    assert (GetGitHubReleases ∈ [GetGitHubReleases]
            ↔ @None Version = None ∧ true = true) as Hin.
    { split; [done|intros; by apply list_elem_of_singleton]. }
    destruct res as [[g|]|e]; eexists [GetGitHubReleases], _;
      (split; [reflexivity|]); (split_and!; try done);
      intros _ bs [= <-]; eauto.
  - exists [], (Fulfilled (None, src)). rewrite app_nil_r.
    split_and!; try done; [|intros _ bs [= <-]; by left].
    split; [by intros ?%elem_of_nil|by intros [_ ?]].
Qed.

(** The task of [script.js]: its calls and its row. *)
Lemma resolveTask_run w c pid log :
  ∃ calls res,
    resolveTask w c pid log
    = (res, log ++ GetVersions pid (targetMc c) (task_loader c pid) :: calls)
    ∧ (GetGitHubReleases ∈ calls
       ↔ primary_candidate w c pid = None
         ∧ isCarpet (projectMap c !! pid) pid = true)
    ∧ (∀ r, res = Fulfilled r →
         ∃ best src,
           r = make_row c pid (anyVersion <$> projectEntries c !! pid)
                 (task_cat c pid) (projectMap c !! pid) (task_loader c pid)
                 best src (pickPrimaryFile (primary_candidate w c pid))
           ∧ (∀ v, primary_candidate w c pid = Some v →
                best = Some (FromModrinth v))
           ∧ (primary_candidate w c pid = None →
              isCarpet (projectMap c !! pid) pid = false → best = None))
    ∧ (isCarpet (projectMap c !! pid) pid = false ∨ is_Some (primary_candidate w c pid) →
       ∃ r, res = Fulfilled r).
Proof.
  unfold resolveTask. unfold mbind at 1, Net_bind at 1.
  rewrite getBestTargetVersion_run.
  fold (task_cat c pid). fold (task_loader c pid). fold (primary_candidate w c pid).
  set (src := match projectMap c !! pid with Some _ => "modrinth" | None => "none" end).
  destruct (carpet_fallback_run w c pid (projectMap c !! pid)
              (primary_candidate w c pid) src
              (log ++ [GetVersions pid (targetMc c) (task_loader c pid)]))
    as (calls & res & Hrun & Hgh & Hsome & Hnc & Hnone).
  unfold mbind, Net_bind. rewrite Hrun. rewrite <- app_assoc. simpl.
  destruct res as [[best src']|e].
  - eexists calls, _. split; [reflexivity|]. split_and!; [done| |eauto].
    intros r [= <-]. exists best, src'. split_and!.
    + by destruct (primary_candidate w c pid).
    + intros v Hv. specialize (Hsome v Hv). by injection Hsome as -> _.
    + intros Hn Hc. specialize (Hnc Hc). rewrite Hn in Hnc.
      by injection Hnc as -> _.
  - eexists calls, _. split; [reflexivity|]. split_and!; [done|done|].
    intros [Hc|[v Hv]]; [by specialize (Hnc Hc)|by specialize (Hsome v Hv)].
Qed.

Lemma getProject_run w pid log :
  getProject w pid log
  = (match w_project w pid with
     | Fulfilled _ => Fulfilled (fetched_project w pid)
     | Rejected e => Rejected e
     end, log ++ [GetProject pid]).
Proof.
  unfold getProject, fetched_project. run_net.
  by destruct (w_project w pid) as [[?|?]|?].
Qed.

Lemma getBestTargetVersion_inline_run w pid mc loader log :
  ∃ res,
    getBestTargetVersion_inline w pid mc loader log
    = (res, log ++ [GetVersions pid mc loader])
    ∧ (∀ bm, res = Fulfilled bm → bm = pickBest (listed_versions w pid mc loader))
    ∧ (∀ vs, w_versions w pid mc loader = Fulfilled (Ok vs) →
         res = Fulfilled (pickBest vs)).
Proof.
  unfold getBestTargetVersion_inline, listed_versions. run_net.
  destruct (w_versions w pid mc loader) as [[?|?]|?]; eexists;
    (split; [reflexivity|]); split; try done; by intros ? [= <-].
Qed.

(** The task of the single-file variant: its calls and its row. *)
Lemma resolveTask_inline_run w c pid log :
  ∃ calls res,
    resolveTask_inline w c pid log
    = (res, log ++ GetProject pid
              :: GetVersions pid (targetMc c) (loaderForCategory c (task_cat c pid))
              :: calls)
    ∧ (GetGitHubReleases ∈ calls →
       primary_candidate_inline w c pid = None
       ∧ isCarpet (fetched_project w pid) pid = true)
    ∧ (isCarpet (fetched_project w pid) pid = false →
       (∃ p, w_project w pid = Fulfilled p) →
       w_versions w pid (targetMc c) (loaderForCategory c (task_cat c pid))
       = Fulfilled (Ok (Some [])) →
       ∃ r, res = Fulfilled r ∧ target_available r = false).
Proof.
  unfold resolveTask_inline. fold (task_cat c pid).
  set (loader := loaderForCategory c (task_cat c pid)).
  unfold mbind at 1, Net_bind at 1, promise_all2.
  rewrite getProject_run.
  destruct (getBestTargetVersion_inline_run w pid (targetMc c) loader
              (log ++ [GetProject pid])) as (rb & -> & Hbm & Hok).
  rewrite <- app_assoc. simpl.
  destruct (w_project w pid) as [p|e] eqn:Hp.
  2: { exists [], (Rejected e). destruct rb; (split_and!; [done| |]).
       1,3: by intros ?%elem_of_nil.
       all: by intros _ [? ?]. }
  destruct rb as [bm|e].
  2: { exists [], (Rejected e). split_and!; [done| |].
       - by intros ?%elem_of_nil.
       - intros _ _ Hv. by specialize (Hok _ Hv). }
  specialize (Hbm bm eq_refl). simpl.
  set (src := match bm with Some _ => "modrinth" | None => "none" end).
  destruct (carpet_fallback_run w c pid (fetched_project w pid) bm src
              (log ++ [GetProject pid; GetVersions pid (targetMc c) loader]))
    as (calls & res & Hrun & Hgh & Hsome & Hnc & Hnone).
  unfold mbind, Net_bind. rewrite Hrun. rewrite <- app_assoc. simpl.
  assert (GetGitHubReleases ∈ calls →
          primary_candidate_inline w c pid = None
          ∧ isCarpet (fetched_project w pid) pid = true) as Hgh'.
  { intros Hin. apply Hgh in Hin as [-> ?].
    unfold primary_candidate_inline. fold loader. by rewrite <- Hbm. }
  destruct res as [[best src']|e].
  - eexists calls, _. split; [reflexivity|]. split; [done|].
    intros Hc _ Hv. eexists. split; [done|]. simpl.
    specialize (Hnc Hc). injection Hnc as -> _.
    unfold listed_versions in Hbm. rewrite Hv in Hbm. by subst bm.
  - eexists calls, _. split; [reflexivity|]. split; [done|].
    intros Hc. by specialize (Hnc Hc).
Qed.

(** C5. In both variants of the task the GitHub fallback is called only
    when Modrinth gave no candidate for the target and the identity is on
    the allow-list, which holds Carpet alone (slug [fabric-carpet] or
    project id [TQTTVgYE]); in [script.js] it is called exactly then.  For
    an identity that is not on the list and for which Modrinth gave no
    candidate, the fallback is not called and the row is marked not
    available. *)
Theorem fallback_only_for_allow_listed w c pid log :
  (∀ proj, isCarpet proj pid = true
           ↔ proj ≫= p_slug = Some "fabric-carpet" ∨ pid = "TQTTVgYE")
  ∧ (listed_versions w pid (targetMc c) (task_loader c pid) = Some [] →
     primary_candidate w c pid = None)
  ∧ (∃ calls res,
       resolveTask w c pid log
       = (res, log ++ GetVersions pid (targetMc c) (task_loader c pid) :: calls)
       ∧ (GetGitHubReleases ∈ calls
          ↔ primary_candidate w c pid = None
            ∧ isCarpet (projectMap c !! pid) pid = true)
       ∧ (isCarpet (projectMap c !! pid) pid = false →
          primary_candidate w c pid = None →
          (GetGitHubReleases ∉ calls)
          ∧ ∃ r, res = Fulfilled r ∧ target_available r = false))
  ∧ (∃ calls res,
       resolveTask_inline w c pid log
       = (res, log ++ GetProject pid
                 :: GetVersions pid (targetMc c) (loaderForCategory c (task_cat c pid))
                 :: calls)
       ∧ (GetGitHubReleases ∈ calls →
          primary_candidate_inline w c pid = None
          ∧ isCarpet (fetched_project w pid) pid = true)
       ∧ (isCarpet (fetched_project w pid) pid = false →
          (∃ p, w_project w pid = Fulfilled p) →
          w_versions w pid (targetMc c) (loaderForCategory c (task_cat c pid))
          = Fulfilled (Ok (Some [])) →
          (GetGitHubReleases ∉ calls)
          ∧ ∃ r, res = Fulfilled r ∧ target_available r = false)).
Proof.
  split_and!.
  - intros proj. unfold isCarpet.
    by rewrite orb_true_iff, !bool_decide_eq_true.
  - unfold primary_candidate. by intros ->.
  - destruct (resolveTask_run w c pid log) as (calls & res & Hrun & Hgh & Hrow & Hok).
    exists calls, res. split_and!; [done|done|].
    intros Hc Hn. split.
    + intros Hin. apply Hgh in Hin as [_ Hin]. congruence.
    + destruct Hok as [r ->]; [by left|]. exists r. split; [done|].
      destruct (Hrow r eq_refl) as (best & src & -> & _ & Hnone).
      simpl. by rewrite (Hnone Hn Hc).
  - destruct (resolveTask_inline_run w c pid log) as (calls & res & Hrun & Hgh & Hrow).
    exists calls, res. split_and!; [done|done|].
    intros Hc Hp Hv. split; [|by apply Hrow].
    intros Hin. apply Hgh in Hin as [_ Hin]. congruence.
Qed.

Lemma fallback_only_for_allow_listed_witness :
  ∃ calls r,
    resolveTask Samples.world Samples.ctx "P7dR8mSH" []
    = (Fulfilled r, GetVersions "P7dR8mSH" "1.21" "fabric" :: calls)
    ∧ (GetGitHubReleases ∉ calls) ∧ target_available r = false.
Proof.
  destruct (fallback_only_for_allow_listed Samples.world Samples.ctx "P7dR8mSH" [])
    as (_ & _ & (calls & res & Hrun & _ & Hnot) & _).
  destruct Hnot as (Hno & r & -> & Hr); [vm_compute; reflexivity..|].
  by exists calls, r.
Defined.

(** *** The cached file metadata *)

Lemma find_primary_spec (fs : list VFile) :
  match List.find f_primary fs with
  | Some f =>
      f_primary f = true
      ∧ ∃ k, fs !! k = Some f
             ∧ ∀ j f', j < k → fs !! j = Some f' → f_primary f' = false
  | None => Forall (λ f', f_primary f' = false) fs
  end.
Proof.
  induction fs as [|g fs IH]; simpl; [constructor|].
  destruct (f_primary g) eqn:Hg.
  - split; [done|]. exists 0. split; [done|]. intros j f' Hj. lia.
  - destruct (List.find f_primary fs) as [f|].
    + destruct IH as (Hf & k & Hk & Hfirst). split; [done|].
      exists (S k). split; [done|].
      intros [|j] f' Hj; simpl; [by intros [= <-]|]. apply Hfirst. lia.
    + by constructor.
Qed.

Lemma pickPrimaryFile_spec v :
  match files v with
  | Some (f0 :: fs) =>
      ∃ f, pickPrimaryFile (Some v) = Some f ∧ primary_or_first (f0 :: fs) f
  | _ => pickPrimaryFile (Some v) = None
  end.
Proof.
  unfold pickPrimaryFile. destruct (files v) as [[|f0 fs]|]; try done.
  pose proof (find_primary_spec (f0 :: fs)) as Hspec.
  destruct (List.find f_primary (f0 :: fs)) as [f|].
  - exists f. split; [done|]. by left.
  - exists f0. split; [done|]. by right.
Qed.

(** C10. In the row the task fulfils with, the cached file metadata
    (sha1, sha512, size, url, file name) is that of the first file of the
    chosen Modrinth version that is flagged primary, or of its first file
    when none is flagged; when there is no Modrinth candidate, or its file
    list is absent or empty, nothing is cached and the builder leaves the
    row out. *)
Theorem cached_metadata_from_primary_file w c pid log r log' :
  resolveTask w c pid log = (Fulfilled r, log') →
  (∀ v fs, primary_candidate w c pid = Some v → files v = Some fs → fs ≠ [] →
     ∃ f, primary_or_first fs f ∧ cached_from r f)
  ∧ (primary_candidate w c pid = None
     ∨ (∃ v, primary_candidate w c pid = Some v
             ∧ (files v = None ∨ files v = Some [])) →
     nothing_cached r ∧ Builder.includable r = false).
Proof.
  intros Hrun.
  destruct (resolveTask_run w c pid log) as (calls & res & Hrun' & _ & Hrow & _).
  rewrite Hrun in Hrun'. injection Hrun' as <- _.
  destruct (Hrow r eq_refl) as (best & src & -> & _ & _). clear Hrow.
  split.
  - intros v fs Hv Hfs Hne. rewrite Hv.
    pose proof (pickPrimaryFile_spec v) as Hspec. rewrite Hfs in Hspec.
    destruct fs as [|f0 fs]; [done|].
    destruct Hspec as (f & -> & Hf). exists f. split; [done|].
    by unfold cached_from.
  - intros Hnone.
    assert (pickPrimaryFile (primary_candidate w c pid) = None) as ->.
    { destruct Hnone as [->|(v & -> & Hfiles)]; [done|].
      pose proof (pickPrimaryFile_spec v) as Hspec.
      by destruct Hfiles as [Hf|Hf]; rewrite Hf in Hspec. }
    split; [by unfold nothing_cached|].
    unfold Builder.includable, Builder.has_file_meta. simpl.
    by rewrite !andb_false_r.
Qed.

Lemma cached_metadata_from_primary_file_witness :
  resolveTask Samples.world Samples.ctx "AANobbMI" []
  = (Fulfilled Samples.sodium_row, [GetVersions "AANobbMI" "1.21" "fabric"])
  ∧ ∃ f, primary_or_first [Samples.sources_jar; Samples.main_jar] f
         ∧ cached_from Samples.sodium_row f.
Proof.
  assert (resolveTask Samples.world Samples.ctx "AANobbMI" []
          = (Fulfilled Samples.sodium_row, [GetVersions "AANobbMI" "1.21" "fabric"]))
    as Hrun by (vm_compute; reflexivity).
  split; [exact Hrun|].
  destruct (cached_metadata_from_primary_file _ _ _ _ _ _ Hrun) as [Hcached _].
  apply (Hcached Samples.v_release_new); [vm_compute; reflexivity|reflexivity|done].
Defined.

(** *** Rows cache file metadata only when they have a target *)

Lemma make_row_cached_only c pid rep cat proj loader best src bm :
  (∀ v, bm = Some v → best = Some (FromModrinth v)) →
  Builder.cached_only_if_available
    (make_row c pid rep cat proj loader best src (pickPrimaryFile bm)).
Proof.
  intros Hbest. unfold Builder.cached_only_if_available, Builder.has_file_meta.
  simpl. destruct bm as [v|]; [by rewrite (Hbest v eq_refl)|].
  by cbn.
Qed.

Lemma task_tail_cached_only w c pid rep cat proj loader bm src log r log' :
  (bs ← carpet_fallback w c pid proj bm src;
   mret (make_row c pid rep cat proj loader bs.1 bs.2
           match bm with
           | Some v => pickPrimaryFile (Some v)
           | None => None
           end)) log
  = (Fulfilled r, log') →
  Builder.cached_only_if_available r.
Proof.
  destruct (carpet_fallback_run w c pid proj bm src log)
    as (calls & res & Hrun & _ & Hsome & _).
  unfold mbind, Net_bind. rewrite Hrun.
  destruct res as [[best src']|e]; [|done]. intros [= <- _]. simpl.
  replace (match bm with Some v => pickPrimaryFile (Some v) | None => None end)
    with (pickPrimaryFile bm) by (by destruct bm).
  apply make_row_cached_only. intros v Hv.
  specialize (Hsome v Hv). by injection Hsome as ->.
Qed.

Lemma resolveTask_cached_only w c pid log r log' :
  resolveTask w c pid log = (Fulfilled r, log') →
  Builder.cached_only_if_available r.
Proof.
  unfold resolveTask. unfold mbind at 1, Net_bind at 1.
  rewrite getBestTargetVersion_run. apply task_tail_cached_only.
Qed.

Lemma resolveTask_inline_cached_only w c pid log r log' :
  resolveTask_inline w c pid log = (Fulfilled r, log') →
  Builder.cached_only_if_available r.
Proof.
  unfold resolveTask_inline. unfold mbind at 1, Net_bind at 1.
  destruct (promise_all2 _ _ log) as [[pb|e] log1]; [|done].
  apply task_tail_cached_only.
Qed.

End ResolverFacts.

(** ** Rebuilding the manifest *)

Module BuilderFacts.
Import Resolver Builder.

Lemma getRecommendedLoaderVersion_run w mc log :
  getRecommendedLoaderVersion w mc "fabric" log
  = (Fulfilled (recommended w mc), log ++ [GetFabricMeta mc]).
Proof.
  unfold getRecommendedLoaderVersion, recommended.
  destruct (decide ("fabric" ≠ "fabric")) as [?|_]; [done|].
  unfold mbind, Net_bind, mret, Net_ret, fetch, throw, try_catch. simpl.
  by destruct (w_fabric_meta w mc) as [[?|?]|?].
Qed.

(** [build] always comes to an end with a rebuilt index when there is
    data. *)
Lemma build_run w m log :
  hasData m = true →
  ∃ deps note calls,
    build w m log
    = (Fulfilled (BuildDone
                    {| new_files := fileRecords m;
                       new_dependencies := deps;
                       loaderNote := note;
                       skipped_names :=
                         display_name <$> filter (λ r, skipped r = true) (rows m) |}),
       log ++ calls)
    ∧ pin_loader w m (<["minecraft" := mp_targetMc m]> (old_dependencies m)) log
      = (Fulfilled (deps, note), log ++ calls).
Proof.
  intros Hd. unfold build. rewrite Hd. simpl.
  unfold try_catch, mbind, Net_bind. fold (old_dependencies m).
  unfold pin_loader. case_decide.
  - unfold mbind, Net_bind. rewrite getRecommendedLoaderVersion_run.
    destruct (recommended w (mp_targetMc m)) as [rec|];
      [|destruct (truthy (<["minecraft" := mp_targetMc m]> (old_dependencies m)
                          !! "fabric-loader"))];
      eexists _, _, _; split; reflexivity.
  - eexists _, _, []. rewrite app_nil_r. split; reflexivity.
Qed.

Lemma filter_all {A : Type} (P : A → Prop) `{∀ x, Decision (P x)} (l : list A) :
  Forall P l → filter P l = l.
Proof.
  induction 1 as [|x l Hx _ IH]; [done|].
  by rewrite filter_cons_True, IH.
Qed.

Lemma filter_none {A : Type} (P : A → Prop) `{∀ x, Decision (P x)} (l : list A) :
  Forall (λ x, ¬ P x) l → filter P l = [].
Proof.
  induction 1 as [|x l Hx _ IH]; [done|].
  by rewrite filter_cons_False.
Qed.

Lemma truthy_num_positive r :
  size_is_count r →
  truthy_num (target_file_size r) = true
  ↔ ∃ n, target_file_size r = Some n ∧ (0 < n)%Z.
Proof.
  intros Hcount. unfold truthy_num. split.
  - destruct (target_file_size r) as [n|] eqn:Hn; [|done].
    intros Hnz%negb_true_iff%Z.eqb_neq. exists n. split; [done|].
    specialize (Hcount n Hn). lia.
  - intros (n & -> & Hpos). apply negb_true_iff, Z.eqb_neq. lia.
Qed.

Lemma includable_packageable r :
  cached_only_if_available r → size_is_count r →
  includable r = true ↔ packageable r.
Proof.
  intros Hav Hcount. unfold includable, packageable.
  rewrite <- (truthy_num_positive r Hcount). split.
  - intros [[_ Hsrc%bool_decide_eq_true]%andb_true_iff Hmeta]%andb_true_iff.
    unfold has_file_meta in Hmeta.
    apply andb_true_iff in Hmeta as [[[? ?]%andb_true_iff ?]%andb_true_iff ?].
    done.
  - intros (Hsrc & H1 & H512 & Hsz & Hurl).
    assert (has_file_meta r = true) as Hmeta.
    { unfold has_file_meta. by rewrite H1, H512, Hsz, Hurl. }
    rewrite (Hav Hmeta), Hmeta, bool_decide_eq_true_2 by done. done.
Qed.

Lemma packageable_not_skipped r : packageable r → skipped r = false.
Proof.
  intros (Hsrc & H1 & H512 & (n & Hn & Hpos) & Hurl).
  unfold skipped, has_file_meta. rewrite H1, H512, Hurl, Hn. simpl.
  rewrite bool_decide_eq_true_2 by done.
  replace (n =? 0)%Z with false by (symmetry; apply Z.eqb_neq; lia).
  simpl. apply andb_false_r.
Qed.

Lemma fallback_skipped r :
  target_available r = true → source r = "github-fallback" →
  includable r = false ∧ skipped r = true.
Proof.
  intros Hav Hsrc. unfold includable, skipped. rewrite Hav, Hsrc. done.
Qed.

Lemma built_by_task_cached_only r :
  built_by_task r → cached_only_if_available r.
Proof.
  intros (w & c & pid & log & log' & [Hrun|Hrun]).
  - by eapply ResolverFacts.resolveTask_cached_only.
  - by eapply ResolverFacts.resolveTask_inline_cached_only.
Qed.

Lemma built_by_task_skipped r :
  built_by_task r → size_is_count r →
  skipped r = true ↔ target_available r = true ∧ ¬ packageable r.
Proof.
  intros Htask Hcount.
  pose proof (includable_packageable r (built_by_task_cached_only r Htask) Hcount)
    as Hiff.
  unfold includable in Hiff. unfold skipped.
  destruct (target_available r); simpl in *; [|split; [done|by intros [? _]]].
  rewrite <- Hiff.
  destruct (bool_decide (source r = "modrinth")), (has_file_meta r); simpl;
    split; try done; try (by intros [_ H]); by intros _.
Qed.

Lemma length_filter_Exists {A : Type} (P : A → Prop) `{∀ x, Decision (P x)}
    (l : list A) :
  Exists (λ x, ¬ P x) l → length (filter P l) < length l.
Proof.
  induction 1 as [x l Hx|x l _ IH].
  - rewrite filter_cons_False by done. pose proof (length_filter P l).
    simpl. lia.
  - rewrite filter_cons. case_decide; simpl; lia.
Qed.

(** What [build] pushes for a row it packages: the digests, the size and
    the url are those the row caches, the url is the only download, and
    path and environment come from the manifest entry of the project. *)
Lemma file_record_carries orig r :
  packageable r →
  let f := file_record orig r in
  (∃ h, hashes_sha1 f = Some h ∧ hashes_sha1 f = target_file_sha1 r ∧ h ≠ "")
  ∧ (∃ h, hashes_sha512 f = Some h ∧ hashes_sha512 f = target_file_sha512 r
          ∧ h ≠ "")
  ∧ (∃ n, fileSize f = Some n ∧ fileSize f = target_file_size r ∧ (0 < n)%Z)
  ∧ (∃ u, downloads f = [Some u] ∧ target_file_url r = Some u ∧ u ≠ "")
  ∧ path f = path_of orig r
  ∧ env f = env_of orig r.
Proof.
  intros (_ & H1 & H512 & (n & Hn & Hpos) & Hurl). simpl.
  assert (∀ o, truthy o = true → ∃ h, o = Some h ∧ h ≠ "") as Hstr.
  { intros [h|]; simpl; [|done]. intros Hh%negb_true_iff.
    exists h. split; [done|]. intros ->. done. }
  destruct (Hstr _ H1) as (h1 & Hh1 & ?), (Hstr _ H512) as (h512 & Hh512 & ?),
    (Hstr _ Hurl) as (u & Hu & ?).
  split_and!; [by exists h1|by exists h512|by exists n| |done|done].
  exists u. by rewrite Hu.
Qed.

(** C6, as the code has it.  For rows as the task builds them, with
    sizes that are byte counts: the file list of the rebuilt index has one
    entry for each row that is of source [modrinth] and carries a sha1, a
    sha512, a positive size and a download url, in the order of the rows,
    and no other entry; the entry of such a row holds these two digests,
    this size and this url as its only download, under the path and the
    environment that [path_of] and [env_of] give for the row; every other row
    that has a target is named in the note on excluded rows, and no row
    besides these, so a row from the GitHub fallback is left out of the
    file list and named in the note; when all rows but one are packageable
    and that one comes from the fallback, the file list has one entry less
    than there are rows (two for three rows) and the note names the
    fallback row alone, and when one of the other rows is not packageable
    the file list is shorter than that. *)
Theorem packaged_iff_primary_with_metadata w m log :
  hasData m = true →
  Forall built_by_task (rows m) →
  Forall size_is_count (rows m) →
  ∃ b log',
    build w m log = (Fulfilled (BuildDone b), log')
    ∧ new_files b
      = file_record (projectIdToOrigFile m)
        <$> filter (λ r, includable r = true) (rows m)
    ∧ skipped_names b
      = display_name <$> filter (λ r, skipped r = true) (rows m)
    ∧ (∀ r, r ∈ rows m → includable r = true ↔ packageable r)
    ∧ (∀ r, r ∈ rows m → target_available r = true →
         source r = "github-fallback" →
         includable r = false ∧ display_name r ∈ skipped_names b)
    ∧ (∀ l1 fb l2,
         rows m = l1 ++ fb :: l2 →
         target_available fb = true → source fb = "github-fallback" →
         Forall packageable (l1 ++ l2) →
         length (new_files b) = length (rows m) - 1
         ∧ (length (rows m) = 3 → length (new_files b) = 2)
         ∧ skipped_names b = [display_name fb])
    ∧ Forall2
        (λ r f,
           packageable r
           ∧ (∃ h, hashes_sha1 f = Some h ∧ hashes_sha1 f = target_file_sha1 r
                   ∧ h ≠ "")
           ∧ (∃ h, hashes_sha512 f = Some h
                   ∧ hashes_sha512 f = target_file_sha512 r ∧ h ≠ "")
           ∧ (∃ n, fileSize f = Some n ∧ fileSize f = target_file_size r
                   ∧ (0 < n)%Z)
           ∧ (∃ u, downloads f = [Some u] ∧ target_file_url r = Some u ∧ u ≠ "")
           ∧ path f = path_of (projectIdToOrigFile m) r
           ∧ env f = env_of (projectIdToOrigFile m) r)
        (filter (λ r, includable r = true) (rows m)) (new_files b)
    ∧ (∀ r, r ∈ rows m →
         skipped r = true ↔ target_available r = true ∧ ¬ packageable r)
    ∧ (∀ l1 fb l2,
         rows m = l1 ++ fb :: l2 →
         target_available fb = true → source fb = "github-fallback" →
         Exists (λ r, ¬ packageable r) (l1 ++ l2) →
         length (new_files b) < length (rows m) - 1).
Proof.
  intros Hd Htask Hcount.
  destruct (build_run w m log Hd) as (deps & note & calls & Hrun & _).
  eexists _, _. split; [exact Hrun|]. simpl.
  assert (∀ r, r ∈ rows m → includable r = true ↔ packageable r) as Hiff.
  { intros r Hr. rewrite Forall_forall in Htask, Hcount.
    apply includable_packageable; [|auto].
    by apply built_by_task_cached_only, Htask. }
  split_and!; try done.
  - intros r Hr Ha Hs. destruct (fallback_skipped r Ha Hs) as [Hi Hsk].
    split; [done|]. apply list_elem_of_fmap. exists r. split; [done|].
    by apply list_elem_of_filter.
  - intros l1 fb l2 Hrows Ha Hs Hpack.
    destruct (fallback_skipped fb Ha Hs) as [Hi Hsk].
    apply Forall_app in Hpack as [Hp1 Hp2].
    assert (∀ l, (∀ r, r ∈ l → r ∈ rows m) → Forall packageable l →
                 filter (λ r, includable r = true) l = l
                 ∧ filter (λ r, skipped r = true) l = []) as Hparts.
    { intros l Hsub Hp. split.
      - apply filter_all. rewrite Forall_forall in *. intros r Hr.
        apply Hiff; auto.
      - apply filter_none. rewrite Forall_forall in *. intros r Hr.
        by rewrite (packageable_not_skipped r (Hp r Hr)). }
    destruct (Hparts l1) as [Hi1 Hs1]; [|done|].
    { intros r Hr. rewrite Hrows. apply elem_of_app. by left. }
    destruct (Hparts l2) as [Hi2 Hs2]; [|done|].
    { intros r Hr. rewrite Hrows. apply elem_of_app. right.
      apply elem_of_cons. by right. }
    unfold fileRecords. rewrite Hrows, !filter_app, !filter_cons, Hi1, Hi2, Hs1, Hs2.
    rewrite decide_False by (by rewrite Hi).
    rewrite decide_True by done.
    rewrite length_fmap, !length_app. simpl. split_and!; [lia|lia|done].
  - unfold fileRecords. apply Forall2_fmap_r, Forall_Forall2_diag, Forall_forall.
    intros r [Hinc Hr]%list_elem_of_filter.
    pose proof (proj1 (Hiff r Hr) Hinc) as Hp.
    split; [done|]. by apply file_record_carries.
  - intros r Hr. rewrite Forall_forall in Htask, Hcount.
    apply built_by_task_skipped; auto.
  - intros l1 fb l2 Hrows Ha Hs Hex.
    destruct (fallback_skipped fb Ha Hs) as [Hi _].
    assert (Exists (λ r, ¬ includable r = true) (l1 ++ l2)) as Hex'.
    { apply Exists_exists in Hex as (r & Hr & Hnp). apply Exists_exists.
      exists r. split; [done|]. intros Hinc. apply Hnp, Hiff; [|done].
      rewrite Hrows. apply elem_of_app in Hr as [Hr|Hr]; apply elem_of_app;
        [by left|right; apply elem_of_cons; by right]. }
    apply (length_filter_Exists (λ r, includable r = true)) in Hex'.
    unfold fileRecords. rewrite length_fmap, Hrows, filter_app, filter_cons.
    rewrite decide_False by (by rewrite Hi).
    rewrite filter_app in Hex'. rewrite !length_app in *. simpl. lia.
Qed.

Lemma packaged_iff_primary_with_metadata_witness :
  ∃ b log',
    build Samples.world Samples.pack [] = (Fulfilled (BuildDone b), log')
    ∧ length (new_files b) = 2
    ∧ skipped_names b = ["Carpet"].
Proof.
  destruct (packaged_iff_primary_with_metadata Samples.world Samples.pack [])
    as (b & log' & Hrun & _ & _ & _ & _ & Hex & _).
  - vm_compute. reflexivity.
  - apply Forall_cons_2;
      [exists Samples.world, Samples.ctx, "AANobbMI", [],
         [GetVersions "AANobbMI" "1.21" "fabric"];
       left; vm_compute; reflexivity|].
    apply Forall_cons_2;
      [exists Samples.world, Samples.ctx, "TQTTVgYE", [],
         [GetVersions "TQTTVgYE" "1.21" "fabric"; GetGitHubReleases];
       left; vm_compute; reflexivity|].
    apply Forall_cons_2;
      [exists Samples.world, Samples.ctx, "gvQqBUqZ", [],
         [GetVersions "gvQqBUqZ" "1.21" "fabric"];
       left; vm_compute; reflexivity|].
    apply Forall_nil_2.
  - repeat constructor; intros n [= <-]; lia.
  - exists b, log'. split; [exact Hrun|].
    destruct (Hex [Samples.sodium_row] Samples.carpet_row [Samples.lithium_row])
      as (_ & Hlen & Hnames); [reflexivity..| |].
    + repeat constructor; try (eexists; split; [reflexivity|lia]).
    + split; [by apply Hlen|exact Hnames].
Defined.

(** C6 as stated fails.  Three identities are resolved in a world where
    the newest release of Lithium lists no file.  All three rows have a
    target, exactly one of them comes from the GitHub fallback and the two
    others are of source [modrinth]; yet the rebuilt file list has one
    entry, not two, and the note on excluded rows names the row of
    Lithium next to the fallback row. *)
Lemma one_fallback_row_yet_one_entry :
  Samples.task_bare <$> Samples.three_ids
  = Fulfilled <$> rows Samples.pack_bare
  ∧ length (rows Samples.pack_bare) = 3
  ∧ target_available <$> rows Samples.pack_bare = [true; true; true]
  ∧ source <$> rows Samples.pack_bare
    = ["modrinth"; "github-fallback"; "modrinth"]
  ∧ ∃ b log',
      build Samples.world_bare Samples.pack_bare [] = (Fulfilled (BuildDone b), log')
      ∧ length (new_files b) = 1
      ∧ skipped_names b = ["Carpet"; "Lithium"].
Proof.
  split_and!; [vm_compute; reflexivity|reflexivity..|].
  destruct (build_run Samples.world_bare Samples.pack_bare [])
    as (deps & note & calls & Hrun & _); [vm_compute; reflexivity|].
  eexists _, _. split; [exact Hrun|]. simpl.
  split; vm_compute; reflexivity.
Qed.

(** *** Paths *)

Lemma path_of_orig m r :
  path_of (projectIdToOrigFile m) r
  = match orig_path m r with
    | Some p => p
    | None => inferPathFromCategory r
    end.
Proof. done. Qed.

Lemma NoDup_fmap_inj_on {A B : Type} (f : A → B) (l : list A) :
  (∀ x y, x ∈ l → y ∈ l → f x = f y → x = y) →
  NoDup l → NoDup (f <$> l).
Proof.
  intros Hinj. induction 1 as [|x l Hx Hl IH]; simpl; constructor.
  - intros (y & Hxy & Hy)%list_elem_of_fmap.
    assert (x = y) as ->; [|done].
    apply Hinj; [apply elem_of_cons; by left|apply elem_of_cons; by right|done].
  - apply IH. intros y z Hy Hz. apply Hinj; apply elem_of_cons; by right.
Qed.

Lemma NoDup_fmap_eq_on {A B : Type} (f : A → B) (l : list A) x y :
  NoDup (f <$> l) → x ∈ l → y ∈ l → f x = f y → x = y.
Proof.
  induction l as [|z l IH]; simpl; [by intros _ ?%elem_of_nil|].
  intros [Hz Hl]%NoDup_cons [->|Hx]%elem_of_cons [->|Hy]%elem_of_cons Hf;
    try done.
  - destruct Hz. rewrite Hf. by apply list_elem_of_fmap_2.
  - destruct Hz. rewrite <- Hf. by apply list_elem_of_fmap_2.
  - by apply IH.
Qed.

(** C7, as the code has it.  Each entry of the rebuilt file list takes
    the path of the original entry matched by the row's project id when
    that entry has a non-empty path, and otherwise a path made of the
    row's category and slug ([mods/], [resourcepacks/] or [shaderpacks/],
    with a fixed name when the slug is absent); two rows of the same
    category and slug get the same made-up path.  The paths are pairwise
    distinct when the rows have distinct project ids, every included row
    has an original path, and the original paths of included rows of
    different projects differ. *)
Theorem paths_from_original_or_category w m log :
  hasData m = true →
  ∃ b log',
    build w m log = (Fulfilled (BuildDone b), log')
    ∧ path <$> new_files b
      = path_of (projectIdToOrigFile m)
        <$> filter (λ r, includable r = true) (rows m)
    ∧ (∀ r, path_of (projectIdToOrigFile m) r
            = match orig_path m r with
              | Some p => p
              | None => inferPathFromCategory r
              end)
    ∧ (∀ r r', row_category r = row_category r' → row_slug r = row_slug r' →
               inferPathFromCategory r = inferPathFromCategory r')
    ∧ (NoDup (project_id <$> rows m) →
       (∀ r, r ∈ rows m → includable r = true → is_Some (orig_path m r)) →
       (∀ r1 r2, r1 ∈ rows m → r2 ∈ rows m →
                 includable r1 = true → includable r2 = true →
                 orig_path m r1 = orig_path m r2 →
                 project_id r1 = project_id r2) →
       NoDup (path <$> new_files b)).
Proof.
  intros Hd.
  destruct (build_run w m log Hd) as (deps & note & calls & Hrun & _).
  eexists _, _. split; [exact Hrun|]. simpl.
  assert (path <$> fileRecords m
          = path_of (projectIdToOrigFile m)
            <$> filter (λ r, includable r = true) (rows m)) as Hpaths.
  { unfold fileRecords. by rewrite <- list_fmap_compose. }
  split_and!; try done.
  - intros r r' Hc Hs. unfold inferPathFromCategory. by rewrite Hc, Hs.
  - intros Hids Horig Hinj. rewrite Hpaths.
    apply NoDup_fmap_inj_on.
    + intros r1 r2 [Hi1 Hr1]%list_elem_of_filter [Hi2 Hr2]%list_elem_of_filter.
      rewrite !path_of_orig.
      destruct (Horig r1 Hr1 Hi1) as [p1 Hp1], (Horig r2 Hr2 Hi2) as [p2 Hp2].
      rewrite Hp1, Hp2. intros ->.
      apply (NoDup_fmap_eq_on project_id (rows m)); [done..|].
      apply Hinj; try done. by rewrite Hp1, Hp2.
    + apply NoDup_filter. by eapply NoDup_fmap_1.
Qed.

Lemma paths_from_original_or_category_witness :
  ∃ b log',
    build Samples.world Samples.pack [] = (Fulfilled (BuildDone b), log')
    ∧ path <$> new_files b = ["mods/sodium-0.5.8.jar"; "mods/lithium-0.11.jar"].
Proof.
  destruct (paths_from_original_or_category Samples.world Samples.pack [])
    as (b & log' & Hrun & Hpaths & _); [vm_compute; reflexivity|].
  exists b, log'. split; [exact Hrun|]. rewrite Hpaths. vm_compute. reflexivity.
Defined.

(** C7 as stated fails.  A manifest that lists the files of two projects
    under one path is rebuilt with that path twice; and when the entries
    of the manifest carry no path and the rows no slug (the single-file
    variant, project metadata out of reach), every mod gets the path
    [mods/mod.jar]. *)
Lemma rebuilt_paths_can_repeat :
  (∃ b log',
     build Samples.world Samples.pack_same_path [] = (Fulfilled (BuildDone b), log')
     ∧ path <$> new_files b = ["mods/performance.jar"; "mods/performance.jar"]
     ∧ ¬ NoDup (path <$> new_files b))
  ∧ (∃ b log',
       build Samples.world Samples.pack_no_paths [] = (Fulfilled (BuildDone b), log')
       ∧ path <$> new_files b = ["mods/mod.jar"; "mods/mod.jar"]
       ∧ ¬ NoDup (path <$> new_files b)).
Proof.
  split.
  - destruct (build_run Samples.world Samples.pack_same_path [])
      as (deps & note & calls & Hrun & _); [vm_compute; reflexivity|].
    eexists _, _. split; [exact Hrun|].
    match goal with
    | |- context [new_files ?b] =>
        assert (path <$> new_files b = ["mods/performance.jar"; "mods/performance.jar"]) as ->
          by (vm_compute; reflexivity)
    end.
    split; [done|]. intros [Hin _]%NoDup_cons. apply Hin, elem_of_cons. by left.
  - destruct (build_run Samples.world Samples.pack_no_paths [])
      as (deps & note & calls & Hrun & _); [vm_compute; reflexivity|].
    eexists _, _. split; [exact Hrun|].
    match goal with
    | |- context [new_files ?b] =>
        assert (path <$> new_files b = ["mods/mod.jar"; "mods/mod.jar"]) as ->
          by (vm_compute; reflexivity)
    end.
    split; [done|]. intros [Hin _]%NoDup_cons. apply Hin, elem_of_cons. by left.
Qed.

(** *** The loader pin *)

Lemma recommended_failure w mc :
  (∃ e, w_fabric_meta w mc = Rejected e)
  ∨ (∃ status, w_fabric_meta w mc = Fulfilled (NotOk status))
  ∨ w_fabric_meta w mc = Fulfilled (Ok None)
  ∨ w_fabric_meta w mc = Fulfilled (Ok (Some [])) →
  recommended w mc = None.
Proof.
  unfold recommended. by intros [[e ->]|[[st ->]|[->| ->]]].
Qed.

(** C9, as the code has it.  A build that has data always comes to an
    end with a rebuilt index whose [minecraft] pin is the target; all pins
    other than [minecraft] and [fabric-loader] are carried over.  When the
    selected loader is [fabric], Fabric meta is asked exactly once: a
    version it recommends becomes the [fabric-loader] pin, and when the
    lookup gives none the pin is what it was before, present or absent,
    and the note says so.  For any other selected loader nothing is asked,
    the [fabric-loader] pin is what it was before, and there is no note.
    The lookup gives none whenever the request fails, is answered with an
    error status, or lists nothing. *)
Theorem loader_pin_best_effort w m log :
  hasData m = true →
  ∃ b calls,
    build w m log = (Fulfilled (BuildDone b), log ++ calls)
    ∧ new_dependencies b !! "minecraft" = Some (mp_targetMc m)
    ∧ (∀ k, k ≠ "minecraft" → k ≠ "fabric-loader" →
            new_dependencies b !! k = old_dependencies m !! k)
    ∧ (selectedLoader m = "fabric" →
       calls = [GetFabricMeta (mp_targetMc m)]
       ∧ match recommended w (mp_targetMc m) with
         | Some rec =>
             new_dependencies b !! "fabric-loader" = Some rec
             ∧ loaderNote b = "Fabric Loader set to " +:+ rec +:+ "."
         | None =>
             new_dependencies b !! "fabric-loader"
             = old_dependencies m !! "fabric-loader"
             ∧ loaderNote b
               = (if truthy (old_dependencies m !! "fabric-loader")
                  then "Kept existing Fabric Loader "
                       +:+ default "" (old_dependencies m !! "fabric-loader")
                       +:+ " (meta lookup failed)."
                  else "Fabric Loader not set (meta lookup failed).")
         end)
    ∧ (selectedLoader m ≠ "fabric" →
       calls = []
       ∧ new_dependencies b !! "fabric-loader"
         = old_dependencies m !! "fabric-loader"
       ∧ loaderNote b = "")
    ∧ ((∃ e, w_fabric_meta w (mp_targetMc m) = Rejected e)
       ∨ (∃ status, w_fabric_meta w (mp_targetMc m) = Fulfilled (NotOk status))
       ∨ w_fabric_meta w (mp_targetMc m) = Fulfilled (Ok None)
       ∨ w_fabric_meta w (mp_targetMc m) = Fulfilled (Ok (Some [])) →
       recommended w (mp_targetMc m) = None).
Proof.
  intros Hd.
  destruct (build_run w m log Hd) as (deps & note & calls & Hrun & Hpin).
  eexists _, calls. split; [exact Hrun|]. simpl.
  pose proof (recommended_failure w (mp_targetMc m)) as Hfail.
  unfold pin_loader in Hpin. case_decide as Hsel.
  - unfold mbind, Net_bind in Hpin.
    rewrite getRecommendedLoaderVersion_run in Hpin.
    assert ((<["minecraft" := mp_targetMc m]> (old_dependencies m) : gmap string string)
              !! "fabric-loader" = old_dependencies m !! "fabric-loader") as Hold.
    { by rewrite lookup_insert_ne. }
    rewrite Hold in Hpin.
    destruct (recommended w (mp_targetMc m)) as [rec|].
    + injection Hpin as <- <- Hcalls%app_inv_head.
      split_and!; try done.
      * rewrite lookup_insert_ne by done. by rewrite lookup_insert_eq.
      * intros k H1 H2. by rewrite !lookup_insert_ne.
      * intros _. split; [done|]. by rewrite lookup_insert_eq.
    + destruct (truthy (old_dependencies m !! "fabric-loader"));
        injection Hpin as <- <- Hcalls%app_inv_head;
        (split_and!; try done;
         [by rewrite lookup_insert_eq|intros k H1 H2; by rewrite lookup_insert_ne]).
  - injection Hpin as <- <- Hcalls.
    assert (calls = []) as ->.
    { apply (app_inv_head log). by rewrite app_nil_r. }
    split_and!; try done.
    + by rewrite lookup_insert_eq.
    + intros k H1 H2. by rewrite lookup_insert_ne.
    + intros _. split_and!; try done. by rewrite lookup_insert_ne.
Qed.

Lemma loader_pin_best_effort_witness :
  (∃ b, build Samples.world Samples.pack []
        = (Fulfilled (BuildDone b), [GetFabricMeta "1.21"])
        ∧ new_dependencies b !! "fabric-loader" = Some "0.16.0"
        ∧ loaderNote b = "Fabric Loader set to 0.16.0.")
  ∧ (∃ b, build Samples.world_offline Samples.pack []
          = (Fulfilled (BuildDone b), [GetFabricMeta "1.21"])
          ∧ new_dependencies b !! "fabric-loader" = Some "0.15.0"
          ∧ loaderNote b = "Kept existing Fabric Loader 0.15.0 (meta lookup failed).").
Proof.
  split.
  - destruct (loader_pin_best_effort Samples.world Samples.pack [])
      as (b & calls & Hrun & _ & _ & Hfab & _); [vm_compute; reflexivity|].
    destruct (Hfab eq_refl) as [-> Hrec].
    exists b. split; [exact Hrun|]. exact Hrec.
  - destruct (loader_pin_best_effort Samples.world_offline Samples.pack [])
      as (b & calls & Hrun & _ & _ & Hfab & _); [vm_compute; reflexivity|].
    destruct (Hfab eq_refl) as [-> Hrec].
    exists b. split; [exact Hrun|]. exact Hrec.
Defined.

(** C9 as stated fails for a loader other than Fabric: the pack rebuilt
    for Quilt makes no lookup at all, although Fabric meta would answer
    [0.16.0]; the old pin [0.15.0] stays and no note is written. *)
Lemma no_lookup_for_other_loaders :
  recommended Samples.world "1.21" = Some "0.16.0"
  ∧ ∃ b, build Samples.world Samples.pack_quilt [] = (Fulfilled (BuildDone b), [])
         ∧ new_dependencies b !! "fabric-loader" = Some "0.15.0"
         ∧ loaderNote b = "".
Proof.
  split; [vm_compute; reflexivity|].
  destruct (build_run Samples.world Samples.pack_quilt [])
    as (deps & note & calls & Hrun & Hpin); [vm_compute; reflexivity|].
  unfold pin_loader in Hpin.
  rewrite decide_False in Hpin by done.
  injection Hpin as <- <- Hcalls. simpl in Hcalls. subst calls.
  eexists. split; [exact Hrun|]. simpl. split; [|done].
  vm_compute. reflexivity.
Qed.

End BuilderFacts.

(** ** Reading the pack *)

Module AnalyzeFacts.
Import Resolver Builder Analyze.

Lemma collect_snoc files f :
  collect (files ++ [f]) = collect_step (collect files) f.
Proof. unfold collect. by rewrite foldl_app. Qed.

Lemma collect_sha1s files :
  sha1s (collect files) = omap (λ f, or_null (pf_sha1 f)) files.
Proof.
  induction files as [|f files IH] using rev_ind; [done|].
  rewrite collect_snoc, omap_app. unfold collect_step. simpl.
  destruct (or_null (pf_sha1 f)); simpl; rewrite <- IH; [done|].
  by rewrite app_nil_r.
Qed.

Lemma last_with_snoc_old files f sha1 f0 :
  or_null (pf_sha1 f) ≠ Some sha1 →
  last_with files sha1 f0 → last_with (files ++ [f]) sha1 f0.
Proof.
  intros Hne (k & Hk & Hs & Hlast). exists k. split_and!; [|done|].
  - by apply lookup_app_l_Some.
  - intros j f' Hj Hf'. apply lookup_app_Some in Hf' as [Hf'|[_ Hf']]; [eauto|].
    apply list_lookup_singleton_Some in Hf' as [_ <-]. done.
Qed.

Lemma last_with_snoc_new files f sha1 :
  or_null (pf_sha1 f) = Some sha1 → last_with (files ++ [f]) sha1 f.
Proof.
  intros Hs. exists (length files). split_and!; [|done|].
  - by rewrite lookup_app_r, Nat.sub_diag by lia.
  - intros j f' Hj Hf'. apply lookup_lt_Some in Hf'.
    rewrite length_app in Hf'. simpl in Hf'. lia.
Qed.

(** Both maps hold, for a hash, the last entry that carries it. *)
Lemma collect_lookup files sha1 :
  match sha1ToFileObj (collect files) !! sha1 with
  | Some e =>
      ∃ f, last_with files sha1 f ∧ e = pf_entry f
           ∧ sha1ToPath (collect files) !! sha1
             = Some (or_str (of_path (pf_entry f)) "")
  | None =>
      sha1ToPath (collect files) !! sha1 = None
      ∧ ∀ f, f ∈ files → or_null (pf_sha1 f) ≠ Some sha1
  end.
Proof.
  induction files as [|f files IH] using rev_ind.
  { simpl. rewrite !lookup_empty. split; [done|]. by intros f ?%elem_of_nil. }
  rewrite collect_snoc. unfold collect_step.
  destruct (or_null (pf_sha1 f)) as [s|] eqn:Hs; simpl.
  - destruct (decide (s = sha1)) as [->|Hne].
    + rewrite !lookup_insert_eq. exists f. split_and!; [|done|done].
      by apply last_with_snoc_new.
    + rewrite !lookup_insert_ne by done.
      destruct (sha1ToFileObj (collect files) !! sha1) as [e|].
      * destruct IH as (f0 & Hl & He & Hp). exists f0. split_and!; [|done|done].
        apply last_with_snoc_old; [|done]. rewrite Hs. congruence.
      * destruct IH as [Hp Hno]. split; [done|].
        intros f' [Hf'|Hf']%elem_of_app; [eauto|].
        apply list_elem_of_singleton in Hf' as ->. rewrite Hs. congruence.
  - destruct (sha1ToFileObj (collect files) !! sha1) as [e|].
    + destruct IH as (f0 & Hl & He & Hp). exists f0. split_and!; [|done|done].
      apply last_with_snoc_old; [|done]. by rewrite Hs.
    + destruct IH as [Hp Hno]. split; [done|].
      intros f' [Hf'|Hf']%elem_of_app; [eauto|].
      apply list_elem_of_singleton in Hf' as ->. by rewrite Hs.
Qed.

Lemma last_with_unique files sha1 f1 f2 :
  last_with files sha1 f1 → last_with files sha1 f2 → f1 = f2.
Proof.
  intros (k1 & Hk1 & Hs1 & Hl1) (k2 & Hk2 & Hs2 & Hl2).
  destruct (Nat.lt_trichotomy k1 k2) as [Hlt|[->|Hlt]].
  - by destruct (Hl1 k2 f2 Hlt Hk2).
  - congruence.
  - by destruct (Hl2 k1 f1 Hlt Hk1).
Qed.

(** X1. The first loop of [analyze] lists every non-empty sha1 of the
    manifest, in manifest order and with repeats; for a hash carried by
    several entries, [sha1ToPath] and [sha1ToFileObj] keep the last of
    them, and they hold nothing for a hash the manifest does not carry. *)
Theorem collect_keeps_last_entry_per_hash (files : list PackFile) :
  sha1s (collect files) = omap (λ f, or_null (pf_sha1 f)) files
  ∧ (∀ sha1 f, last_with files sha1 f →
       sha1ToFileObj (collect files) !! sha1 = Some (pf_entry f)
       ∧ sha1ToPath (collect files) !! sha1
         = Some (or_str (of_path (pf_entry f)) ""))
  ∧ (∀ sha1, sha1 ∉ sha1s (collect files) →
       sha1ToFileObj (collect files) !! sha1 = None
       ∧ sha1ToPath (collect files) !! sha1 = None).
Proof.
  split_and!.
  - apply collect_sha1s.
  - intros sha1 f Hl. pose proof (collect_lookup files sha1) as H.
    destruct (sha1ToFileObj (collect files) !! sha1) as [e|].
    + destruct H as (f0 & Hl0 & -> & Hp).
      by rewrite (last_with_unique _ _ _ _ Hl Hl0).
    + destruct H as [_ Hno]. destruct Hl as (k & Hk & Hs & _).
      destruct (Hno f); [by eapply list_elem_of_lookup_2|done].
  - intros sha1 Hnot. pose proof (collect_lookup files sha1) as H.
    destruct (sha1ToFileObj (collect files) !! sha1) as [e|]; [|by destruct H].
    destruct H as (f0 & (k & Hk & Hs & _) & _). destruct Hnot.
    rewrite collect_sha1s. apply list_elem_of_omap. exists f0.
    split; [by eapply list_elem_of_lookup_2|done].
Qed.


(** *** The collapse to projects *)

Lemma StronglySorted_snoc (ks : list nat) n :
  StronglySorted lt ks → Forall (λ k, k < n) ks → StronglySorted lt (ks ++ [n]).
Proof.
  induction 1 as [|k ks Hs IH Hk]; intros Hn; simpl.
  { repeat constructor. }
  apply Forall_cons in Hn as [Hkn Hn]. constructor; [by apply IH|].
  apply Forall_app. split; [done|]. by repeat constructor.
Qed.

Lemma collapse_snoc h vm kv :
  collapse h (vm ++ [kv]) = collapse_step h (collapse h vm) kv.
Proof. unfold collapse. by rewrite foldl_app. Qed.

Lemma first_of_lt vm pid k : first_of vm pid k → k < length vm.
Proof.
  intros [Hk _]. destruct (vm !! k) eqn:E; [|done].
  by eapply lookup_lt_Some.
Qed.

Lemma first_of_snoc_old vm kv pid k :
  first_of vm pid k → first_of (vm ++ [kv]) pid k.
Proof.
  intros Hf. pose proof (first_of_lt _ _ _ Hf) as Hlt. destruct Hf as [Hk Hfirst].
  split.
  - by rewrite lookup_app_l.
  - intros j kv' Hj Hkv'. rewrite lookup_app_l in Hkv' by lia. eauto.
Qed.

Lemma first_of_snoc_new vm kv pid :
  project_of kv = Some pid →
  (∀ kv', kv' ∈ vm → project_of kv' ≠ Some pid) →
  first_of (vm ++ [kv]) pid (length vm).
Proof.
  intros Hp Hno. split.
  - rewrite lookup_app_r, Nat.sub_diag by lia. simpl. by rewrite Hp.
  - intros j kv' Hj Hkv'. rewrite lookup_app_l in Hkv' by lia.
    apply Hno. by eapply list_elem_of_lookup_2.
Qed.

Lemma entry_from_snoc_old h vm kv pe k :
  entry_from h vm pe k → entry_from h (vm ++ [kv]) pe k.
Proof.
  intros (Hf & ver & Hk & Hv & Hc). split; [by apply first_of_snoc_old|].
  exists ver. split_and!; [|done|done]. by apply lookup_app_l_Some.
Qed.

(** What the loop keeps: the entries come from increasing positions of
    [versionMap], each the first of its project; every project of
    [versionMap] has its entry; [projectIdToOrigFile] follows the
    representative hashes. *)
Lemma collapse_inv h vm :
  NoDup (entries (collapse h vm)).*1
  ∧ (∃ ks, Forall2 (entry_from h vm) (entries (collapse h vm)) ks
           ∧ StronglySorted lt ks)
  ∧ (∀ kv pid, kv ∈ vm → project_of kv = Some pid →
       pid ∈ (entries (collapse h vm)).*1)
  ∧ (∀ pid e, (pid, e) ∈ entries (collapse h vm) →
       origFiles (collapse h vm) !! pid = sha1ToFileObj h !! exampleSha1 e)
  ∧ (∀ pid, pid ∉ (entries (collapse h vm)).*1 →
       origFiles (collapse h vm) !! pid = None).
Proof.
  induction vm as [|kv vm IH] using rev_ind.
  { simpl. split_and!.
    - constructor.
    - exists []. split; constructor.
    - by intros kv pid ?%elem_of_nil.
    - by intros pid e ?%elem_of_nil.
    - intros pid _. apply lookup_empty. }
  destruct IH as (Hnd & (ks & Hks & Hsorted) & Hall & Horig & Hnone).
  rewrite collapse_snoc. unfold collapse_step.
  assert (∀ pid, project_of kv = Some pid →
            pid ∈ (entries (collapse h vm)).*1 →
            ∀ kv' pid', kv' ∈ vm ++ [kv] → project_of kv' = Some pid' →
              pid' ∈ (entries (collapse h vm)).*1) as Hkeep.
  { intros pid Hp Hin kv' pid' [Hkv'|Hkv']%elem_of_app Hp'; [eauto|].
    apply list_elem_of_singleton in Hkv' as ->. congruence. }
  assert (Forall2 (entry_from h (vm ++ [kv])) (entries (collapse h vm)) ks) as Hks'.
  { eapply Forall2_impl; [exact Hks|]. intros pe k. apply entry_from_snoc_old. }
  destruct (project_of kv) as [pid|] eqn:Hp; cycle 1.
  { split_and!; try done; [by exists ks|].
    intros kv' pid' [Hkv'|Hkv']%elem_of_app Hp'; [eauto|].
    apply list_elem_of_singleton in Hkv' as ->. congruence. }
  destruct kv as [sha1 [ver|]]; [|done]. simpl.
  destruct (decide (pid ∈ (entries (collapse h vm)).*1)) as [Hin|Hnin].
  { split_and!; try done; [by exists ks|by eapply Hkeep]. }
  simpl. rewrite fmap_app. simpl. split_and!.
  - apply NoDup_app. split_and!; [done| |apply NoDup_singleton].
    intros x Hx ->%list_elem_of_singleton. done.
  - exists (ks ++ [length vm]). split.
    + apply Forall2_app; [done|]. constructor; [|constructor].
      split; simpl.
      * apply first_of_snoc_new; [done|]. intros kv' Hkv' Hp'.
        apply Hnin. eauto.
      * exists ver. split_and!; [|done|done].
        by rewrite lookup_app_r, Nat.sub_diag by lia.
    + apply StronglySorted_snoc; [done|].
      clear -Hks. induction Hks as [|pe k l ks' [Hf _] _ IHks]; constructor; [|done].
      by eapply first_of_lt.
  - intros kv' pid' [Hkv'|Hkv']%elem_of_app Hp'.
    + apply elem_of_app. left. eauto.
    + apply list_elem_of_singleton in Hkv' as ->. apply elem_of_app. right.
      apply list_elem_of_singleton. congruence.
  - intros pid' e [Hin|Hin]%elem_of_app.
    + assert (pid' ≠ pid) as Hne.
      { intros ->. apply Hnin. apply list_elem_of_fmap. by exists (pid, e). }
      rewrite lookup_partial_alter_ne by done. eauto.
    + apply list_elem_of_singleton in Hin. injection Hin as -> ->.
      by rewrite lookup_partial_alter_eq.
  - intros pid' Hnot. rewrite not_elem_of_app in Hnot. destruct Hnot as [Hn1 Hn2].
    rewrite lookup_partial_alter_ne; [eauto|].
    intros ->. apply Hn2. by apply list_elem_of_singleton.
Qed.


(** X2. The collapse keeps one entry per project: the project ids are
    distinct and are exactly the projects some answer of [version_files]
    names; the entries follow the order in which the projects first appear
    in the answer, each built from the first hash that resolved to its
    project; and [projectIdToOrigFile] holds for a project the manifest
    entry of that hash. *)
Theorem collapse_one_entry_per_project (h : Hashes)
    (versionMap : list (string * option HashHit)) :
  NoDup (entries (collapse h versionMap)).*1
  ∧ (∀ pid, pid ∈ (entries (collapse h versionMap)).*1
            ↔ ∃ kv, kv ∈ versionMap ∧ project_of kv = Some pid)
  ∧ (∃ ks, Forall2 (entry_from h versionMap) (entries (collapse h versionMap)) ks
           ∧ StronglySorted lt ks)
  ∧ (∀ pid e, (pid, e) ∈ entries (collapse h versionMap) →
       origFiles (collapse h versionMap) !! pid
       = sha1ToFileObj h !! exampleSha1 e).
Proof.
  destruct (collapse_inv h versionMap) as (Hnd & (ks & Hks & Hs) & Hall & Horig & _).
  split_and!; [done| |by exists ks|done].
  intros pid. split; [|intros (kv & Hkv & Hp); eauto].
  intros ((pid' & e) & -> & Hin)%list_elem_of_fmap. simpl.
  apply list_elem_of_lookup_1 in Hin as [n Hn].
  destruct (Forall2_lookup_l _ _ _ _ _ Hks Hn) as (k & _ & [[Hk _] _]).
  simpl in Hk. destruct (versionMap !! k) as [kv|] eqn:Hkv; [|done].
  exists kv. split; [by eapply list_elem_of_lookup_2|]. simpl in Hk. congruence.
Qed.

(** *** The tasks *)

(** How the task of a project settles. *)
Lemma task_settles w c pid :
  task w c pid
  = match primary_candidate w c pid with
    | Some v =>
        Fulfilled (row_with c pid (Some (FromModrinth v)) (src_of c pid) (Some v))
    | None =>
        if isCarpet (projectMap c !! pid) pid then
          match w_github w with
          | Rejected e => Rejected e
          | Fulfilled (NotOk _) => Fulfilled (row_with c pid None (src_of c pid) None)
          | Fulfilled (Ok releases) =>
              match Fallback.scan_releases (targetMc c) false releases with
              | Some g =>
                  Fulfilled (row_with c pid (Some (FromGitHub g)) "github-fallback" None)
              | None => Fulfilled (row_with c pid None (src_of c pid) None)
              end
          end
        else Fulfilled (row_with c pid None (src_of c pid) None)
    end.
Proof.
  unfold task, task_outcome, resolveTask. unfold mbind at 1, Net_bind at 1.
  rewrite ResolverFacts.getBestTargetVersion_run.
  fold (task_cat c pid). fold (task_loader c pid). fold (primary_candidate w c pid).
  fold (src_of c pid). unfold row_with, carpet_fallback.
  destruct (primary_candidate w c pid) as [v|]; simpl; [done|].
  destruct (isCarpet (projectMap c !! pid) pid); simpl; [|done].
  unfold Fallback.fetchCarpetGitHubRelease. ResolverFacts.run_net.
  destruct (w_github w) as [[status|releases]|e]; simpl; try done.
  by destruct (Fallback.scan_releases (targetMc c) false releases).
Qed.


Lemma task_row w c pid r :
  task w c pid = Fulfilled r → ∃ best src bm, r = row_with c pid best src bm.
Proof.
  rewrite task_settles. intros H.
  repeat case_match; try done; injection H as <-; eauto.
Qed.


Lemma sequential_Fulfilled_inv {Item V E : Type} (fn : Item → Settled V E) l vs :
  Scheduler.sequentialInOrder fn l = Fulfilled vs →
  ∃ rs, vs = Some <$> rs ∧ Forall2 (λ x r, fn x = Fulfilled r) l rs.
Proof.
  revert vs. induction l as [|x l IH]; intros vs; simpl.
  { intros [= <-]. exists []. split; [done|constructor]. }
  destruct (fn x) as [v|e] eqn:Hx; [|done].
  destruct (Scheduler.sequentialInOrder fn l) as [vs'|e]; [|done].
  intros [= <-]. destruct (IH vs' eq_refl) as (rs & -> & Hrs).
  exists (v :: rs). split; [done|by constructor].
Qed.


(** Every run of [mapLimitProgress] over the tasks ends as running them in
    order does, and some run ends. *)
Lemma run_ends {Item V E : Type} (items : list Item) (fn : Item → Settled V E) r :
  (∃ tr s, Scheduler.exec items MAX_CONCURRENCY fn tr (Scheduler.init items) = Some s
           ∧ Scheduler.result s = Some r)
  ↔ r = Scheduler.sequentialInOrder fn items.
Proof.
  split.
  - intros (tr & s & Hexec & Hres).
    eapply SchedulerFacts.result_sequential; [|done].
    eapply SchedulerFacts.Inv_exec; [apply SchedulerFacts.Inv_init|done].
  - intros ->.
    destruct (SchedulerFacts.can_finish items MAX_CONCURRENCY fn (Scheduler.init items))
      as (tr & s & Hexec & [r Hres]).
    { unfold MAX_CONCURRENCY. lia. }
    { apply SchedulerFacts.Inv_init. }
    exists tr, s. split; [done|]. rewrite Hres. f_equal.
    eapply SchedulerFacts.result_sequential; [|done].
    eapply SchedulerFacts.Inv_exec; [apply SchedulerFacts.Inv_init|done].
Qed.

Lemma analyze_iff w i o : analyze w i o ↔ o = analyze_in_order w i.
Proof.
  unfold analyze, analyze_in_order.
  destruct (prepare i) as [[| | |name ids c orig]|e]; try reflexivity.
  split.
  - intros (tr & s & r & Hexec & Hres & ->). f_equal.
    apply run_ends. eauto.
  - intros ->.
    destruct (proj2 (run_ends ids (task w c) _) eq_refl) as (tr & s & Hexec & Hres).
    by exists tr, s, (Scheduler.sequentialInOrder (task w c) ids).
Qed.

(** What [prepare] hands to the tasks. *)
Lemma prepare_Ready i name ids c orig :
  prepare i = Fulfilled (Ready name ids c orig) →
  ∃ index vm,
    in_index i = Some index
    ∧ in_version_files i (sha1s (collect (default [] (ix_files index))))
      = Fulfilled vm
    ∧ ids = (entries (collapse (collect (default [] (ix_files index))) vm)).*1
    ∧ ids ≠ []
    ∧ projectEntries c
      = list_to_map (entries (collapse (collect (default [] (ix_files index))) vm))
    ∧ projectMap c = getProjectsBatch (in_projects i) ids
    ∧ packLoader c = in_packLoader i
    ∧ targetMc c = in_targetMc i
    ∧ PACK_MC c = or_str (ix_dependencies index ≫= (.!! "minecraft")) "-"
    ∧ orig = origFiles (collapse (collect (default [] (ix_files index))) vm).
Proof.
  unfold prepare. destruct (in_index i) as [index|]; [|done].
  destruct (sha1s (collect (default [] (ix_files index)))) as [|s0 ss] eqn:Hs; [done|].
  rewrite <- Hs.
  destruct (in_version_files i (sha1s (collect (default [] (ix_files index)))))
    as [vm|e] eqn:Hvm; [|done].
  destruct ((entries (collapse (collect (default [] (ix_files index))) vm)).*1)
    as [|p0 ps] eqn:Hids; [done|].
  intros H. injection H as <- <- <- <-. exists index, vm. simpl.
  by split_and!.
Qed.

Lemma categoryOfPath_three path : three_categories (categoryOfPath path).
Proof.
  unfold categoryOfPath, three_categories. repeat case_match; eauto.
Qed.

Lemma or_str_category path : or_str (Some (categoryOfPath path)) "mod" = categoryOfPath path.
Proof. unfold categoryOfPath. by repeat case_match. Qed.

(** The category a task works with is the one the collapse detected. *)
Lemma task_cat_collapsed h vm c pid e :
  projectEntries c = list_to_map (entries (collapse h vm)) →
  (pid, e) ∈ entries (collapse h vm) →
  projectEntries c !! pid = Some e
  ∧ task_cat c pid = categoryOfPath (entry_path h e).
Proof.
  intros Hc Hin.
  destruct (collapse_inv h vm) as (Hnd & (ks & Hks & _) & _).
  assert (projectEntries c !! pid = Some e) as He.
  { rewrite Hc. by apply elem_of_list_to_map. }
  split; [done|]. unfold task_cat. rewrite He. simpl.
  apply list_elem_of_lookup_1 in Hin as [n Hn].
  destruct (Forall2_lookup_l _ _ _ _ _ Hks Hn) as (k & _ & _ & ver & _ & _ & Hcat).
  simpl in Hcat. unfold entry_path. rewrite Hcat. apply or_str_category.
Qed.


Lemma rows_of_tasks w c ids rs :
  Forall2 (λ pid r, task w c pid = Fulfilled r) ids rs →
  project_id <$> rs = ids
  ∧ Forall (λ r, ∃ pid best src bm, pid ∈ ids ∧ r = row_with c pid best src bm) rs.
Proof.
  induction 1 as [|pid r ids rs Hr _ [IH1 IH2]]; [by split|].
  destruct (task_row _ _ _ _ Hr) as (best & src & bm & ->).
  split; [rewrite fmap_cons; by f_equal|].
  constructor.
  - exists pid, best, src, bm. split; [by left|done].
  - eapply Forall_impl; [exact IH2|].
    intros r' (pid' & b' & s' & bm' & Hin & ->). exists pid', b', s', bm'.
    split; [by right|done].
Qed.

(** What a call that returned rows went through. *)
Lemma analyze_rows_inv w i rows :
  analyze w i (ReturnedRows rows) →
  ∃ name ids c orig rs,
    prepare i = Fulfilled (Ready name ids c orig)
    ∧ rows = Some <$> rs
    ∧ Forall2 (λ pid r, task w c pid = Fulfilled r) ids rs.
Proof.
  intros Ha%analyze_iff. unfold analyze_in_order in Ha.
  destruct (prepare i) as [[| | |name ids c orig]|e] eqn:Hprep; try done.
  destruct (Scheduler.sequentialInOrder (task w c) ids) as [vs|e] eqn:Hseq; [|done].
  injection Ha as ->.
  destruct (sequential_Fulfilled_inv _ _ _ Hseq) as (rs & -> & Hrs).
  by exists name, ids, c, orig, rs.
Qed.

(** X3. When [analyze] returns rows, it returns one row per project of
    the collapse, in the order of the project ids and without holes: the
    row of a project is what its task fulfilled with, no two rows share a
    project id, there is at least one row, and every row carries one of
    the three categories, the runtime of the loaded pack and the target
    runtime. *)
Theorem analyze_returns_one_row_per_project w i rows :
  analyze w i (ReturnedRows rows) →
  ∃ name ids c orig rs,
    prepare i = Fulfilled (Ready name ids c orig)
    ∧ rows = Some <$> rs
    ∧ Forall2 (λ pid r, task w c pid = Fulfilled r) ids rs
    ∧ project_id <$> rs = ids
    ∧ NoDup (project_id <$> rs)
    ∧ rs ≠ []
    ∧ Forall (λ r, three_categories (row_category r)
                   ∧ current_mc r = PACK_MC c
                   ∧ target_mc r = in_targetMc i) rs.
Proof.
  intros (name & ids & c & orig & rs & Hprep & -> & Hrs)%analyze_rows_inv.
  exists name, ids, c, orig, rs.
  destruct (prepare_Ready _ _ _ _ _ Hprep)
    as (index & vm & Hix & Hvm & Hids & Hne & Hpe & Hpm & Hpl & Hmc & Hpack & Horig).
  destruct (rows_of_tasks _ _ _ _ Hrs) as [Hpid Hrow].
  destruct (collapse_inv (collect (default [] (ix_files index))) vm) as (Hnd & _).
  split_and!; try done.
  - rewrite Hpid, Hids. done.
  - intros ->. simpl in Hpid. congruence.
  - eapply Forall_impl; [exact Hrow|].
    intros r (pid & best & src & bm & Hin & ->).
    split_and!; [|reflexivity|exact Hmc].
    change (three_categories (task_cat c pid)).
    rewrite Hids in Hin. apply list_elem_of_fmap in Hin as ((pid' & e) & Heq & Hin).
    simpl in Heq. subst pid.
    destruct (task_cat_collapsed _ _ _ _ _ Hpe Hin) as [_ ->].
    apply categoryOfPath_three.
Qed.


(** X5. Once the archive is read, a call of [analyze] has exactly one
    outcome, whatever the order in which the completions of its tasks
    arrive: the outcome of running the tasks one after the other in the
    order of the project ids.  In particular every such call ends. *)
Theorem analyze_ends_one_way w i :
  analyze w i (analyze_in_order w i)
  ∧ ∀ o, analyze w i o → o = analyze_in_order w i.
Proof.
  split; [by apply analyze_iff|]. intros o. by apply analyze_iff.
Qed.





Lemma analyze_returns_one_row_per_project_witness :
  analyze Samples.world PackSamples.input (ReturnedRows PackSamples.rows)
  ∧ ∃ rs, PackSamples.rows = Some <$> rs
          ∧ project_id <$> rs = ["AANobbMI"; "TQTTVgYE"; "gvQqBUqZ"].
Proof.
  assert (analyze Samples.world PackSamples.input (ReturnedRows PackSamples.rows))
    as Ha.
  { unfold analyze. set (p := prepare PackSamples.input). vm_compute in p.
    subst p. cbv beta iota.
    exists Samples.full_run. eexists. exists (Fulfilled PackSamples.rows).
    split_and!; [vm_compute; reflexivity|vm_compute; reflexivity|reflexivity]. }
  split; [exact Ha|].
  destruct (analyze_returns_one_row_per_project _ _ _ Ha)
    as (name & ids & c & orig & rs & Hprep & Hrows & _ & Hpid & _).
  exists rs. split; [exact Hrows|]. rewrite Hpid.
  vm_compute in Hprep. by injection Hprep as _ <- _ _.
Defined.



(** *** From the analysis to the build *)

Lemma task_row_src w c pid r :
  task w c pid = Fulfilled r →
  ∃ best src bm, r = row_with c pid best src bm
                 ∧ (src = src_of c pid ∨ src = "github-fallback").
Proof.
  rewrite task_settles. intros H.
  repeat case_match; try done; injection H as <-; eauto 6.
Qed.

Lemma hasData_loaded i index orig rs :
  rs ≠ [] → hasData (loaded i index orig rs) = true.
Proof.
  intros Hne. unfold hasData, loaded. simpl.
  rewrite !andb_true_r, bool_decide_eq_true.
  destruct rs; [done|simpl; lia].
Qed.

Lemma build_loaded w i index orig rs log :
  rs ≠ [] →
  ∃ b log',
    build w (loaded i index orig rs) log = (Fulfilled (BuildDone b), log')
    ∧ new_files b = file_record orig <$> filter (λ r, includable r = true) rs
    ∧ skipped_names b = display_name <$> filter (λ r, skipped r = true) rs.
Proof.
  intros Hne.
  destruct (BuilderFacts.build_run w (loaded i index orig rs) log
              (hasData_loaded i index orig rs Hne))
    as (deps & note & calls & Hrun & _).
  eexists _, _. split; [exact Hrun|]. by split.
Qed.

Lemma filter_ext_in {A : Type} (P Q : A → Prop)
    `{∀ x, Decision (P x)} `{∀ x, Decision (Q x)} (l : list A) :
  Forall (λ x, P x ↔ Q x) l → filter P l = filter Q l.
Proof.
  induction 1 as [|x l Hx _ IH]; [done|].
  rewrite !filter_cons, IH.
  destruct (decide (P x)), (decide (Q x)); tauto.
Qed.

Lemma Forall2_Forall_r_in {A B : Type} (P : A → B → Prop) (Q : B → Prop) l k :
  Forall2 P l k → (∀ x y, x ∈ l → P x y → Q y) → Forall Q k.
Proof.
  induction 1 as [|x y l k Hxy _ IH]; intros HQ; constructor.
  - apply (HQ x); [by left|done].
  - apply IH. intros x' y' Hin. apply HQ. by right.
Qed.

(** The rows of a call that returned, each with the entry of its
    project. *)
Lemma analyze_rows_entries w i rows :
  analyze w i (ReturnedRows rows) →
  ∃ name ids c orig rs index vm,
    prepare i = Fulfilled (Ready name ids c orig)
    ∧ rows = Some <$> rs ∧ rs ≠ []
    ∧ in_index i = Some index
    ∧ projectMap c = getProjectsBatch (in_projects i) ids
    ∧ orig = origFiles (collapse (collect (default [] (ix_files index))) vm)
    ∧ Forall (λ r, ∃ e best src bm,
                 (project_id r, e)
                   ∈ entries (collapse (collect (default [] (ix_files index))) vm)
                 ∧ projectEntries c !! project_id r = Some e
                 ∧ task_cat c (project_id r)
                   = categoryOfPath (entry_path (collect (default [] (ix_files index))) e)
                 ∧ r = row_with c (project_id r) best src bm
                 ∧ (src = src_of c (project_id r) ∨ src = "github-fallback")) rs.
Proof.
  intros (name & ids & c & orig & rs & Hprep & -> & Hrs)%analyze_rows_inv.
  destruct (prepare_Ready _ _ _ _ _ Hprep)
    as (index & vm & Hix & Hvm & Hids & Hne & Hpe & Hpm & Hpl & Hmc & Hpack & Horig).
  exists name, ids, c, orig, rs, index, vm. split_and!; try done.
  { intros ->. apply Forall2_nil_inv_r in Hrs. done. }
  assert (∀ pid, pid ∈ ids →
            ∃ e, (pid, e) ∈ entries (collapse (collect (default [] (ix_files index))) vm))
    as Hent.
  { intros pid Hin. rewrite Hids in Hin.
    apply list_elem_of_fmap in Hin as ((pid' & e) & Heq & Hin). simpl in Heq.
    subst pid'. eauto. }
  eapply Forall2_Forall_r_in; [exact Hrs|]. intros pid r Hin Hr.
  destruct (task_row_src _ _ _ _ Hr) as (best & src & bm & -> & Hsrc).
  destruct (Hent pid Hin) as [e He].
  destruct (task_cat_collapsed _ _ _ _ _ Hpe He) as [Hl Hcat].
  by exists e, best, src, bm.
Qed.

Lemma or_str_Some_nonempty a s d : or_str (Some (String a s)) d = String a s.
Proof. done. Qed.

Lemma path_of_collapsed files vm r e :
  (project_id r, e) ∈ entries (collapse (collect files) vm) →
  path_of (origFiles (collapse (collect files) vm)) r
  = (if decide (entry_path (collect files) e = "") then inferPathFromCategory r
     else entry_path (collect files) e)
  ∧ (∀ f, last_with files (exampleSha1 e) f →
       entry_path (collect files) e = or_str (of_path (pf_entry f)) "").
Proof.
  intros Hin.
  destruct (collapse_inv (collect files) vm) as (_ & _ & _ & Horig & _).
  unfold path_of, entry_path. rewrite (Horig _ _ Hin).
  pose proof (collect_lookup files (exampleSha1 e)) as Hl.
  destruct (sha1ToFileObj (collect files) !! exampleSha1 e) as [entry|].
  - destruct Hl as (f & Hf & -> & ->). simpl. split.
    + by destruct (of_path (pf_entry f)) as [[|a p]|].
    + intros f' Hf'. rewrite (last_with_unique _ _ _ _ Hf' Hf).
      by destruct (of_path (pf_entry f)) as [[|a p]|].
  - destruct Hl as [-> Hno]. simpl. split; [done|].
    intros f (k & Hk & Hs & _). destruct (Hno f); [|done].
    by eapply list_elem_of_lookup_2.
Qed.

(** X7. A project that the batch answer of project metadata leaves out
    is never packaged: its row is not attributed to Modrinth even when a
    target version was found there, it links to the project by id, and
    [build] leaves it out, naming it among the excluded rows when it has a
    target.  When the batch request fails, this holds for every project:
    the analysis still returns its rows, and the rebuilt manifest lists no
    file at all. *)
Theorem project_missing_from_batch_is_not_packaged w i rows :
  analyze w i (ReturnedRows rows) →
  ∃ name ids c orig rs index,
    prepare i = Fulfilled (Ready name ids c orig)
    ∧ in_index i = Some index
    ∧ rows = Some <$> rs
    ∧ Forall (λ r, projectMap c !! project_id r = None →
                   source r ≠ "modrinth"
                   ∧ project_url r = "https://modrinth.com/project/" +:+ project_id r
                   ∧ includable r = false
                   ∧ (target_available r = true → skipped r = true)) rs
    ∧ ((∀ projects, in_projects i ids ≠ Fulfilled (Ok projects)) →
       projectMap c = ∅
       ∧ ∀ log, ∃ b log',
           build w (loaded i index orig rs) log = (Fulfilled (BuildDone b), log')
           ∧ new_files b = []
           ∧ skipped_names b
             = display_name <$> filter (λ r, target_available r = true) rs).
Proof.
  intros (name & ids & c & orig & rs & index & vm & Hprep & -> & Hne & Hix & Hpm
          & Horig & Hrs)%analyze_rows_entries.
  exists name, ids, c, orig, rs, index.
  assert (Forall (λ r, projectMap c !! project_id r = None →
                   source r ≠ "modrinth"
                   ∧ project_url r = "https://modrinth.com/project/" +:+ project_id r
                   ∧ includable r = false
                   ∧ (target_available r = true → skipped r = true)) rs) as Hrows.
  { eapply Forall_impl; [exact Hrs|].
    intros r (e & best & src & bm & _ & _ & _ & Hr & Hsrc) Hnone.
    assert (source r ≠ "modrinth") as Hs.
    { rewrite Hr. simpl. unfold src_of in Hsrc. rewrite Hnone in Hsrc.
      by destruct Hsrc as [-> | ->]. }
    split_and!; [done| | |].
    - rewrite Hr at 1. simpl. by rewrite Hnone.
    - unfold includable. rewrite (bool_decide_eq_false_2 _ Hs).
      by rewrite andb_false_r.
    - intros Ha. unfold skipped. rewrite Ha, (bool_decide_eq_false_2 _ Hs). done. }
  split_and!; try done.
  intros Hfail.
  assert (projectMap c = ∅) as Hempty.
  { rewrite Hpm. unfold getProjectsBatch. destruct ids; [done|].
    destruct (in_projects i (s :: ids)) as [[|projects]|] eqn:Hp; try done.
    by destruct (Hfail projects). }
  split; [done|]. intros log.
  destruct (build_loaded w i index orig rs log Hne) as (b & log' & Hrun & Hfiles & Hsk).
  exists b, log'. split_and!; [done| |].
  - rewrite Hfiles, BuilderFacts.filter_none; [done|].
    eapply Forall_impl; [exact Hrows|]. intros r Hr.
    destruct Hr as (_ & _ & Hi & _); [by rewrite Hempty, lookup_empty|].
    by rewrite Hi.
  - rewrite Hsk. f_equal. apply filter_ext_in.
    eapply Forall_impl; [exact Hrows|]. intros r Hr. simpl.
    destruct Hr as (Hs & _ & _ & Hskip); [by rewrite Hempty, lookup_empty|].
    split; [|done]. unfold skipped. by intros [? _]%andb_true_iff.
Qed.

Lemma project_missing_from_batch_is_not_packaged_witness :
  analyze Samples.world PackSamples.input_no_batch
    (ReturnedRows PackSamples.rows_no_batch)
  ∧ ∃ rs, PackSamples.rows_no_batch = Some <$> rs
          ∧ Forall (λ r, includable r = false) rs.
Proof.
  assert (analyze Samples.world PackSamples.input_no_batch
            (ReturnedRows PackSamples.rows_no_batch)) as Ha.
  { unfold analyze. set (p := prepare PackSamples.input_no_batch). vm_compute in p.
    subst p. cbv beta iota.
    exists Samples.full_run. eexists. exists (Fulfilled PackSamples.rows_no_batch).
    split_and!; [vm_compute; reflexivity|vm_compute; reflexivity|reflexivity]. }
  split; [exact Ha|].
  destruct (project_missing_from_batch_is_not_packaged _ _ _ Ha)
    as (name & ids & c & orig & rs & index & Hprep & _ & Hrows & Hrs & Hfail).
  exists rs. split; [exact Hrows|].
  destruct Hfail as [Hempty _]; [done|].
  eapply Forall_impl; [exact Hrs|]. intros r Hr.
  destruct Hr as (_ & _ & Hi & _); [by rewrite Hempty, lookup_empty|exact Hi].
Defined.

(** X8. The paths of a rebuilt manifest go back to the loaded one: for
    every row of an analysis, [build] uses the path that the manifest
    gives for the representative hash of the project (the last entry that
    carries the hash), and the category of the row was read off that same
    path.  When the manifest gives no path there, the row is a mod and its
    path is [mods/<slug>.jar], with [mod] for a missing slug. *)
Theorem analyze_then_build_keeps_manifest_paths w i rows :
  analyze w i (ReturnedRows rows) →
  ∃ name ids c orig rs index,
    prepare i = Fulfilled (Ready name ids c orig)
    ∧ in_index i = Some index
    ∧ rows = Some <$> rs
    ∧ Forall (λ r, ∃ e,
                projectEntries c !! project_id r = Some e
                ∧ row_category r
                  = categoryOfPath (entry_path (collect (default [] (ix_files index))) e)
                ∧ path_of orig r
                  = (if decide (entry_path (collect (default [] (ix_files index))) e = "")
                     then "mods/" +:+ or_str (row_slug r) "mod" +:+ ".jar"
                     else entry_path (collect (default [] (ix_files index))) e)
                ∧ (∀ f, last_with (default [] (ix_files index)) (exampleSha1 e) f →
                     entry_path (collect (default [] (ix_files index))) e
                     = or_str (of_path (pf_entry f)) "")) rs
    ∧ ∀ log, ∃ b log',
        build w (loaded i index orig rs) log = (Fulfilled (BuildDone b), log')
        ∧ path <$> new_files b
          = path_of orig <$> filter (λ r, includable r = true) rs.
Proof.
  intros (name & ids & c & orig & rs & index & vm & Hprep & -> & Hne & Hix & Hpm
          & Horig & Hrs)%analyze_rows_entries.
  exists name, ids, c, orig, rs, index. split_and!; try done.
  - eapply Forall_impl; [exact Hrs|].
    intros r (e & best & src & bm & Hin & Hl & Hcat & Hr & _).
    exists e.
    assert (row_category r
            = categoryOfPath (entry_path (collect (default [] (ix_files index))) e))
      as Hrc.
    { rewrite Hr at 1. exact Hcat. }
    destruct (path_of_collapsed _ _ _ _ Hin) as [Hpath Hlast].
    split_and!; [done|done| |done].
    rewrite Horig, Hpath. case_decide as Hempty; [|done].
    unfold inferPathFromCategory. rewrite Hrc, Hempty.
    by rewrite !decide_False by done.
  - intros log.
    destruct (build_loaded w i index orig rs log Hne) as (b & log' & Hrun & Hfiles & _).
    exists b, log'. split; [done|]. rewrite Hfiles, <- list_fmap_compose. done.
Qed.

Lemma analyze_then_build_keeps_manifest_paths_witness :
  analyze Samples.world PackSamples.input (ReturnedRows PackSamples.rows)
  ∧ ∃ rs orig b log',
      PackSamples.rows = Some <$> rs
      ∧ build Samples.world
          (loaded PackSamples.input PackSamples.manifest orig rs) []
        = (Fulfilled (BuildDone b), log')
      ∧ path <$> new_files b = path_of orig <$> filter (λ r, includable r = true) rs.
Proof.
  assert (analyze Samples.world PackSamples.input (ReturnedRows PackSamples.rows))
    as Ha.
  { unfold analyze. set (p := prepare PackSamples.input). vm_compute in p.
    subst p. cbv beta iota.
    exists Samples.full_run. eexists. exists (Fulfilled PackSamples.rows).
    split_and!; [vm_compute; reflexivity|vm_compute; reflexivity|reflexivity]. }
  split; [exact Ha|].
  destruct (analyze_then_build_keeps_manifest_paths _ _ _ Ha)
    as (name & ids & c & orig & rs & index & _ & Hix & Hrows & _ & Hbuild).
  injection Hix as <-.
  destruct (Hbuild []) as (b & log' & Hrun & Hpaths).
  by exists rs, orig, b, log'.
Defined.

End AnalyzeFacts.

(** ** Counting and showing the rows *)

Module TablesFacts.
Import Resolver Builder Tables.

Lemma filter_split_length {A : Type} (P Q : A → Prop)
    `{∀ x, Decision (P x)} `{∀ x, Decision (Q x)} (l : list A) :
  Forall (λ x, (P x ∨ Q x) ∧ ¬ (P x ∧ Q x)) l →
  length (filter P l) + length (filter Q l) = length l.
Proof.
  induction 1 as [|x l [Hor Hnot] _ IH]; [done|].
  rewrite !filter_cons.
  destruct (decide (P x)), (decide (Q x)); simpl; try lia; tauto.
Qed.

Lemma filter_split_length3 {A : Type} (P Q R : A → Prop)
    `{∀ x, Decision (P x)} `{∀ x, Decision (Q x)} `{∀ x, Decision (R x)}
    (l : list A) :
  Forall (λ x, (P x ∨ Q x ↔ R x) ∧ ¬ (P x ∧ Q x)) l →
  length (filter P l) + length (filter Q l) = length (filter R l).
Proof.
  induction 1 as [|x l [Hor Hnot] _ IH]; [done|].
  rewrite !filter_cons.
  destruct (decide (P x)), (decide (Q x)), (decide (R x)); simpl; try lia; tauto.
Qed.

Lemma filter_split_perm {A : Type} (P Q : A → Prop)
    `{∀ x, Decision (P x)} `{∀ x, Decision (Q x)} (l : list A) :
  Forall (λ x, (P x ∨ Q x) ∧ ¬ (P x ∧ Q x)) l →
  l ≡ₚ filter P l ++ filter Q l.
Proof.
  induction 1 as [|x l [Hor Hnot] _ IH]; [done|].
  rewrite !filter_cons.
  destruct (decide (P x)), (decide (Q x)); simpl; try tauto.
  - by f_equiv.
  - rewrite <- Permutation_middle. by f_equiv.
Qed.

(** X9. The counts of [getSummary] add up: [missing] is the number of
    rows [getMissingItems] returns, [total] is [available] plus [missing],
    and the two lists together are the rows, each row in exactly one of
    them. *)
Theorem getSummary_counts_add_up (rows : list Row) :
  missing (getSummary rows) = Z.of_nat (length (getMissingItems rows))
  ∧ total (getSummary rows)
    = (available (getSummary rows) + missing (getSummary rows))%Z
  ∧ rows ≡ₚ getAvailableItems rows ++ getMissingItems rows
  ∧ ∀ r, r ∈ getAvailableItems rows → r ∉ getMissingItems rows.
Proof.
  assert (Forall (λ r, (target_available r = true ∨ target_available r = false)
                       ∧ ¬ (target_available r = true ∧ target_available r = false))
                 rows) as Hsplit.
  { apply Forall_forall. intros r _. destruct (target_available r); split; eauto;
      by intros [? ?]. }
  split_and!.
  - unfold getSummary, getMissingItems, getAvailableItems. simpl.
    pose proof (filter_split_length _ _ rows Hsplit). lia.
  - unfold getSummary. simpl. lia.
  - by apply filter_split_perm.
  - intros r [Ha _]%list_elem_of_filter [Hm _]%list_elem_of_filter. congruence.
Qed.

(** X10. In a finished build every row that has a target is accounted
    for exactly once: it is either written to the manifest or named among
    the excluded rows, never both; a row without a target is neither.  So
    the files of the manifest and the names in the note add up to the
    [available] count of the summary. *)
Theorem build_accounts_for_every_available_row w m log :
  hasData m = true →
  ∃ b log',
    build w m log = (Fulfilled (BuildDone b), log')
    ∧ (∀ r, (includable r = true ∨ skipped r = true ↔ target_available r = true)
            ∧ ¬ (includable r = true ∧ skipped r = true))
    ∧ Z.of_nat (length (new_files b) + length (skipped_names b))
      = available (getSummary (rows m)).
Proof.
  intros Hd.
  destruct (BuilderFacts.build_run w m log Hd) as (deps & note & calls & Hrun & _).
  eexists _, _. split; [exact Hrun|]. simpl.
  assert (∀ r, (includable r = true ∨ skipped r = true ↔ target_available r = true)
               ∧ ¬ (includable r = true ∧ skipped r = true)) as Hrow.
  { intros r. unfold includable, skipped.
    destruct (target_available r), (bool_decide (source r = "modrinth")),
      (has_file_meta r); simpl;
      (split; [split; [intros [?|?]|intros ?]|intros [? ?]]);
      first [done | by left | by right]. }
  split; [done|].
  unfold fileRecords. rewrite !length_fmap. unfold getAvailableItems. f_equal.
  apply filter_split_length3. by apply Forall_forall.
Qed.

Lemma build_accounts_for_every_available_row_witness :
  ∃ b log',
    build Samples.world Samples.pack [] = (Fulfilled (BuildDone b), log')
    ∧ Z.of_nat (length (new_files b) + length (skipped_names b)) = 3%Z.
Proof.
  destruct (build_accounts_for_every_available_row Samples.world Samples.pack []
              eq_refl) as (b & log' & Hrun & _ & Hcount).
  exists b, log'. split; [exact Hrun|]. rewrite Hcount. reflexivity.
Defined.

(** X11. Every row of an analysis is shown in exactly one of the three
    tables of [render]: the tables together are the rows, and no row is in
    two of them. *)
Theorem render_shows_every_analyzed_row w i rows :
  Analyze.analyze w i (Analyze.ReturnedRows rows) →
  ∃ rs, rows = Some <$> rs
        ∧ rs ≡ₚ mods (render rs) ++ res (render rs) ++ sh (render rs)
        ∧ length rs
          = length (mods (render rs)) + length (res (render rs))
            + length (sh (render rs)).
Proof.
  intros Ha.
  destruct (AnalyzeFacts.analyze_rows_entries _ _ _ Ha)
    as (name & ids & c & orig & rs & index & vm & _ & -> & _ & _ & _ & _ & Hrs).
  exists rs. split; [done|].
  assert (Forall (λ r, Analyze.three_categories (row_category r)) rs) as Hcat.
  { eapply Forall_impl; [exact Hrs|].
    intros r (e & best & src & bm & _ & _ & Hc & Hr & _).
    rewrite Hr. change (Analyze.three_categories (task_cat c (project_id r))).
    rewrite Hc. apply AnalyzeFacts.categoryOfPath_three. }
  clear -Hcat. unfold render. simpl.
  induction Hcat as [|r l Hr _ [IHp IHl]]; [done|].
  rewrite !filter_cons.
  destruct Hr as [Hr|[Hr|Hr]]; rewrite Hr; simpl;
    repeat (rewrite decide_True by done); repeat (rewrite decide_False by done);
    simpl.
  - split; [by f_equiv|lia].
  - split; [|lia].
    rewrite <- Permutation_middle. by f_equiv.
  - split; [|lia].
    rewrite app_assoc, <- Permutation_middle, <- app_assoc. by f_equiv.
Qed.

Lemma render_shows_every_analyzed_row_witness :
  Analyze.analyze Samples.world PackSamples.input
    (Analyze.ReturnedRows PackSamples.rows)
  ∧ ∃ rs, PackSamples.rows = Some <$> rs
          ∧ length rs
            = length (mods (render rs)) + length (res (render rs))
              + length (sh (render rs)).
Proof.
  assert (Analyze.analyze Samples.world PackSamples.input
            (Analyze.ReturnedRows PackSamples.rows)) as Ha.
  { unfold Analyze.analyze. set (p := Analyze.prepare PackSamples.input).
    vm_compute in p. subst p. cbv beta iota.
    exists Samples.full_run. eexists. exists (Fulfilled PackSamples.rows).
    split_and!; [vm_compute; reflexivity|vm_compute; reflexivity|reflexivity]. }
  split; [exact Ha|].
  destruct (render_shows_every_analyzed_row _ _ _ Ha) as (rs & Hrows & _ & Hlen).
  by exists rs.
Defined.

End TablesFacts.

(** ** Strings *)

Module TextFacts.
Import Text.

Lemma chars_str l : chars (str l) = l.
Proof. apply String.list_ascii_of_string_of_list_ascii. Qed.

Lemma str_chars s : str (chars s) = s.
Proof. apply String.string_of_list_ascii_of_string. Qed.

Lemma chars_inj s1 s2 : chars s1 = chars s2 → s1 = s2.
Proof. intros H. by rewrite <- (str_chars s1), <- (str_chars s2), H. Qed.

Lemma chars_app s1 s2 : chars (s1 +:+ s2) = chars s1 ++ chars s2.
Proof. induction s1 as [|c s1 IH]; simpl; [done|]. by rewrite <- IH. Qed.

Ltac case_chars :=
  repeat match goal with
         | |- context [Ascii.eqb ?a ?b] =>
             destruct (Ascii.eqb_spec a b) as [->|?]
         end.

(** *** [escapeHtml] *)

Lemma escape_char_inert c : Forall (λ c', markup_char c' = false) (escape_char c).
Proof.
  unfold escape_char. case_chars; try by repeat constructor.
  constructor; [|constructor]. unfold markup_char.
  by rewrite !(proj2 (Ascii.eqb_neq _ _)).
Qed.

Lemma escape_char_inj c1 c2 r1 r2 :
  escape_char c1 ++ r1 = escape_char c2 ++ r2 → c1 = c2 ∧ r1 = r2.
Proof.
  unfold escape_char. case_chars; simpl; intros H; injection H; intros; subst;
    try done; by split.
Qed.

Lemma escape_char_plain c :
  markup_char c = false → c ≠ "&"%char → escape_char c = [c].
Proof.
  unfold markup_char, escape_char. intros Hm Hamp.
  apply orb_false_iff in Hm as [[[H1 H2]%orb_false_iff H3]%orb_false_iff H4].
  by rewrite (proj2 (Ascii.eqb_neq _ _) Hamp), H1, H2, H3, H4.
Qed.

Lemma escape_inj l1 l2 :
  flat_map escape_char l1 = flat_map escape_char l2 → l1 = l2.
Proof.
  revert l2. induction l1 as [|c1 l1 IH]; intros [|c2 l2]; simpl; try done.
  - unfold escape_char. case_chars; done.
  - unfold escape_char. case_chars; done.
  - intros [-> H]%escape_char_inj. f_equal. by apply IH.
Qed.

(** X12. What [escapeHtml] returns holds no angle bracket and no quote of
    either kind, so it can end neither the element nor the attribute value
    it is written into; a string without the five characters is returned
    as it is; and two strings that differ are escaped differently, so the
    text shown determines the value. *)
Theorem escapeHtml_output_is_inert (s : string) :
  Forall (λ c, markup_char c = false) (chars (escapeHtml s))
  ∧ (Forall (λ c, markup_char c = false ∧ c ≠ "&"%char) (chars s) →
     escapeHtml s = s)
  ∧ ∀ s', escapeHtml s = escapeHtml s' → s = s'.
Proof.
  unfold escapeHtml. split_and!.
  - rewrite chars_str. induction (chars s) as [|c l IH]; simpl; [constructor|].
    apply Forall_app. split; [apply escape_char_inert|done].
  - intros Hplain. rewrite <- (str_chars s) at 2. f_equal.
    induction Hplain as [|c l [Hm Hamp] _ IH]; simpl; [done|].
    by rewrite escape_char_plain, IH.
  - intros s' H. apply chars_inj, escape_inj.
    by rewrite <- (chars_str (flat_map _ (chars s))), H, chars_str.
Qed.


(** *** [slugify] *)

Lemma dash_not_slug : is_slug_char dash = false.
Proof. reflexivity. Qed.

Lemma dash_runs_chars b s :
  Forall (λ c, is_slug_char c = true ∨ c = dash) (dash_runs b s).
Proof.
  revert b. induction s as [|c s IH]; intros b; simpl; [constructor|].
  destruct (is_slug_char c) eqn:Hc; [constructor; eauto|].
  destruct b; [done|]. constructor; eauto.
Qed.

Lemma dash_runs_no_double b s :
  (b = true → head (dash_runs b s) ≠ Some dash)
  ∧ ∀ pre post, dash_runs b s ≠ pre ++ [dash; dash] ++ post.
Proof.
  revert b. induction s as [|c s IH]; intros b; simpl.
  { split; [done|]. by intros [|x pre] post. }
  destruct (is_slug_char c) eqn:Hc.
  - split.
    + intros _ [= ->]. by rewrite dash_not_slug in Hc.
    + intros [|x pre] post; simpl.
      * intros [= -> _]. by rewrite dash_not_slug in Hc.
      * intros [= _ H]. by apply (proj2 (IH false)) in H.
  - destruct b.
    + exact (IH true).
    + split; [done|]. intros [|x pre] post; simpl.
      * intros [= H]. apply (proj1 (IH true) eq_refl). by rewrite H.
      * intros [= _ H]. by apply (proj2 (IH true)) in H.
Qed.

Lemma skip_dashes_suffix s :
  ∃ p, s = p ++ skip_dashes s ∧ Forall (λ c, c = dash) p.
Proof.
  induction s as [|c s (p & Hp & Hd)]; simpl.
  { exists []. by split. }
  destruct (Ascii.eqb_spec c dash) as [->|Hc].
  - exists (dash :: p). split; [simpl; by rewrite <- Hp|by constructor].
  - exists []. by split.
Qed.

Lemma skip_dashes_head s : head (skip_dashes s) ≠ Some dash.
Proof.
  induction s as [|c s IH]; simpl; [done|].
  destruct (Ascii.eqb_spec c dash) as [->|Hc]; [done|]. simpl. congruence.
Qed.

Lemma last_rev {A : Type} (l : list A) : last (rev l) = head l.
Proof. destruct l as [|x l]; [done|]. simpl. apply last_snoc. Qed.

(** What [strip_dashes] returns sits inside its argument, between dashes,
    and neither starts nor ends with a dash. *)
Lemma strip_dashes_spec s :
  ∃ p q, s = p ++ strip_dashes s ++ q
         ∧ Forall (λ c, c = dash) p ∧ Forall (λ c, c = dash) q
         ∧ head (strip_dashes s) ≠ Some dash
         ∧ last (strip_dashes s) ≠ Some dash.
Proof.
  unfold strip_dashes.
  destruct (skip_dashes_suffix s) as (p & Hp & Hpd).
  destruct (skip_dashes_suffix (rev (skip_dashes s))) as (q & Hq & Hqd).
  set (t := skip_dashes s) in *. set (u := skip_dashes (rev t)) in *.
  assert (t = rev u ++ rev q) as Ht.
  { rewrite <- (rev_involutive t), Hq, rev_app_distr. done. }
  exists p, (rev q). split_and!.
  - by rewrite <- Ht.
  - done.
  - by apply Forall_rev.
  - pose proof (skip_dashes_head s) as Hh. fold t in Hh. rewrite Ht in Hh.
    destruct (rev u); [done|]. done.
  - pose proof (skip_dashes_head (rev t)) as Hh. fold u in Hh.
    rewrite last_rev. done.
Qed.

Lemma no_double_infix (l pre' l' post' : list ascii) :
  l = pre' ++ l' ++ post' →
  (∀ pre post, l ≠ pre ++ [dash; dash] ++ post) →
  ∀ pre post, l' ≠ pre ++ [dash; dash] ++ post.
Proof.
  intros -> Hl pre post ->. apply (Hl (pre' ++ pre) (post ++ post')).
  by rewrite <- !app_assoc.
Qed.

Lemma slugify_chars_shape (s : list ascii) :
  length (slugify_chars s) ≤ 80
  ∧ Forall (λ c, is_slug_char c = true ∨ c = dash) (slugify_chars s)
  ∧ head (slugify_chars s) ≠ Some dash
  ∧ (∀ pre post, slugify_chars s ≠ pre ++ [dash; dash] ++ post)
  ∧ (last (slugify_chars s) = Some dash → length (slugify_chars s) = 80).
Proof.
  unfold slugify_chars. set (d := dash_runs false (toLowerCase s)).
  destruct (strip_dashes_spec d) as (p & q & Hd & Hp & Hq & Hhead & Hlast).
  set (t := strip_dashes d) in *.
  assert (Forall (λ c, is_slug_char c = true ∨ c = dash) t) as Hchars.
  { pose proof (dash_runs_chars false (toLowerCase s)) as H. fold d in H.
    rewrite Hd in H. by apply Forall_app in H as [_ [H _]%Forall_app]. }
  split_and!.
  - rewrite length_take. lia.
  - by apply Forall_take.
  - destruct t; [done|]. done.
  - eapply (no_double_infix d p (take 80 t) (drop 80 t ++ q)).
    + rewrite (app_assoc (take 80 t)), take_drop. exact Hd.
    + apply dash_runs_no_double.
  - intros Hl. rewrite length_take.
    destruct (decide (length t ≤ 80)) as [Hle|Hgt]; [|lia].
    rewrite take_ge in Hl by done. done.
Qed.

(** X13. A slug is at most 80 characters of lower-case letters, digits
    and dashes; it does not start with a dash and holds no two dashes in a
    row; it ends with a dash only when it was cut at 80 characters. *)
Theorem slugify_shape (s : string) :
  length (chars (slugify s)) ≤ 80
  ∧ Forall (λ c, is_slug_char c = true ∨ c = dash) (chars (slugify s))
  ∧ head (chars (slugify s)) ≠ Some dash
  ∧ (∀ pre post, chars (slugify s) ≠ pre ++ [dash; dash] ++ post)
  ∧ (last (chars (slugify s)) = Some dash → length (chars (slugify s)) = 80).
Proof. unfold slugify. rewrite chars_str. apply slugify_chars_shape. Qed.


Lemma dash_runs_keeps b s c :
  c ∈ s → is_slug_char c = true → c ∈ dash_runs b s.
Proof.
  revert b. induction s as [|x s IH]; intros b; [by intros ?%elem_of_nil|].
  intros [->|Hin]%elem_of_cons Hc; simpl.
  - rewrite Hc. by left.
  - destruct (is_slug_char x); [right; by apply IH|].
    destruct b; [by apply IH|right; by apply IH].
Qed.

Lemma slugify_chars_nonempty s c :
  c ∈ s → is_slug_char (lower_char c) = true →
  ∃ c' rest, slugify_chars s = c' :: rest ∧ is_slug_char c' = true.
Proof.
  intros Hin Hc.
  destruct (slugify_chars_shape s) as (_ & Hchars & Hhead & _).
  unfold slugify_chars in *. set (d := dash_runs false (toLowerCase s)) in *.
  assert (lower_char c ∈ d) as Hd.
  { apply dash_runs_keeps; [|done]. unfold toLowerCase.
    apply list_elem_of_fmap. by exists c. }
  destruct (strip_dashes_spec d) as (p & q & Heq & Hp & Hq & _).
  assert (lower_char c ∈ strip_dashes d) as Ht.
  { rewrite Heq in Hd. rewrite Forall_forall in Hp, Hq.
    apply elem_of_app in Hd as [Hd|[Hd|Hd]%elem_of_app]; [|done|].
    - apply Hp in Hd. rewrite Hd, dash_not_slug in Hc. done.
    - apply Hq in Hd. rewrite Hd, dash_not_slug in Hc. done. }
  destruct (strip_dashes d) as [|c' t]; [by apply elem_of_nil in Ht|].
  simpl in *. exists c', (take 79 t). split; [done|].
  apply Forall_cons in Hchars as [[?| ->] _]; [done|]. done.
Qed.

(** X14. The name under which [build] offers the rebuilt pack is a slug
    followed by [.mrpack], whatever the name of the pack and the target
    are: the slug is never empty, starts with a lower-case letter or a
    digit, goes on with at most 79 letters, digits and dashes, and so
    holds no dot, slash or space. *)
Theorem fileName_is_a_slug (name targetMc : string) :
  ∃ c rest,
    fileName name targetMc = str (c :: rest) +:+ ".mrpack"
    ∧ is_slug_char c = true
    ∧ Forall (λ c', is_slug_char c' = true ∨ c' = dash) rest
    ∧ length rest < 80.
Proof.
  unfold fileName, slugify.
  destruct (slugify_chars_nonempty (chars (newIndex_name name targetMc)) "f"%char)
    as (c & rest & Heq & Hc).
  { unfold newIndex_name. rewrite !chars_app.
    apply elem_of_app. right. apply elem_of_app. left.
    by apply list_elem_of_In; vm_compute; auto 10. }
  { reflexivity. }
  destruct (slugify_chars_shape (chars (newIndex_name name targetMc)))
    as (Hlen & Hchars & _).
  rewrite Heq in *. exists c, rest. split_and!; [done|done| |simpl in Hlen; lia].
  by apply Forall_cons in Hchars as [_ ?].
Qed.

(** *** The id of a missing item *)

Lemma length_chars_app s1 s2 : length (chars (s1 +:+ s2)) = length (chars s1) + length (chars s2).
Proof. by rewrite chars_app, length_app. Qed.

(** X15. The id under which a missing item is stored holds letters,
    digits and dashes only, one character for each character of the
    category, the name and the target and one for each of the two
    separators; in particular it holds no quote.  Replacing, in the name,
    every character outside this alphabet by a dash leaves the id as it
    is: names that differ in such characters only share one id. *)
Theorem item_id_shape (category name targetMcVersion : string) :
  Forall (λ c, is_id_char c = true) (chars (item_id category name targetMcVersion))
  ∧ length (chars (item_id category name targetMcVersion))
    = length (chars category) + length (chars name)
      + length (chars targetMcVersion) + 2
  ∧ item_id category
      (str ((λ c, if is_id_char c then c else dash) <$> chars name))
      targetMcVersion
    = item_id category name targetMcVersion.
Proof.
  unfold item_id. rewrite !chars_str. split_and!.
  - apply Forall_fmap, Forall_forall. intros c _. simpl.
    by destruct (is_id_char c) eqn:Hc.
  - rewrite length_fmap, !length_chars_app. simpl. lia.
  - f_equal. rewrite !chars_app, !fmap_app, chars_str. do 3 f_equal.
    rewrite <- list_fmap_compose. apply list_fmap_ext. intros _ c _. simpl.
    by destruct (is_id_char c) eqn:Hc; [rewrite Hc|].
Qed.


(** *** [parseModpackNames] *)

Lemma no_separator_tail c l : no_separator (c :: l) → no_separator l.
Proof. intros H pre post ->. by apply (H (c :: pre) post). Qed.

(** A piece that holds no separator is read up to the next separator. *)
Lemma split_comma_space_piece cur l rest :
  no_separator l →
  split_comma_space cur (l ++ chars ", " ++ rest)
  = (cur ++ l) :: split_comma_space [] rest.
Proof.
  revert cur. induction l as [|c l IH]; intros cur Hl.
  { simpl. by rewrite app_nil_r. }
  specialize (IH (cur ++ [c]) (no_separator_tail _ _ Hl)).
  rewrite <- app_assoc in IH. simpl in IH.
  change ((c :: l) ++ chars ", " ++ rest) with (c :: (l ++ chars ", " ++ rest)).
  destruct l as [|c2 l].
  - simpl in *. destruct (Ascii.eqb_spec c ","); [|done]. simpl. done.
  - change (split_comma_space cur (c :: (c2 :: l) ++ chars ", " ++ rest))
      with (if Ascii.eqb c "," && Ascii.eqb c2 " "
            then cur :: split_comma_space [] (l ++ chars ", " ++ rest)
            else split_comma_space (cur ++ [c]) ((c2 :: l) ++ chars ", " ++ rest)).
    destruct (Ascii.eqb_spec c ",") as [->|?]; simpl; [|done].
    destruct (Ascii.eqb_spec c2 " ") as [->|?]; simpl; [|done].
    by destruct (Hl [] l).
Qed.

Lemma split_comma_space_last cur l :
  no_separator l → split_comma_space cur l = [cur ++ l].
Proof.
  revert cur. induction l as [|c l IH]; intros cur Hl.
  { simpl. by rewrite app_nil_r. }
  specialize (IH (cur ++ [c]) (no_separator_tail _ _ Hl)).
  rewrite <- app_assoc in IH. simpl in IH.
  destruct l as [|c2 l]; [done|].
  change (split_comma_space cur (c :: c2 :: l))
    with (if Ascii.eqb c "," && Ascii.eqb c2 " "
          then cur :: split_comma_space [] l
          else split_comma_space (cur ++ [c]) (c2 :: l)).
  destruct (Ascii.eqb_spec c ",") as [->|?]; simpl; [|done].
  destruct (Ascii.eqb_spec c2 " ") as [->|?]; simpl; [|done].
  by destruct (Hl [] l).
Qed.

Lemma join_comma_space_cons n rest :
  rest ≠ [] →
  chars (join_comma_space (n :: rest))
  = chars n ++ chars ", " ++ chars (join_comma_space rest).
Proof.
  destruct rest as [|n' rest]; [done|]. intros _.
  change (join_comma_space (n :: n' :: rest))
    with (n +:+ ", " +:+ join_comma_space (n' :: rest)).
  by rewrite !chars_app.
Qed.

Lemma split_join names :
  Forall plain_name names → names ≠ [] →
  split_comma_space [] (chars (join_comma_space names)) = chars <$> names.
Proof.
  induction 1 as [|n rest (Hne & Htrim & Hsep) _ IH]; [done|]. intros _.
  destruct rest as [|n' rest].
  - simpl. by rewrite split_comma_space_last.
  - rewrite join_comma_space_cons by done.
    rewrite split_comma_space_piece by done. simpl. f_equal. by apply IH.
Qed.

Lemma parse_join (names : list string) :
  Forall plain_name names →
  parseModpackNames (Some (join_comma_space names)) = names.
Proof.
  intros Hplain. unfold parseModpackNames.
  destruct names as [|n rest]; [done|].
  assert (join_comma_space (n :: rest) ≠ "") as Hne.
  { apply Forall_cons in Hplain as [(Hn & _) _].
    destruct rest; simpl; [done|]. by destruct n. }
  unfold or_null, truthy.
  destruct (String.eqb_spec (join_comma_space (n :: rest)) "") as [|_]; [done|].
  simpl negb. cbv iota. rewrite split_join by done.
  rewrite <- list_fmap_compose.
  rewrite <- (list_fmap_id (n :: rest)) at 2. apply Forall_fmap_ext_1.
  eapply Forall_impl; [exact Hplain|]. intros m (_ & Htrim & _). simpl.
  by rewrite Htrim, str_chars.
Qed.

(** X16. [parseModpackNames] undoes [join(', ')] on plain names: for a
    list of names that are not empty, carry no white space at either end
    and hold no comma followed by a space, splitting the joined string
    gives the list back.  So the pack names kept in a missing item are
    read back as they were written. *)
Theorem parseModpackNames_undoes_join (names : list string) :
  Forall plain_name names →
  parseModpackNames (Some (join_comma_space names)) = names.
Proof. apply parse_join. Qed.

Lemma contains_spec pat s :
  Fallback.contains pat s = true ↔ ∃ pre post, s = pre ++ pat ++ post.
Proof.
  induction s as [|c s IH]; simpl.
  - rewrite orb_false_r, FallbackFacts.starts_with_app. split.
    + intros [post ->]. by exists [], post.
    + intros ([|? pre] & post & H); [by exists post|done].
  - rewrite orb_true_iff, FallbackFacts.starts_with_app, IH. split.
    + intros [[post ->]|(pre & post & ->)]; [by exists [], post|].
      by exists (c :: pre), post.
    + intros ([|c' pre] & post & H); [left; by exists post|right].
      injection H as -> ->. by exists pre, post.
Qed.

(** A test of [plain_name] that computes. *)
Lemma plain_name_test n :
  negb (String.eqb n "") && bool_decide (trim (chars n) = chars n)
  && negb (Fallback.contains (chars ", ") (chars n)) = true →
  plain_name n.
Proof.
  intros [[Hne Htrim]%andb_true_iff Hsep]%andb_true_iff. split_and!.
  - intros ->. done.
  - by apply bool_decide_eq_true in Htrim.
  - intros pre post H. apply negb_true_iff in Hsep.
    assert (Fallback.contains (chars ", ") (chars n) = true) as Hc; [|congruence].
    apply contains_spec. eauto.
Qed.

Lemma parseModpackNames_undoes_join_witness :
  Forall plain_name ["Vanilla Plus"; "SMP"]
  ∧ parseModpackNames (Some "Vanilla Plus, SMP") = ["Vanilla Plus"; "SMP"].
Proof.
  assert (Forall plain_name ["Vanilla Plus"; "SMP"]) as Hplain.
  { repeat constructor; apply plain_name_test; vm_compute; reflexivity. }
  split; [exact Hplain|].
  exact (parseModpackNames_undoes_join ["Vanilla Plus"; "SMP"] Hplain).
Defined.


(** *** Version strings *)

Lemma skip_digits_spec s :
  ∃ d, s = d ++ skip_digits s ∧ Forall (λ c, is_digit c = true) d.
Proof.
  induction s as [|c s (d & Hd & Hall)]; simpl.
  { exists []. by split. }
  destruct (is_digit c) eqn:Hc.
  - exists (c :: d). split; [simpl; by rewrite <- Hd|by constructor].
  - exists []. by split.
Qed.

Lemma digits1_spec s r :
  digits1 s = Some r → ∃ d, s = d ++ r ∧ digit_run d.
Proof.
  destruct s as [|c s]; simpl; [done|].
  destruct (is_digit c) eqn:Hc; [|done]. intros [= <-].
  destruct (skip_digits_spec s) as (d & Hd & Hall).
  exists (c :: d). split; [simpl; by rewrite <- Hd|].
  split; [done|by constructor].
Qed.

Lemma dot_not_digit : is_digit "."%char = false.
Proof. reflexivity. Qed.

Lemma split_dot_piece cur d rest :
  Forall (λ c, is_digit c = true) d →
  split_dot cur (d ++ "."%char :: rest) = (cur ++ d) :: split_dot [] rest.
Proof.
  intros Hd. revert cur. induction Hd as [|c d Hc _ IH]; intros cur; simpl.
  { by rewrite app_nil_r. }
  destruct (Ascii.eqb_spec c ".") as [->|_]; [by rewrite dot_not_digit in Hc|].
  rewrite IH, <- app_assoc. done.
Qed.

Lemma split_dot_last cur d :
  Forall (λ c, is_digit c = true) d → split_dot cur d = [cur ++ d].
Proof.
  intros Hd. revert cur. induction Hd as [|c d Hc _ IH]; intros cur; simpl.
  { by rewrite app_nil_r. }
  destruct (Ascii.eqb_spec c ".") as [->|_]; [by rewrite dot_not_digit in Hc|].
  rewrite IH, <- app_assoc. done.
Qed.

Lemma digit_not_space c : is_digit c = true → is_space c = false.
Proof.
  unfold is_digit, is_space. intros [H1 H2]%andb_true_iff.
  apply Nat.leb_le in H1, H2.
  rewrite !orb_false_iff, andb_false_iff, !Nat.leb_gt, !Nat.eqb_neq. lia.
Qed.

Lemma digit_not_sign c :
  is_digit c = true → Ascii.eqb c "-" = false ∧ Ascii.eqb c "+" = false.
Proof.
  intros Hc. split; apply Ascii.eqb_neq; intros ->; done.
Qed.

Lemma read_digits_number acc d :
  Forall (λ c, is_digit c = true) d → d ≠ [] →
  read_digits acc d
  = Some (foldl (λ acc c, 10 * acc + digit_value c)%Z (default 0%Z acc) d).
Proof.
  intros Hd. revert acc. induction Hd as [|c d Hc Hd IH]; intros acc Hne; [done|].
  simpl. rewrite Hc. destruct d as [|c' d]; [done|].
  by rewrite IH.
Qed.

(** Below [2^53] in size a whole number is its own double. *)
Lemma to_double_exact z : (Z.abs z < 2 ^ 53)%Z → to_double z = Whole z.
Proof.
  intros Hz. unfold to_double.
  by rewrite (proj2 (Z.ltb_lt (Z.abs z) (2 ^ 53)) Hz).
Qed.

Lemma number_nonneg d : (0 ≤ number d)%Z.
Proof.
  unfold number.
  assert (∀ acc, (0 ≤ acc)%Z →
            (0 ≤ foldl (λ acc c, 10 * acc + digit_value c) acc d)%Z) as H.
  { induction d as [|c d IH]; intros acc Hacc; simpl; [done|].
    apply IH. unfold digit_value. lia. }
  by apply H.
Qed.

Lemma parseInt_digits d :
  digit_run d → (number d < 2 ^ 53)%Z → parseInt d = Whole (number d).
Proof.
  intros [Hne Hd] Hsafe. unfold parseInt.
  destruct d as [|c d]; [done|]. apply Forall_cons in Hd as Hcd.
  destruct Hcd as [Hc _]. simpl skip_spaces. rewrite (digit_not_space _ Hc).
  destruct (digit_not_sign _ Hc) as [-> ->].
  rewrite read_digits_number by done. fold (number (c :: d)).
  unfold signed_number. rewrite Z.mul_1_l. apply to_double_exact.
  pose proof (number_nonneg (c :: d)). lia.
Qed.

(** What the pattern of the version selector accepts: two or three runs
    of digits with dots in between. *)
Lemma version_re_spec v :
  version_re v = true →
  ∃ d1 d2 d3,
    digit_run d1 ∧ digit_run d2
    ∧ ((chars v = d1 ++ "."%char :: d2 ∧ d3 = [])
       ∨ (chars v = d1 ++ "."%char :: d2 ++ "."%char :: d3 ∧ digit_run d3)).
Proof.
  unfold version_re.
  destruct (digits1 (chars v)) as [[|c1 r1]|] eqn:H1; try done.
  intros [Hc1 H]%andb_true_iff. apply Ascii.eqb_eq in Hc1 as ->.
  destruct (digits1_spec _ _ H1) as (d1 & Hv & Hd1).
  destruct (digits1 r1) as [[|c2 r2]|] eqn:H2; try done.
  - destruct (digits1_spec _ _ H2) as (d2 & Hr1 & Hd2).
    exists d1, d2, []. split_and!; [done|done|]. left.
    rewrite Hv, Hr1, app_nil_r. done.
  - apply andb_true_iff in H as [Hc2 H]. apply Ascii.eqb_eq in Hc2 as ->.
    destruct (digits1_spec _ _ H2) as (d2 & Hr1 & Hd2).
    destruct (digits1 r2) as [[|c3 r3]|] eqn:H3; try done.
    destruct (digits1_spec _ _ H3) as (d3 & Hr2 & Hd3).
    exists d1, d2, d3. split_and!; [done|done|]. right.
    rewrite Hv, Hr1, Hr2, app_nil_r. done.
Qed.

(** The numbers that an accepted string spells out. *)
Lemma version_key_clean v :
  version_re v = true →
  ∃ a b c, version_key v = [a; b; c] ∧ (0 ≤ a)%Z ∧ (0 ≤ b)%Z ∧ (0 ≤ c)%Z.
Proof.
  intros (d1 & d2 & d3 & Hd1 & Hd2 & [[Hv ->]|[Hv Hd3]])%version_re_spec;
    unfold version_key; rewrite Hv.
  - exists (number d1), (number d2), 0%Z.
    rewrite split_dot_piece, split_dot_last by apply Hd1 || apply Hd2.
    split_and!; [done|apply number_nonneg|apply number_nonneg|done].
  - exists (number d1), (number d2), (number d3).
    rewrite !split_dot_piece, split_dot_last
      by first [apply Hd1 | apply Hd2 | apply Hd3].
    split_and!; [done|apply number_nonneg..].
Qed.

(** On an accepted string whose numbers are below [2^53], [parseVersion]
    reads exactly the numbers that the string spells out. *)
Lemma parseVersion_clean v :
  version_re v = true → safe_integers v →
  ∃ a b c, parseVersion v = [Whole a; Whole b; Whole c]
           ∧ version_key v = [a; b; c]
           ∧ (0 ≤ a < 2 ^ 53)%Z ∧ (0 ≤ b < 2 ^ 53)%Z ∧ (0 ≤ c < 2 ^ 53)%Z.
Proof.
  intros Hre. unfold safe_integers.
  destruct (version_re_spec v Hre)
    as (d1 & d2 & d3 & Hd1 & Hd2 & [[Hv ->]|[Hv Hd3]]);
    unfold parseVersion, version_key; rewrite Hv.
  - rewrite split_dot_piece, split_dot_last by apply Hd1 || apply Hd2.
    cbn [fmap list_fmap length app replicate Nat.sub].
    intros Hall. apply Forall_cons in Hall as [H1 Hall].
    apply Forall_cons in Hall as [H2 _].
    exists (number d1), (number d2), 0%Z.
    rewrite !parseInt_digits by done.
    pose proof (number_nonneg d1). pose proof (number_nonneg d2).
    split_and!; [done|done|lia..].
  - rewrite !split_dot_piece, split_dot_last
      by first [apply Hd1 | apply Hd2 | apply Hd3].
    cbn [fmap list_fmap length app replicate Nat.sub].
    intros Hall. apply Forall_cons in Hall as [H1 Hall].
    apply Forall_cons in Hall as [H2 Hall].
    apply Forall_cons in Hall as [H3 _].
    exists (number d1), (number d2), (number d3).
    rewrite !parseInt_digits by done.
    pose proof (number_nonneg d1). pose proof (number_nonneg d2).
    pose proof (number_nonneg d3).
    split_and!; [done|done|lia..].
Qed.

Lemma num_sub_exact a b :
  (0 ≤ a < 2 ^ 53)%Z → (0 ≤ b < 2 ^ 53)%Z →
  num_sub (Whole b) (Whole a) = Whole (b - a).
Proof. intros Ha Hb. simpl. apply to_double_exact. lia. Qed.

Lemma compareVersions_clean (a b : string) :
  version_re a = true → version_re b = true →
  safe_integers a → safe_integers b →
  ∃ d, compareVersions a b = Whole d
       ∧ ((d < 0)%Z ↔ lex_lt (version_key b) (version_key a))
       ∧ (d = 0%Z ↔ version_key a = version_key b)
       ∧ ((0 < d)%Z ↔ lex_lt (version_key a) (version_key b)).
Proof.
  intros Hra Hrb Hsa Hsb.
  destruct (parseVersion_clean a Hra Hsa)
    as (a1 & a2 & a3 & Hpa & Hka & Ha1 & Ha2 & Ha3).
  destruct (parseVersion_clean b Hrb Hsb)
    as (b1 & b2 & b3 & Hpb & Hkb & Hb1 & Hb2 & Hb3).
  unfold compareVersions. rewrite Hpa, Hpb, Hka, Hkb.
  cbn [compare_parts num_differ lex_lt].
  destruct (Z.eqb_spec b1 a1) as [->|H1]; cbn [negb].
  - destruct (Z.eqb_spec b2 a2) as [->|H2]; cbn [negb].
    + destruct (Z.eqb_spec b3 a3) as [->|H3]; cbn [negb].
      * exists 0%Z. split_and!; [done|lia|done|lia].
      * exists (b3 - a3)%Z. rewrite num_sub_exact by done.
        split_and!; [done|lia| |lia].
        split; [lia|]. intros [= ->]. done.
    + exists (b2 - a2)%Z. rewrite num_sub_exact by done.
      split_and!; [done|lia| |lia].
      split; [lia|]. intros [= -> _]. done.
  - exists (b1 - a1)%Z. rewrite num_sub_exact by done.
    split_and!; [done|lia| |lia].
    split; [lia|]. intros [= -> _ _]. done.
Qed.

(** X17. On two strings that the pattern of the version selector
    accepts and whose numbers are below [2^53], [compareVersions] returns
    a whole number, never [NaN] or an infinity, and its sign compares the
    versions number by number, not character by character: it is negative
    when [a] is the newer one, zero when the three numbers agree, positive
    when [b] is the newer one. *)
Theorem compareVersions_orders_by_numbers (a b : string) :
  version_re a = true → version_re b = true →
  safe_integers a → safe_integers b →
  ∃ d, compareVersions a b = Whole d
       ∧ ((d < 0)%Z ↔ lex_lt (version_key b) (version_key a))
       ∧ (d = 0%Z ↔ version_key a = version_key b)
       ∧ ((0 < d)%Z ↔ lex_lt (version_key a) (version_key b)).
Proof. apply compareVersions_clean. Qed.

Lemma safe_integers_test v :
  forallb (λ n, n <? 2 ^ 53)%Z (version_key v) = true → safe_integers v.
Proof.
  unfold safe_integers. rewrite forallb_forall, Forall_forall.
  intros H n Hn. apply Z.ltb_lt, H. by apply list_elem_of_In.
Qed.

Lemma compareVersions_orders_by_numbers_witness :
  version_re "1.21.4" = true ∧ version_re "1.9" = true
  ∧ ∃ d, compareVersions "1.21.4" "1.9" = Whole d ∧ (d < 0)%Z.
Proof.
  split; [reflexivity|]. split; [reflexivity|].
  destruct (compareVersions_orders_by_numbers "1.21.4" "1.9" eq_refl eq_refl)
    as (d & Hd & Hlt & _).
  - apply safe_integers_test. vm_compute. reflexivity.
  - apply safe_integers_test. vm_compute. reflexivity.
  - exists d. split; [exact Hd|]. apply Hlt. vm_compute. right.
    split; [reflexivity|]. left. reflexivity.
Defined.

(** Beyond [2^53] the numbers are rounded before they are compared: two
    versions that differ in such a number can compare as equal. *)
Lemma compareVersions_rounds_large_numbers :
  version_re "9007199254740993.0" = true
  ∧ version_re "9007199254740992.0" = true
  ∧ version_key "9007199254740993.0" ≠ version_key "9007199254740992.0"
  ∧ compareVersions "9007199254740993.0" "9007199254740992.0" = Whole 0.
Proof. split_and!; [reflexivity|reflexivity|by vm_compute|vm_compute; reflexivity]. Qed.

Lemma sort_cmp_not_older a b :
  version_re a = true ∧ safe_integers a →
  version_re b = true ∧ safe_integers b →
  (sort_cmp a b ≤ 0)%Z ↔ not_older a b.
Proof.
  intros [Hra Hsa] [Hrb Hsb]. unfold sort_cmp, not_older.
  destruct (compareVersions_clean a b Hra Hrb Hsa Hsb)
    as (d & -> & Hlt & Heq & Hgt).
  rewrite <- Hgt. lia.
Qed.

Lemma not_older_total a b :
  version_re a = true ∧ safe_integers a →
  version_re b = true ∧ safe_integers b →
  not_older a b ∨ not_older b a.
Proof.
  intros [(a1 & a2 & a3 & Hka & _)%version_key_clean _]
         [(b1 & b2 & b3 & Hkb & _)%version_key_clean _].
  unfold not_older. rewrite Hka, Hkb. simpl. lia.
Qed.

Lemma not_older_trans a b c :
  version_re a = true ∧ safe_integers a →
  version_re b = true ∧ safe_integers b →
  version_re c = true ∧ safe_integers c →
  not_older a b → not_older b c → not_older a c.
Proof.
  intros [(a1 & a2 & a3 & Hka & _)%version_key_clean _]
         [(b1 & b2 & b3 & Hkb & _)%version_key_clean _]
         [(c1 & c2 & c3 & Hkc & _)%version_key_clean _].
  unfold not_older. rewrite Hka, Hkb, Hkc. simpl. lia.
Qed.

Section sorted_facts.
Context {A : Type} (cmp : A → A → Z) (P : A → Prop) (R : A → A → Prop).
Hypothesis link : ∀ a b, P a → P b → (cmp a b ≤ 0)%Z ↔ R a b.
Hypothesis total : ∀ a b, P a → P b → R a b ∨ R b a.
Hypothesis trans : ∀ a b c, P a → P b → P c → R a b → R b c → R a c.

Lemma sort_insert_sorted x s :
  P x → Forall P s → StronglySorted R s →
  StronglySorted R (VersionPolicy.sort_insert cmp x s).
Proof using link total trans.
  intros Hx HP Hs. induction Hs as [|y s Hs IH Hall]; simpl.
  { repeat constructor. }
  apply Forall_cons in HP as [Hy HP]. case_decide as Hxy.
  - apply link in Hxy; [|done..].
    constructor; [by constructor|]. constructor; [done|].
    rewrite Forall_forall in Hall, HP. apply Forall_forall. intros z Hz.
    eapply (trans x y z); eauto.
  - constructor; [by apply IH|].
    rewrite VersionPolicyFacts.sort_insert_perm. constructor; [|done].
    destruct (total x y Hx Hy) as [Hr|Hr]; [|done].
    destruct Hxy. by apply link.
Qed.

Lemma array_sort_sorted_on l :
  Forall P l → StronglySorted R (VersionPolicy.array_sort cmp l).
Proof using link total trans.
  induction 1 as [|x l Hx Hl IH]; simpl; [constructor|].
  apply sort_insert_sorted; [done| |done].
  by rewrite VersionPolicyFacts.array_sort_perm.
Qed.

End sorted_facts.

(** X18. The options of the version selector are the version strings of
    the tags that the pattern accepts, each as often as it was listed, and
    each of them consists of digits and dots only; when the numbers of
    the accepted tags are below [2^53], they stand in an order in which no
    option is older than one that follows it. *)
Theorem clean_versions_newest_first (tags : list GameVersionTag) :
  (∀ t v, t ∈ tags → tag_version t = Some v → version_re v = true →
     safe_integers v) →
  StronglySorted not_older (clean_versions tags)
  ∧ clean_versions tags
    ≡ₚ filter (λ v, version_re v = true)
         (omap (λ t, or_null (tag_version t)) tags)
  ∧ Forall (λ v, version_re v = true
                 ∧ Forall (λ c, is_digit c = true ∨ c = "."%char) (chars v))
           (clean_versions tags).
Proof.
  intros Hsafe. unfold clean_versions.
  set (vs := filter (λ v, version_re v = true) _).
  assert (Forall (λ v, version_re v = true ∧ safe_integers v) vs) as Hvs.
  { apply Forall_forall. intros v Hv.
    apply list_elem_of_filter in Hv as [Hre Hv]. split; [done|].
    apply list_elem_of_omap in Hv as (t & Ht & Htv).
    unfold or_null in Htv. destruct (truthy (tag_version t)); [|done].
    by apply (Hsafe t v). }
  split_and!.
  - eapply (array_sort_sorted_on sort_cmp
              (λ v, version_re v = true ∧ safe_integers v)); [..|done].
    + intros a b. apply sort_cmp_not_older.
    + apply not_older_total.
    + apply not_older_trans.
  - apply VersionPolicyFacts.array_sort_perm.
  - rewrite VersionPolicyFacts.array_sort_perm.
    eapply Forall_impl; [exact Hvs|]. intros v [Hv _]. split; [done|].
    destruct (version_re_spec v Hv)
      as (d1 & d2 & d3 & [_ Hd1] & [_ Hd2] & [[-> ->]|[-> [_ Hd3]]]).
    + apply Forall_app. split; [eapply Forall_impl; eauto|].
      constructor; [by right|]. eapply Forall_impl; eauto.
    + apply Forall_app. split; [eapply Forall_impl; eauto|].
      constructor; [by right|]. apply Forall_app.
      split; [eapply Forall_impl; eauto|].
      constructor; [by right|]. eapply Forall_impl; eauto.
Qed.

Lemma clean_versions_newest_first_witness :
  clean_versions TrackerSamples.game_versions = ["1.21.4"; "1.21"; "1.9"]
  ∧ StronglySorted not_older (clean_versions TrackerSamples.game_versions).
Proof.
  split; [vm_compute; reflexivity|].
  apply (clean_versions_newest_first TrackerSamples.game_versions).
  intros t v Ht Hv Hre. apply safe_integers_test.
  unfold TrackerSamples.game_versions in Ht.
  repeat (apply elem_of_cons in Ht as [->|Ht];
            [first [discriminate Hv
                   |injection Hv as <-; vm_compute; reflexivity]|]).
  by apply elem_of_nil in Ht.
Defined.


(** *** What [parseModpackNames] returns *)

Lemma no_separator_infix (l pre' l' post' : list ascii) :
  l = pre' ++ l' ++ post' → no_separator l → no_separator l'.
Proof.
  intros -> Hl pre post ->. apply (Hl (pre' ++ pre) (post ++ post')).
  by rewrite <- !app_assoc.
Qed.

Lemma no_separator_snoc cur c :
  no_separator cur →
  (c = " "%char → ∀ pre, cur ≠ pre ++ [","%char]) →
  no_separator (cur ++ [c]).
Proof.
  intros Hcur Hc pre post H.
  destruct post as [|x post _] using rev_ind.
  - rewrite app_nil_r in H.
    change (chars ", ") with ([","%char] ++ [" "%char]) in H.
    rewrite !app_assoc in H. apply app_inj_tail in H as [H ->].
    by apply (Hc eq_refl pre).
  - rewrite !app_assoc in H. apply app_inj_tail in H as [H _].
    apply (Hcur pre post). by rewrite H, <- app_assoc.
Qed.

(** The pieces of [split(', ')] hold no separator. *)
Lemma split_comma_space_pieces cur s :
  no_separator cur →
  (head s = Some " "%char → ∀ pre, cur ≠ pre ++ [","%char]) →
  Forall no_separator (split_comma_space cur s).
Proof.
  assert (no_separator []) as Hnil by (by intros [|? ?] ?).
  remember (length s) as n eqn:Hn. revert s cur Hn.
  induction n as [n IH] using lt_wf_ind. intros s cur Hn Hcur Hedge.
  destruct s as [|c [|c2 rest]].
  - by repeat constructor.
  - simpl. constructor; [|constructor].
    apply no_separator_snoc; [done|]. intros ->. by apply Hedge.
  - change (split_comma_space cur (c :: c2 :: rest))
      with (if Ascii.eqb c "," && Ascii.eqb c2 " "
            then cur :: split_comma_space [] rest
            else split_comma_space (cur ++ [c]) (c2 :: rest)).
    destruct (Ascii.eqb c "," && Ascii.eqb c2 " ") eqn:Hsep.
    + constructor; [done|].
      apply (IH (length rest)); [simpl in Hn; lia|done|done|].
      intros _ [|? ?]; done.
    + apply (IH (length (c2 :: rest))); [simpl in *; lia|done| |].
      * apply no_separator_snoc; [done|]. intros ->. by apply Hedge.
      * simpl. intros [= ->] pre Hpre. apply app_inj_tail in Hpre as [_ ->].
        by rewrite andb_true_r in Hsep.
Qed.

Lemma skip_spaces_suffix s : ∃ p, s = p ++ skip_spaces s.
Proof.
  induction s as [|c s [p Hp]]; simpl; [by exists []|].
  destruct (is_space c); [|by exists []].
  exists (c :: p). simpl. by rewrite <- Hp.
Qed.

Lemma trim_infix s : ∃ p q, s = p ++ trim s ++ q.
Proof.
  unfold trim, trimEnd.
  destruct (skip_spaces_suffix s) as [p Hp].
  destruct (skip_spaces_suffix (rev (skip_spaces s))) as [q Hq].
  exists p, (rev q). rewrite Hp at 1. f_equal.
  rewrite <- (rev_involutive (skip_spaces s)) at 1. rewrite Hq at 1.
  by rewrite rev_app_distr.
Qed.

Lemma parse_no_separator o :
  Forall (λ m, no_separator (chars m)) (parseModpackNames o).
Proof.
  unfold parseModpackNames. destruct (or_null o) as [s|]; [|constructor].
  apply Forall_fmap.
  eapply Forall_impl.
  - apply (split_comma_space_pieces [] (chars s)); [by intros [|? ?] ?|].
    intros _ [|? ?]; done.
  - intros piece Hpiece. simpl. rewrite chars_str.
    destruct (trim_infix piece) as (p & q & Heq).
    by eapply no_separator_infix.
Qed.

Lemma split_comma_space_nonempty cur s : split_comma_space cur s ≠ [].
Proof.
  remember (length s) as n eqn:Hn. revert s cur Hn.
  induction n as [n IH] using lt_wf_ind. intros s cur Hn.
  destruct s as [|c [|c2 rest]]; [done|done|].
  change (split_comma_space cur (c :: c2 :: rest))
    with (if Ascii.eqb c "," && Ascii.eqb c2 " "
          then cur :: split_comma_space [] rest
          else split_comma_space (cur ++ [c]) (c2 :: rest)).
  destruct (Ascii.eqb c "," && Ascii.eqb c2 " "); [done|].
  apply (IH (length (c2 :: rest))); [simpl in *; lia|done].
Qed.

Lemma parse_nonempty s : s ≠ "" → parseModpackNames (Some s) ≠ [].
Proof.
  intros Hs. unfold parseModpackNames, or_null, truthy.
  destruct (String.eqb_spec s "") as [|_]; [done|]. simpl.
  intros H%fmap_nil_inv. by apply split_comma_space_nonempty in H.
Qed.

(** A name that holds a separator is none of the names read back. *)
Lemma parse_misses_separator o pack :
  (∃ pre post, chars pack = pre ++ chars ", " ++ post) →
  pack ∉ parseModpackNames o.
Proof.
  intros (pre & post & Hpack) Hin.
  pose proof (parse_no_separator o) as Hall. rewrite Forall_forall in Hall.
  by apply (Hall pack Hin pre post).
Qed.

Lemma join_comma_space_snoc names pack :
  ∃ pre, chars (join_comma_space (names ++ [pack])) = pre ++ chars pack.
Proof.
  induction names as [|n names [pre IH]]; [by exists []|].
  destruct names as [|n' names].
  - exists (chars n ++ chars ", "). simpl. by rewrite !chars_app, <- app_assoc.
  - exists (chars n ++ chars ", " ++ pre).
    change (join_comma_space ((n :: n' :: names) ++ [pack]))
      with (n +:+ ", " +:+ join_comma_space ((n' :: names) ++ [pack])).
    by rewrite !chars_app, IH, <- !app_assoc.
Qed.

End TextFacts.

(** ** The tracker of missing items *)

Module MissingItemsFacts.
Import MissingItems.

(** X19. [checkModrinthVersionAvailability] never rejects and makes the
    one listing request; what it returns is truthy exactly when
    [getBestTargetVersion] finds a version for the same project, target
    and loader.  When the listing fails it returns [null], not
    [false]. *)
Theorem checkModrinthVersionAvailability_agrees_with_best w pid mc l log :
  ∃ r,
    checkModrinthVersionAvailability w pid mc l log
    = (Fulfilled r, log ++ [GetVersions pid mc l])
    ∧ (truthy_flag r = true
       ↔ ∃ v, Resolver.getBestTargetVersion w pid mc l log
              = (Fulfilled (Some v), log ++ [GetVersions pid mc l]))
    ∧ (r = None ↔ Resolver.listed_versions w pid mc l = None).
Proof.
  unfold checkModrinthVersionAvailability. unfold mbind, Net_bind.
  rewrite ResolverFacts.fetchModrinthVersions_run, ResolverFacts.getBestTargetVersion_run.
  eexists. split; [reflexivity|].
  destruct (Resolver.listed_versions w pid mc l) as [[|v vs]|] eqn:Hl;
    cbn [fmap option_fmap option_map truthy_flag default length bool_decide].
  - split; [|done]. split; [done|]. by intros [v [=]].
  - split; [|done]. split; [intros _|done].
    destruct (VersionPolicyFacts.head_array_sort (v :: vs)) as (k & b & Hb & _); [done|].
    exists b. unfold VersionPolicy.pickBest. by rewrite Hb.
  - split; [|done]. split; [done|]. by intros [v [=]].
Qed.


(** *** The list of items *)

Lemma find_item_Some id l it :
  find_item id l = Some it → it ∈ l ∧ i_id it = id.
Proof.
  unfold find_item. induction l as [|x l IH]; simpl; [done|].
  case_bool_decide as Hx.
  - intros [= <-]. split; [by left|done].
  - intros [Hin Hid]%IH. split; [by right|done].
Qed.

Lemma find_item_None id l : find_item id l = None ↔ id ∉ i_id <$> l.
Proof.
  unfold find_item. induction l as [|x l IH]; simpl.
  { split; [intros _ ?%elem_of_nil|]; done. }
  rewrite not_elem_of_cons. case_bool_decide as Hx.
  - split; [done|]. by intros [? _].
  - rewrite IH. split; [by split|by intros [_ ?]].
Qed.

Lemma find_item_NoDup id l it :
  NoDup (i_id <$> l) → it ∈ l → i_id it = id → find_item id l = Some it.
Proof.
  unfold find_item. induction l as [|x l IH]; simpl; [by intros _ ?%elem_of_nil|].
  intros [Hx Hnd]%NoDup_cons [->|Hin]%elem_of_cons Hid.
  - by rewrite bool_decide_eq_true_2.
  - rewrite bool_decide_eq_false_2; [by apply IH|].
    intros Hx'. apply Hx. apply list_elem_of_fmap. exists it. split; [congruence|done].
Qed.

Section update_facts.
Context (id : string) (f : Item → Item).
Hypothesis keeps_id : ∀ it, i_id (f it) = i_id it.

Lemma update_first_ids l : i_id <$> update_first id f l = i_id <$> l.
Proof using keeps_id.
  induction l as [|x l IH]; [done|]. cbn [update_first].
  case_decide; rewrite !fmap_cons; [by rewrite keeps_id|by rewrite IH].
Qed.

Lemma find_update_first_eq l :
  find_item id (update_first id f l) = f <$> find_item id l.
Proof using keeps_id.
  unfold find_item. induction l as [|x l IH]; simpl; [done|].
  case_decide as Hx; simpl.
  - by rewrite !bool_decide_eq_true_2 by (by rewrite ?keeps_id).
  - by rewrite !bool_decide_eq_false_2 by done.
Qed.

Lemma find_update_first_ne id' l :
  id' ≠ id → find_item id' (update_first id f l) = find_item id' l.
Proof using keeps_id.
  intros Hne. unfold find_item. induction l as [|x l IH]; simpl; [done|].
  case_decide as Hx; simpl.
  - rewrite keeps_id. by rewrite !bool_decide_eq_false_2 by congruence.
  - by rewrite IH.
Qed.

Lemma update_first_Forall (P : Item → Prop) l :
  Forall P l → (∀ it, it ∈ l → i_id it = id → P (f it)) →
  Forall P (update_first id f l).
Proof.
  induction 1 as [|x l Hx Hl IH]; intros Hf; simpl; [constructor|].
  case_decide as Hid.
  - constructor; [|done]. apply Hf; [by left|done].
  - constructor; [done|]. apply IH. intros it Hin. apply Hf. by right.
Qed.

End update_facts.

Lemma find_item_snoc id l it :
  find_item id (l ++ [it])
  = match find_item id l with
    | Some x => Some x
    | None => if decide (i_id it = id) then Some it else None
    end.
Proof.
  unfold find_item. induction l as [|x l IH]; simpl.
  - case_bool_decide; by case_decide.
  - case_bool_decide; [done|]. apply IH.
Qed.

Lemma find_item_filter id id' l :
  find_item id' (filter (λ it, i_id it ≠ id) l)
  = if decide (id' = id) then None else find_item id' l.
Proof.
  unfold find_item. induction l as [|x l IH]; simpl; [by case_decide|].
  rewrite filter_cons. destruct (decide (i_id x ≠ id)) as [Hx|Hx]; simpl.
  - rewrite IH. case_bool_decide as Hx'; [|done].
    destruct (decide (id' = id)); [congruence|done].
  - rewrite IH. destruct (decide (id' = id)); [done|].
    rewrite bool_decide_eq_false_2; [done|].
    apply dec_stable in Hx. congruence.
Qed.

Lemma Forall_filter_keep {A : Type} (P Q : A → Prop) `{∀ x, Decision (Q x)} l :
  Forall P l → Forall P (filter Q l).
Proof.
  induction 1 as [|x l Hx _ IH]; [constructor|].
  rewrite filter_cons. case_decide; [by constructor|done].
Qed.

Lemma filter_ids_NoDup id l :
  NoDup (i_id <$> l) → NoDup (i_id <$> filter (λ it, i_id it ≠ id) l).
Proof.
  induction l as [|x l IH]; [done|]. rewrite fmap_cons.
  intros [Hx Hnd]%NoDup_cons. rewrite filter_cons.
  case_decide; [|by apply IH]. rewrite fmap_cons.
  apply NoDup_cons. split; [|by apply IH].
  intros (y & Hy & [_ Hin]%list_elem_of_filter)%list_elem_of_fmap.
  apply Hx. apply list_elem_of_fmap. by exists y.
Qed.


(** *** The operations on a tidy slot *)

Section store_facts.
Context (fits : Data → bool) (resolve : string → string → option string).

Local Abbreviation current its := (mkData (Some MISSING_ITEMS_VERSION) (Some its)).

(** A current slot is read as it is, without an upgrade. *)
Lemma read_current st :
  current_slot st →
  getMissingItems fits resolve st = (current (held_items st), st).
Proof. by intros [->|(its & ->)]. Qed.

Lemma tidy_current st : tidy st → current_slot st.
Proof. intros [->|(its & -> & _)]; [by left|right; by exists its]. Qed.

Lemma read_tidy st :
  tidy st →
  getMissingItems fits resolve st = (current (held_items st), st)
  ∧ NoDup (i_id <$> held_items st)
  ∧ Forall (λ it, ∃ names, lists_packs it names) (held_items st).
Proof.
  intros [->|(its & -> & Hnd & Hall)]; simpl.
  - split_and!; [done|constructor|constructor].
  - by split_and!.
Qed.

Lemma save_current its st :
  current_slot st → current_slot (saveMissingItems fits (current its) st).2.
Proof.
  intros Hst. unfold saveMissingItems.
  destruct (fits (current its)); simpl; [|done]. right. by exists its.
Qed.

Lemma save_tidy its st :
  tidy st → NoDup (i_id <$> its) →
  Forall (λ it, ∃ names, lists_packs it names) its →
  tidy (saveMissingItems fits (current its) st).2.
Proof.
  intros Hst Hnd Hall. unfold saveMissingItems.
  destruct (fits (current its)); simpl; [|done].
  right. by exists its.
Qed.

Lemma lists_packs_of it names : lists_packs it names → packs_of it = names.
Proof.
  intros (_ & Hplain & Ho). unfold packs_of. rewrite Ho.
  by apply TextFacts.parse_join.
Qed.

Lemma with_modpack_id s now it : i_id (with_modpack s now it) = i_id it.
Proof. done. Qed.

Lemma with_modpack_only_id s it : i_id (with_modpack_only s it) = i_id it.
Proof. done. Qed.

Lemma with_status_id f stamp it : i_id (with_status f stamp it) = i_id it.
Proof. done. Qed.

(** How [addMissingItem] runs on a tidy slot. *)
Lemma addMissingItem_run now n c mc pack pid l st :
  current_slot st →
  addMissingItem fits resolve now n c mc pack pid l st
  = match find_item (Text.item_id c n mc) (held_items st) with
    | Some existing =>
        if decide (pack ∈ packs_of existing) then (Fulfilled existing, st)
        else
          let joined := Text.join_comma_space (packs_of existing ++ [pack]) in
          (Fulfilled (with_modpack joined now existing),
           (saveMissingItems fits
              (current (update_first (Text.item_id c n mc)
                          (with_modpack joined now) (held_items st))) st).2)
    | None =>
        let item :=
          mkItem (Text.item_id c n mc) n c mc (Some pack) pid
                 (Some (or_str l (getDefaultLoaderForCategory c))) now None
                 (Some false) in
        (Fulfilled item,
         (saveMissingItems fits (current (held_items st ++ [item])) st).2)
    end.
Proof.
  intros Hst. unfold addMissingItem.
  rewrite (read_current st Hst). simpl.
  destruct (find_item (Text.item_id c n mc) (held_items st)); [|done].
  unfold packs_of. by case_decide.
Qed.

Lemma removeMissingItem_run id st :
  current_slot st →
  removeMissingItem fits resolve id st
  = (Fulfilled (),
     (saveMissingItems fits
        (current (filter (λ it, i_id it ≠ id) (held_items st))) st).2).
Proof.
  intros Hst. unfold removeMissingItem. by rewrite (read_current st Hst).
Qed.

Lemma updateMissingItemStatus_run id f stamp st :
  current_slot st →
  updateMissingItemStatus fits resolve id f stamp st
  = (Fulfilled (),
     match find_item id (held_items st) with
     | Some _ =>
         (saveMissingItems fits
            (current (update_first id (with_status f stamp) (held_items st))) st).2
     | None => st
     end).
Proof.
  intros Hst. unfold updateMissingItemStatus.
  rewrite (read_current st Hst). simpl.
  by destruct (find_item id (held_items st)).
Qed.

Lemma removeMissingItemFromModpack_run id pack st :
  current_slot st →
  removeMissingItemFromModpack fits resolve id pack st
  = (Fulfilled (),
     match find_item id (held_items st) with
     | Some item =>
         (saveMissingItems fits
            (current
               match filter (λ mp, mp ≠ pack) (packs_of item) with
               | [] => filter (λ it, i_id it ≠ id) (held_items st)
               | _ :: _ =>
                   update_first id
                     (with_modpack_only
                        (Text.join_comma_space
                           (filter (λ mp, mp ≠ pack) (packs_of item))))
                     (held_items st)
               end) st).2
     | None => st
     end).
Proof.
  intros Hst. unfold removeMissingItemFromModpack.
  rewrite (read_current st Hst). simpl.
  by destruct (find_item id (held_items st)).
Qed.

Lemma lists_packs_snoc it names pack now :
  lists_packs it names → Text.plain_name pack →
  lists_packs (with_modpack (Text.join_comma_space (names ++ [pack])) now it)
              (names ++ [pack]).
Proof.
  intros (Hne & Hplain & _) Hp. split_and!; [by destruct names| |done].
  apply Forall_app. split; [done|by constructor].
Qed.

(** X20. A slot that is empty or well kept (current data, no two items
    with the same id, every item listing plain pack names) stays so under
    every operation of the tracker, whether or not the browser accepts the
    write, and none of the operations rejects on such a slot.  The name of
    the pack handed to [addMissingItem] has to be plain. *)
Theorem store_stays_tidy st :
  tidy st →
  (∀ now n c mc pack pid l, Text.plain_name pack →
     tidy (addMissingItem fits resolve now n c mc pack pid l st).2
     ∧ ∃ it, (addMissingItem fits resolve now n c mc pack pid l st).1 = Fulfilled it)
  ∧ (∀ id, tidy (removeMissingItem fits resolve id st).2
           ∧ (removeMissingItem fits resolve id st).1 = Fulfilled ())
  ∧ (∀ id f stamp,
       tidy (updateMissingItemStatus fits resolve id f stamp st).2
       ∧ (updateMissingItemStatus fits resolve id f stamp st).1 = Fulfilled ())
  ∧ (∀ id pack,
       tidy (removeMissingItemFromModpack fits resolve id pack st).2
       ∧ (removeMissingItemFromModpack fits resolve id pack st).1 = Fulfilled ())
  ∧ tidy (clearMissingItems fits st).
Proof.
  intros Hst. destruct (read_tidy st Hst) as (_ & Hnd & Hall).
  pose proof (tidy_current st Hst) as Hcur. split_and!.
  - intros now n c mc pack pid l Hp. rewrite addMissingItem_run by done.
    destruct (find_item (Text.item_id c n mc) (held_items st)) as [ex|] eqn:Hf.
    + case_decide; simpl; [eauto|]. split; [|eauto].
      apply save_tidy; [done|by rewrite update_first_ids|].
      apply update_first_Forall; [done|]. intros it Hin Hid.
      rewrite Forall_forall in Hall.
      destruct (find_item_Some _ _ _ Hf) as [Hex _].
      destruct (Hall ex Hex) as [names Hn].
      assert (it = ex) as ->.
      { destruct (find_item_Some _ _ _ Hf) as [_ Hexid].
        pose proof (find_item_NoDup _ _ it Hnd Hin Hid) as Hit. congruence. }
      exists (names ++ [pack]). rewrite (lists_packs_of _ _ Hn).
      by apply lists_packs_snoc.
    + simpl. split; [|eauto]. apply save_tidy; [done| |].
      * rewrite fmap_app. apply NoDup_app. split_and!; [done| |apply NoDup_singleton].
        intros x Hx ->%list_elem_of_singleton. simpl in Hx.
        by apply find_item_None in Hf.
      * apply Forall_app. split; [done|]. constructor; [|constructor].
        exists [pack]. split_and!; [done|by constructor|done].
  - intros id. rewrite removeMissingItem_run by done. simpl. split; [|done].
    apply save_tidy; [done|by apply filter_ids_NoDup|by apply Forall_filter_keep].
  - intros id f stamp. rewrite updateMissingItemStatus_run by done. simpl.
    split; [|done]. destruct (find_item id (held_items st)); [|done].
    apply save_tidy; [done|by rewrite update_first_ids|].
    apply update_first_Forall; [done|]. intros it Hin _.
    rewrite Forall_forall in Hall. destruct (Hall it Hin) as [names Hn].
    by exists names.
  - intros id pack. rewrite removeMissingItemFromModpack_run by done. simpl.
    split; [|done]. destruct (find_item id (held_items st)) as [item|] eqn:Hf; [|done].
    rewrite Forall_forall in Hall.
    destruct (find_item_Some _ _ _ Hf) as [Hitem Hid].
    destruct (Hall item Hitem) as [names Hn].
    rewrite (lists_packs_of _ _ Hn).
    destruct (filter (λ mp, mp ≠ pack) names) as [|m ms] eqn:Hfil.
    + apply save_tidy; [done|by apply filter_ids_NoDup|].
      apply Forall_filter_keep, Forall_forall. done.
    + apply save_tidy; [done|by rewrite update_first_ids|].
      apply update_first_Forall; [by apply Forall_forall|]. intros it Hin Hitid.
      exists (m :: ms). split_and!; [done| |done].
      rewrite <- Hfil. apply Forall_filter_keep. by destruct Hn as (_ & ? & _).
  - unfold clearMissingItems. apply save_tidy; [done|constructor|constructor].
Qed.


Lemma save_fits data st :
  (∀ d, fits d = true) → (saveMissingItems fits data st).2 = Held data.
Proof. intros Hfits. unfold saveMissingItems. by rewrite Hfits. Qed.

(** X21. On a tidy slot that accepts writes, [addMissingItem] with a
    plain pack name returns the item stored under the id of its
    arguments, and this item lists the pack; the items stored under other
    ids are left as they were; and a second call with the same category,
    name, target and pack changes nothing and returns the same item. *)
Theorem addMissingItem_records_pack_once now n c mc pack pid l st :
  tidy st → Text.plain_name pack → (∀ d, fits d = true) →
  ∃ it st1,
    addMissingItem fits resolve now n c mc pack pid l st = (Fulfilled it, st1)
    ∧ find_item (Text.item_id c n mc) (held_items st1) = Some it
    ∧ pack ∈ packs_of it
    ∧ (∀ id', id' ≠ Text.item_id c n mc →
         find_item id' (held_items st1) = find_item id' (held_items st))
    ∧ ∀ now' pid' l',
        addMissingItem fits resolve now' n c mc pack pid' l' st1
        = (Fulfilled it, st1).
Proof.
  intros Hst Hp Hfits. destruct (read_tidy st Hst) as (_ & Hnd & Hall).
  pose proof (tidy_current st Hst) as Hcur.
  assert (∀ it st1,
            current_slot st1 →
            find_item (Text.item_id c n mc) (held_items st1) = Some it →
            pack ∈ packs_of it →
            ∀ now' pid' l',
              addMissingItem fits resolve now' n c mc pack pid' l' st1
              = (Fulfilled it, st1)) as Hagain.
  { intros it st1 Hc1 Hf Hin now' pid' l'.
    rewrite addMissingItem_run by done. rewrite Hf. by rewrite decide_True. }
  rewrite addMissingItem_run by done.
  destruct (find_item (Text.item_id c n mc) (held_items st)) as [ex|] eqn:Hf.
  - destruct (find_item_Some _ _ _ Hf) as [Hex Hexid].
    rewrite Forall_forall in Hall. destruct (Hall ex Hex) as [names Hn].
    case_decide as Hin.
    + exists ex, st. split_and!; try done. by apply Hagain.
    + cbv zeta. rewrite save_fits by done.
      rewrite (lists_packs_of _ _ Hn) in *.
      set (it := with_modpack (Text.join_comma_space (names ++ [pack])) now ex).
      assert (packs_of it = names ++ [pack]) as Hpacks.
      { apply (lists_packs_of it). by apply lists_packs_snoc. }
      assert (find_item (Text.item_id c n mc)
                (update_first (Text.item_id c n mc)
                   (with_modpack (Text.join_comma_space (names ++ [pack])) now)
                   (held_items st)) = Some it) as Hfind.
      { rewrite find_update_first_eq by done. by rewrite Hf. }
      eexists it, _. split_and!; [done|done| | |].
      * rewrite Hpacks. apply elem_of_app. right. by apply list_elem_of_singleton.
      * intros id' Hne. simpl. by rewrite find_update_first_ne.
      * apply Hagain; [right; by eexists|done|].
        rewrite Hpacks. apply elem_of_app. right. by apply list_elem_of_singleton.
  - cbv zeta. rewrite save_fits by done.
    set (it := mkItem (Text.item_id c n mc) n c mc (Some pack) pid
                      (Some (or_str l (getDefaultLoaderForCategory c))) now None
                      (Some false)).
    assert (packs_of it = [pack]) as Hpacks.
    { unfold packs_of. simpl. apply (TextFacts.parse_join [pack]). by constructor. }
    assert (find_item (Text.item_id c n mc) (held_items st ++ [it]) = Some it)
      as Hfind.
    { rewrite find_item_snoc, Hf. by rewrite decide_True. }
    eexists it, _. split_and!; [done|done| | |].
    + rewrite Hpacks. by apply list_elem_of_singleton.
    + intros id' Hne. simpl. rewrite find_item_snoc.
      destruct (find_item id' (held_items st)); [done|].
      by rewrite decide_False.
    + apply Hagain; [right; by eexists|done|].
      rewrite Hpacks. by apply list_elem_of_singleton.
Qed.

(** X22. On a tidy slot that accepts writes,
    [removeMissingItemFromModpack] takes the pack off the item stored
    under the id and touches nothing else: the item goes on listing its
    other packs, in their order, with its other fields as they were; when
    it listed no other pack the item is removed; items under other ids
    stay as they were. *)
Theorem removeMissingItemFromModpack_drops_pack id pack st item :
  tidy st → (∀ d, fits d = true) →
  find_item id (held_items st) = Some item →
  ∃ st1,
    removeMissingItemFromModpack fits resolve id pack st = (Fulfilled (), st1)
    ∧ (∀ id', id' ≠ id →
         find_item id' (held_items st1) = find_item id' (held_items st))
    ∧ match filter (λ mp, mp ≠ pack) (packs_of item) with
      | [] => find_item id (held_items st1) = None
      | rest =>
          ∃ it, find_item id (held_items st1) = Some it
                ∧ packs_of it = rest
                ∧ it = with_modpack_only (Text.join_comma_space rest) item
      end.
Proof.
  intros Hst Hfits Hf. destruct (read_tidy st Hst) as (_ & Hnd & Hall).
  pose proof (tidy_current st Hst) as Hcur.
  rewrite removeMissingItemFromModpack_run by done. rewrite Hf.
  rewrite save_fits by done. eexists. split; [reflexivity|].
  destruct (find_item_Some _ _ _ Hf) as [Hitem Hid].
  rewrite Forall_forall in Hall. destruct (Hall item Hitem) as [names Hn].
  rewrite (lists_packs_of _ _ Hn).
  destruct (filter (λ mp, mp ≠ pack) names) as [|m ms] eqn:Hfil; simpl.
  - split.
    + intros id' Hne. rewrite find_item_filter. by rewrite decide_False.
    + rewrite find_item_filter. by rewrite decide_True.
  - split.
    + intros id' Hne. by rewrite find_update_first_ne.
    + rewrite find_update_first_eq by done. rewrite Hf. simpl.
      eexists. split_and!; [done| |done].
      unfold packs_of. simpl. apply (TextFacts.parse_join (m :: ms)).
      rewrite <- Hfil. apply Forall_filter_keep. by destruct Hn as (_ & ? & _).
Qed.

(** X23. A pack whose name holds a comma followed by a space can be
    added to an item but not taken off it again: the item stored by
    [addMissingItem] does not list the name among its packs, and after
    [removeMissingItemFromModpack] with the same name the item is still
    stored. *)
Theorem pack_name_with_separator_sticks now n c mc pack pid l st :
  tidy st → (∀ d, fits d = true) →
  (∃ pre post, Text.chars pack = pre ++ Text.chars ", " ++ post) →
  ∃ it st1 st2,
    addMissingItem fits resolve now n c mc pack pid l st = (Fulfilled it, st1)
    ∧ find_item (Text.item_id c n mc) (held_items st1) = Some it
    ∧ (pack ∉ packs_of it)
    ∧ removeMissingItemFromModpack fits resolve (Text.item_id c n mc) pack st1
      = (Fulfilled (), st2)
    ∧ is_Some (find_item (Text.item_id c n mc) (held_items st2)).
Proof.
  intros Hst Hfits Hsep. pose proof (tidy_current st Hst) as Hcur.
  assert (∀ it its,
            find_item (Text.item_id c n mc) its = Some it →
            (∃ s, originalModpack it = Some s ∧ s ≠ "") →
            ∃ st2,
              removeMissingItemFromModpack fits resolve (Text.item_id c n mc) pack
                (Held (current its)) = (Fulfilled (), st2)
              ∧ is_Some (find_item (Text.item_id c n mc) (held_items st2)))
    as Hremove.
  { intros it its Hf (s & Hs & Hne).
    rewrite removeMissingItemFromModpack_run by (right; by eexists).
    simpl held_items. rewrite Hf, save_fits by done.
    eexists. split; [reflexivity|].
    assert (filter (λ mp, mp ≠ pack) (packs_of it) = packs_of it) as ->.
    { apply BuilderFacts.filter_all, Forall_forall. intros m Hm ->.
      by apply (TextFacts.parse_misses_separator (originalModpack it) pack). }
    unfold packs_of at 1. rewrite Hs.
    destruct (Text.parseModpackNames (Some s)) as [|m ms] eqn:Hparse.
    { by apply TextFacts.parse_nonempty in Hparse. }
    simpl. rewrite find_update_first_eq by done. rewrite Hf. by eexists. }
  rewrite addMissingItem_run by done.
  destruct (find_item (Text.item_id c n mc) (held_items st)) as [ex|] eqn:Hf.
  - rewrite decide_False by (by apply TextFacts.parse_misses_separator).
    cbv zeta. rewrite save_fits by done.
    set (joined := Text.join_comma_space (packs_of ex ++ [pack])).
    assert (find_item (Text.item_id c n mc)
              (update_first (Text.item_id c n mc) (with_modpack joined now)
                 (held_items st)) = Some (with_modpack joined now ex)) as Hfind.
    { rewrite find_update_first_eq by done. by rewrite Hf. }
    destruct (Hremove _ _ Hfind) as (st2 & Hrun & Hstill).
    { exists joined. split; [done|]. intros Hempty.
      destruct (TextFacts.join_comma_space_snoc (packs_of ex) pack) as [pre Hpre].
      fold joined in Hpre. rewrite Hempty in Hpre.
      destruct Hsep as (p & q & Hpack). rewrite Hpack in Hpre.
      by destruct pre, p. }
    eexists _, _, st2. split_and!; [done|done| |done|done].
    by apply TextFacts.parse_misses_separator.
  - cbv zeta. rewrite save_fits by done.
    set (it := mkItem (Text.item_id c n mc) n c mc (Some pack) pid
                      (Some (or_str l (getDefaultLoaderForCategory c))) now None
                      (Some false)).
    assert (find_item (Text.item_id c n mc) (held_items st ++ [it]) = Some it)
      as Hfind.
    { rewrite find_item_snoc, Hf. by rewrite decide_True. }
    destruct (Hremove _ _ Hfind) as (st2 & Hrun & Hstill).
    { exists pack. split; [done|]. intros ->.
      destruct Hsep as (p & q & Hpack). by destruct p. }
    eexists _, _, st2. split_and!; [done|done| |done|done].
    by apply TextFacts.parse_misses_separator.
Qed.


(** X24. On a tidy slot that accepts writes, [removeMissingItem] removes
    the item stored under the id and [updateMissingItemStatus] changes the
    status and the time of the last check of that item, and of no other;
    for an id that is not stored, [updateMissingItemStatus] leaves the slot
    as it is. *)
Theorem one_item_is_touched id st :
  tidy st → (∀ d, fits d = true) →
  (∃ st1,
     removeMissingItem fits resolve id st = (Fulfilled (), st1)
     ∧ find_item id (held_items st1) = None
     ∧ ∀ id', id' ≠ id →
         find_item id' (held_items st1) = find_item id' (held_items st))
  ∧ (∀ f stamp,
       ∃ st1,
         updateMissingItemStatus fits resolve id f stamp st = (Fulfilled (), st1)
         ∧ find_item id (held_items st1)
           = with_status f stamp <$> find_item id (held_items st)
         ∧ (find_item id (held_items st) = None → st1 = st)
         ∧ ∀ id', id' ≠ id →
             find_item id' (held_items st1) = find_item id' (held_items st)).
Proof.
  intros Hst Hfits. pose proof (tidy_current st Hst) as Hcur. split.
  - rewrite removeMissingItem_run by done. rewrite save_fits by done.
    eexists. split; [reflexivity|]. simpl. split.
    + rewrite find_item_filter. by rewrite decide_True.
    + intros id' Hne. rewrite find_item_filter. by rewrite decide_False.
  - intros f stamp. rewrite updateMissingItemStatus_run by done.
    destruct (find_item id (held_items st)) as [it|] eqn:Hf.
    + rewrite save_fits by done. eexists. split; [reflexivity|]. simpl.
      split_and!; [|done|].
      * rewrite find_update_first_eq by done. by rewrite Hf.
      * intros id' Hne. by rewrite find_update_first_ne.
    + exists st. by split_and!.
Qed.

(** *** The upgrade of older data *)

Lemma upgrade_item_spec it it' :
  upgrade_item resolve it = Some it' →
  truthy (projectId it') = true ∧ truthy (loader it') = true
  ∧ i_id it' = i_id it ∧ name it' = name it ∧ category it' = category it
  ∧ originalModpack it' = originalModpack it
  ∧ (truthy (projectId it) = true → projectId it' = projectId it)
  ∧ (truthy (projectId it) = true → truthy (loader it) = true → it' = it).
Proof.
  unfold upgrade_item.
  assert (truthy (Some (getDefaultLoaderForCategory (category it))) = true) as Hdef.
  { unfold getDefaultLoaderForCategory. by repeat case_decide. }
  destruct (truthy (projectId it)) eqn:Hp; simpl.
  - destruct (truthy (loader it)) eqn:Hl; simpl; intros [= <-]; by split_and!.
  - destruct (or_null (resolve (name it) (category it))) as [rid|] eqn:Hr; [|done].
    intros [= <-]. simpl. split_and!; try done.
    unfold or_null in Hr.
    destruct (truthy (resolve (name it) (category it))) eqn:Ht; [|done].
    rewrite Hr in Ht. exact Ht.
Qed.

(** X25. Data of a version below 3 is upgraded when it is read: what
    [getMissingItems] returns is of version 3, and every item of it has a
    project id and a loader.  The items come from the stored ones in their
    order, with id, name, category and packs as stored; an item that had
    both fields is returned as it was, one that had a project id keeps it,
    and an item is left out only when it had no project id and none could
    be resolved for its name.  The upgraded data is written back when the
    browser accepts it; otherwise the slot is left as it was. *)
Theorem getMissingItems_upgrades_old_data data :
  outdated data = true →
  ∃ its',
    (getMissingItems fits resolve (Held data)).1
    = mkData (Some MISSING_ITEMS_VERSION) (Some its')
    ∧ its' = omap (upgrade_item resolve) (default [] (items data))
    ∧ Forall (λ it', truthy (projectId it') = true ∧ truthy (loader it') = true) its'
    ∧ i_id <$> its' `sublist_of` i_id <$> default [] (items data)
    ∧ (∀ it, it ∈ default [] (items data) →
         match upgrade_item resolve it with
         | Some it' =>
             i_id it' = i_id it ∧ name it' = name it
             ∧ category it' = category it
             ∧ originalModpack it' = originalModpack it
             ∧ (truthy (projectId it) = true → projectId it' = projectId it)
             ∧ (truthy (projectId it) = true → truthy (loader it) = true →
                it' = it)
         | None =>
             truthy (projectId it) = false
             ∧ truthy (resolve (name it) (category it)) = false
         end)
    ∧ (getMissingItems fits resolve (Held data)).2
      = (if fits (mkData (Some MISSING_ITEMS_VERSION) (Some its'))
         then Held (mkData (Some MISSING_ITEMS_VERSION) (Some its'))
         else Held data).
Proof.
  intros Hold. unfold getMissingItems. rewrite Hold. simpl.
  eexists. split; [reflexivity|]. split; [reflexivity|]. split_and!.
  - apply Forall_forall. intros it' (it & _ & Hit)%list_elem_of_omap.
    by destruct (upgrade_item_spec _ _ Hit) as (? & ? & _).
  - induction (default [] (items data)) as [|it l IH]; simpl; [constructor|].
    destruct (upgrade_item resolve it) as [it'|] eqn:Hit; simpl.
    + destruct (upgrade_item_spec _ _ Hit) as (_ & _ & -> & _).
      by apply sublist_skip.
    + by apply sublist_cons.
  - intros it _. destruct (upgrade_item resolve it) as [it'|] eqn:Hit.
    + by destruct (upgrade_item_spec _ _ Hit) as (_ & _ & ? & ? & ? & ? & ? & ?).
    + unfold upgrade_item in Hit.
      destruct (truthy (projectId it)) eqn:Hp; simpl in Hit.
      { by destruct (truthy (loader it)). }
      split; [done|]. unfold or_null in Hit.
      destruct (resolve (name it) (category it)) as [rid|]; [|done].
      by destruct (truthy (Some rid)).
  - unfold saveMissingItems. by destruct (fits _).
Qed.

End store_facts.


(** *** The check for updates *)

Lemma check_run w pid mc l log :
  checkModrinthVersionAvailability w pid mc l log
  = (Fulfilled ((λ vs : list Version, bool_decide (0 < length vs))
                <$> Resolver.listed_versions w pid mc l),
     log ++ [GetVersions pid mc l]).
Proof.
  unfold checkModrinthVersionAvailability. unfold mbind, Net_bind.
  by rewrite ResolverFacts.fetchModrinthVersions_run.
Qed.

Lemma update_first_middle id f (l1 : list Item) it l2 :
  id ∉ i_id <$> l1 → i_id it = id →
  update_first id f (l1 ++ it :: l2) = l1 ++ f it :: l2.
Proof.
  intros Hnot Hid. induction l1 as [|x l1 IH]; simpl.
  - by rewrite decide_True.
  - rewrite fmap_cons, not_elem_of_cons in Hnot. destruct Hnot as [Hx Hnot].
    rewrite decide_False by done. by rewrite IH.
Qed.

Lemma checked_id w clock k it : i_id (checked w clock k it) = i_id it.
Proof. unfold checked. by destruct (availability w it). Qed.

Section check_facts.
Context (fits : Data → bool) (resolve : string → string → option string).
Hypothesis roomy : ∀ d, fits d = true.

Local Abbreviation current its := (mkData (Some MISSING_ITEMS_VERSION) (Some its)).

(** The loop, on a slot that holds the items already checked followed by
    those still to check. *)
Lemma check_loop_run w clock todo :
  ∀ before k foundCount log,
    NoDup (i_id <$> (before ++ todo)) →
    check_loop fits resolve w clock k todo (Held (current (before ++ todo)))
               foundCount log
    = (Held (current (before ++ imap (λ j it, checked w clock (k + j) it) todo)),
       Fulfilled (foundCount + length (filter (λ it, found_now w it = true) todo)),
       log ++ omap call_of todo).
Proof using roomy.
  induction todo as [|item rest IH]; intros before k foundCount log Hnd.
  { simpl. by rewrite Nat.add_0_r, !app_nil_r. }
  assert (i_id item ∉ i_id <$> before) as Hnot.
  { rewrite fmap_app, fmap_cons in Hnd. apply NoDup_app in Hnd as (_ & Hd & _).
    intros Hin. apply (Hd _ Hin). by left. }
  assert (∀ item', i_id item' = i_id item →
            NoDup (i_id <$> ((before ++ [item']) ++ rest))) as Hnd'.
  { intros item' Hid. rewrite <- app_assoc. simpl.
    rewrite fmap_app, fmap_cons, Hid, <- fmap_cons, <- fmap_app. done. }
  assert (imap (λ j it, checked w clock (k + j) it) (item :: rest)
          = checked w clock k item
            :: imap (λ j it, checked w clock (S k + j) it) rest) as ->.
  { rewrite imap_cons, Nat.add_0_r. f_equal. apply imap_ext.
    intros j it _. simpl. f_equal. lia. }
  cbn [check_loop].
  destruct (or_null (projectId item)) as [pid|] eqn:Hpid.
  - rewrite check_run.
    set (f := (λ vs : list Version, bool_decide (0 < length vs))
              <$> Resolver.listed_versions w pid (targetMcVersion item)
                    (or_str (loader item) (getDefaultLoaderForCategory (category item)))).
    assert (availability w item = Some f) as Hav.
    { unfold availability. by rewrite Hpid. }
    assert (call_of item
            = Some (GetVersions pid (targetMcVersion item)
                      (or_str (loader item)
                         (getDefaultLoaderForCategory (category item))))) as Hcall.
    { unfold call_of. by rewrite Hpid. }
    rewrite updateMissingItemStatus_run by (right; by eexists).
    simpl held_items.
    assert (find_item (i_id item) (before ++ item :: rest) = Some item) as ->.
    { apply find_item_NoDup; [done| |done]. apply elem_of_app. right. by left. }
    rewrite save_fits by done.
    rewrite update_first_middle by done. cbn [snd].
    replace (before ++ with_status f (clock k) item :: rest)
      with ((before ++ [with_status f (clock k) item]) ++ rest)
      by (by rewrite <- app_assoc).
    rewrite IH by (by apply Hnd').
    assert (found_now w item = truthy_flag f) as Hfn.
    { unfold found_now. by rewrite Hav. }
    assert (checked w clock k item = with_status f (clock k) item) as Hch.
    { unfold checked. by rewrite Hav. }
    rewrite <- !app_assoc. cbn [app omap list_omap].
    rewrite Hcall, Hch, filter_cons, Hfn.
    destruct (truthy_flag f); [rewrite decide_True by done|rewrite decide_False by done];
      cbn [length]; do 2 f_equal; f_equal; lia.
  - assert (availability w item = None) as Hav.
    { unfold availability. by rewrite Hpid. }
    assert (call_of item = None) as Hcall.
    { unfold call_of. by rewrite Hpid. }
    replace (before ++ item :: rest) with ((before ++ [item]) ++ rest)
      by (by rewrite <- app_assoc).
    rewrite IH by (by apply Hnd'). rewrite <- !app_assoc.
    assert (found_now w item = false) as Hfn.
    { unfold found_now. by rewrite Hav. }
    assert (checked w clock k item = item) as Hch.
    { unfold checked. by rewrite Hav. }
    cbn [app omap list_omap]. rewrite Hcall, Hch, filter_cons, Hfn.
    by rewrite decide_False by done.
Qed.

Lemma foundItems_NoDup its :
  NoDup (i_id <$> its) →
  foundItems its = filter (λ it, truthy_flag (found it) = true) its.
Proof.
  intros Hnd. unfold foundItems. apply AnalyzeFacts.filter_ext_in.
  apply Forall_forall. intros it Hin.
  by rewrite (find_item_NoDup _ _ it Hnd Hin eq_refl).
Qed.

(** X26. A check for updates on a tidy slot that accepts writes asks for
    the listing of every item that has a project id, in order, and writes
    to each of them what it found and when.  Its notice counts the items
    found by this check, but the names it lists are those of the items
    that were flagged as found in the slot before the check began: an item
    found for the first time is counted and not named. *)
Theorem check_names_earlier_finds w clock st log :
  tidy st → held_items st ≠ [] →
  ∃ notice st2,
    checkMissingItemsForUpdates fits resolve w clock st log
    = (notice, st2, log ++ omap call_of (held_items st))
    ∧ held_items st2 = imap (λ k it, checked w clock k it) (held_items st)
    ∧ notice
      = (if decide (0 < length (filter (λ it, found_now w it = true) (held_items st)))
         then FoundSome
                (length (filter (λ it, found_now w it = true) (held_items st)))
                (label <$> filter (λ it, truthy_flag (found it) = true)
                             (held_items st))
         else NoUpdates).
Proof using roomy.
  intros [->|(its & -> & Hnd & _)] Hne; [done|].
  unfold checkMissingItemsForUpdates.
  rewrite read_current by (right; by eexists).
  cbv [held_items items default from_option id] in *.
  destruct its as [|it0 its]; [done|].
  pose proof (check_loop_run w clock (it0 :: its) [] 0 0 log Hnd) as Hloop.
  cbn [app Nat.add] in Hloop. rewrite Hloop.
  rewrite foundItems_NoDup by done.
  eexists _, _. split; [reflexivity|]. split; reflexivity.
Qed.

End check_facts.

(** *** On a sample tracker *)

Lemma plain_vanilla_plus : Text.plain_name "Vanilla Plus".
Proof. apply TextFacts.plain_name_test. vm_compute. reflexivity. Qed.

Lemma tracked_tidy : tidy TrackerSamples.tracked.
Proof.
  right. eexists. split; [reflexivity|]. split.
  - apply NoDup_singleton.
  - constructor; [|constructor]. exists ["Vanilla Plus"].
    split_and!; [done| |reflexivity]. constructor; [|constructor].
    apply plain_vanilla_plus.
Qed.

Lemma store_stays_tidy_witness :
  tidy Absent
  ∧ tidy (addMissingItem TrackerSamples.roomy TrackerSamples.resolve_lithium
            TrackerSamples.noon "Sodium" "mod" "1.21" "Vanilla Plus"
            (Some "AANobbMI") None Absent).2.
Proof.
  assert (tidy Absent) as Hst by (by left). split; [exact Hst|].
  destruct (store_stays_tidy TrackerSamples.roomy TrackerSamples.resolve_lithium
              Absent Hst) as (Hadd & _).
  exact (proj1 (Hadd TrackerSamples.noon "Sodium" "mod" "1.21" "Vanilla Plus"
                  (Some "AANobbMI") None plain_vanilla_plus)).
Defined.

Lemma addMissingItem_records_pack_once_witness :
  ∃ it st1,
    addMissingItem TrackerSamples.roomy TrackerSamples.resolve_lithium
      TrackerSamples.noon "Sodium" "mod" "1.21" "Vanilla Plus"
      (Some "AANobbMI") None Absent = (Fulfilled it, st1)
    ∧ "Vanilla Plus" ∈ packs_of it.
Proof.
  destruct (addMissingItem_records_pack_once TrackerSamples.roomy
              TrackerSamples.resolve_lithium TrackerSamples.noon "Sodium" "mod"
              "1.21" "Vanilla Plus" (Some "AANobbMI") None Absent)
    as (it & st1 & Hrun & _ & Hin & _).
  - by left.
  - exact plain_vanilla_plus.
  - reflexivity.
  - by exists it, st1.
Defined.

Lemma removeMissingItemFromModpack_drops_pack_witness :
  ∃ item st1,
    find_item "mod-Sodium-1-21" (held_items TrackerSamples.tracked) = Some item
    ∧ removeMissingItemFromModpack TrackerSamples.roomy
        TrackerSamples.resolve_lithium "mod-Sodium-1-21" "Vanilla Plus"
        TrackerSamples.tracked = (Fulfilled (), st1)
    ∧ find_item "mod-Sodium-1-21" (held_items st1) = None.
Proof.
  eexists. 
  destruct (removeMissingItemFromModpack_drops_pack TrackerSamples.roomy
              TrackerSamples.resolve_lithium "mod-Sodium-1-21" "Vanilla Plus"
              TrackerSamples.tracked _ tracked_tidy (λ _, eq_refl) eq_refl)
    as (st1 & Hrun & _ & Hgone).
  exists st1. split; [reflexivity|]. split; [exact Hrun|]. exact Hgone.
Defined.

Lemma pack_name_with_separator_sticks_witness :
  ∃ it st1 st2,
    addMissingItem TrackerSamples.roomy TrackerSamples.resolve_lithium
      TrackerSamples.noon "Sodium" "mod" "1.21" "Builders, Inc"
      (Some "AANobbMI") None Absent = (Fulfilled it, st1)
    ∧ removeMissingItemFromModpack TrackerSamples.roomy
        TrackerSamples.resolve_lithium "mod-Sodium-1-21" "Builders, Inc" st1
      = (Fulfilled (), st2)
    ∧ is_Some (find_item "mod-Sodium-1-21" (held_items st2)).
Proof.
  destruct (pack_name_with_separator_sticks TrackerSamples.roomy
              TrackerSamples.resolve_lithium TrackerSamples.noon "Sodium" "mod"
              "1.21" "Builders, Inc" (Some "AANobbMI") None Absent)
    as (it & st1 & st2 & Hadd & _ & _ & Hrem & Hstill).
  - by left.
  - reflexivity.
  - by exists (Text.chars "Builders"), (Text.chars "Inc").
  - by exists it, st1, st2.
Defined.

Lemma one_item_is_touched_witness :
  ∃ st1,
    removeMissingItem TrackerSamples.roomy TrackerSamples.resolve_lithium
      "mod-Sodium-1-21" TrackerSamples.tracked = (Fulfilled (), st1)
    ∧ find_item "mod-Sodium-1-21" (held_items st1) = None.
Proof.
  destruct (one_item_is_touched TrackerSamples.roomy
              TrackerSamples.resolve_lithium "mod-Sodium-1-21"
              TrackerSamples.tracked tracked_tidy (λ _, eq_refl))
    as [(st1 & Hrun & Hgone & _) _].
  by exists st1.
Defined.

Lemma getMissingItems_upgrades_old_data_witness :
  outdated TrackerSamples.old_data = true
  ∧ ∃ its',
      (getMissingItems TrackerSamples.roomy TrackerSamples.resolve_lithium
         (Held TrackerSamples.old_data)).1
      = mkData (Some MISSING_ITEMS_VERSION) (Some its')
      ∧ name <$> its' = ["Lithium"].
Proof.
  split; [reflexivity|].
  destruct (getMissingItems_upgrades_old_data TrackerSamples.roomy
              TrackerSamples.resolve_lithium TrackerSamples.old_data eq_refl)
    as (its' & Hread & -> & _).
  eexists. split; [exact Hread|]. reflexivity.
Defined.


Lemma check_names_earlier_finds_witness :
  ∃ st2,
    checkMissingItemsForUpdates TrackerSamples.roomy TrackerSamples.resolve_lithium
      Samples.world (λ _, TrackerSamples.noon) TrackerSamples.tracked []
    = (FoundSome 1 [], st2, [GetVersions "AANobbMI" "1.21" "fabric"])
    ∧ found <$> held_items st2 = [Some true].
Proof.
  destruct (check_names_earlier_finds TrackerSamples.roomy
              TrackerSamples.resolve_lithium (λ _, eq_refl) Samples.world
              (λ _, TrackerSamples.noon) TrackerSamples.tracked [] tracked_tidy)
    as (notice & st2 & Hrun & Hitems & Hnotice); [done|].
  exists st2. rewrite Hrun, Hitems, Hnotice. split; reflexivity.
Defined.

End MissingItemsFacts.

(** ** More on the fallback and on the rows *)

Module EdgeFacts.
Import Resolver.

(** X27. The pattern that looks for the target runtime in the name of an
    asset also accepts the name of a build for a later patch release: when
    the name holds the target behind a dash and in front of a dot, as
    [fabric-carpet-1.21.4-...jar] does for the target [1.21], the asset
    matches, and a release that is neither a draft nor a prerelease and
    carries it is what [fetchCarpetGitHubRelease] returns. *)
Theorem fallback_accepts_patch_release_builds w targetMc r asset rest
    pre post tok c log :
  w_github w = Fulfilled (Ok (r :: rest)) →
  draft r = false → prerelease r = false → assets r = Some [asset] →
  Fallback.chars targetMc = tok ++ [c] → Fallback.is_word_char c = true →
  Fallback.chars (a_name asset)
  = pre ++ "-"%char :: Fallback.chars targetMc ++ "."%char :: post →
  Fallback.jar_re (a_name asset) = true →
  Fallback.carpet_re (a_name asset) = true →
  Fallback.asset_matches targetMc asset = true
  ∧ Fallback.fetchCarpetGitHubRelease w targetMc false log
    = (Fulfilled (Some (Fallback.build_of r asset)), log ++ [GetGitHubReleases]).
Proof.
  intros Hw Hdraft Hpre Hassets Htok Hc Hname Hjar Hcarpet.
  assert (Fallback.asset_matches targetMc asset = true) as Hmatch.
  { unfold Fallback.asset_matches. rewrite Hjar, Hcarpet. simpl.
    unfold Fallback.mcRe_test. apply FallbackFacts.token_scan_fenced.
    exists (pre ++ ["-"%char]), ("."%char :: post). split.
    { rewrite Hname, <- app_assoc. done. }
    unfold Fallback.fenced, Fallback.before_token. rewrite last_snoc. split.
    - right. right. done.
    - left. rewrite Htok, last_snoc. simpl.
      unfold Fallback.boundary, Fallback.word_at. rewrite Hc. done. }
  split; [done|].
  unfold Fallback.fetchCarpetGitHubRelease. ResolverFacts.run_net.
  rewrite Hw. simpl. rewrite Hdraft, Hpre, Hassets. simpl.
  by rewrite Hmatch.
Qed.

Lemma fallback_accepts_patch_release_builds_witness :
  ∃ r asset,
    a_name asset = "fabric-carpet-1.21.4-1.4.161.jar"
    ∧ Fallback.asset_matches "1.21" asset = true
    ∧ Fallback.fetchCarpetGitHubRelease
        {| w_versions := w_versions Samples.world;
           w_project := w_project Samples.world;
           w_github := Fulfilled (Ok [r]);
           w_fabric_meta := w_fabric_meta Samples.world |} "1.21" false []
      = (Fulfilled (Some (Fallback.build_of r asset)), [GetGitHubReleases]).
Proof.
  set (asset := Samples.carpet_jar "fabric-carpet-1.21.4-1.4.161.jar").
  set (r := mkRelease false false (Some "1.4.161") (Some 1000%Z) None (Some [asset])).
  exists r, asset. split; [reflexivity|].
  apply (fallback_accepts_patch_release_builds _ "1.21" r asset []
           (Fallback.chars "fabric-carpet") (Fallback.chars "4-1.4.161.jar")
           (Fallback.chars "1.2") "1"%char []); reflexivity.
Defined.

(** X28. For a project with a Modrinth build whose version lists files,
    the download link of the row is the address of the first file listed,
    while the file metadata cached for the builder is that of the first
    file flagged primary: when the primary file is not listed first, the
    link of the row and the file that [build] packages are two different
    files. *)
Theorem download_link_is_first_file w c pid v f0 fs :
  primary_candidate w c pid = Some v → files v = Some (f0 :: fs) →
  ∃ r, Analyze.task w c pid = Fulfilled r
       ∧ download_url r = or_null (f_url f0)
       ∧ ∀ f, List.find f_primary (f0 :: fs) = Some f →
              target_file_url r = or_null (f_url f)
              ∧ target_file_sha1 r = or_null (f_sha1 f).
Proof.
  intros Hv Hfiles. rewrite AnalyzeFacts.task_settles, Hv.
  eexists. split; [reflexivity|]. unfold Analyze.row_with. simpl.
  rewrite Hfiles. split; [done|]. intros f Hf.
  simpl in Hf. simpl. by rewrite Hf.
Qed.

Lemma download_link_is_first_file_witness :
  ∃ r, Analyze.task Samples.world Samples.ctx "AANobbMI" = Fulfilled r
       ∧ download_url r = f_url Samples.sources_jar
       ∧ target_file_url r = f_url Samples.main_jar.
Proof.
  destruct (download_link_is_first_file Samples.world Samples.ctx "AANobbMI"
              Samples.v_release_new Samples.sources_jar [Samples.main_jar])
    as (r & Hr & Hlink & Hfile); [vm_compute; reflexivity|reflexivity|].
  exists r. split; [exact Hr|]. split; [exact Hlink|].
  exact (proj1 (Hfile Samples.main_jar eq_refl)).
Defined.

Lemma first_valid_hit_Some sw name l hits pid :
  MissingItems.first_valid_hit sw name l hits = Some pid
  ↔ ∃ k hit title,
      hits !! k = Some hit
      ∧ MissingItems.hit_project_id hit = pid
      ∧ MissingItems.hit_title hit = Some title
      ∧ MissingItems.title_matches title name = true
      ∧ MissingItems.validated sw pid l = true
      ∧ ∀ j h, j < k → hits !! j = Some h → MissingItems.hit_rejected sw name l h.
Proof.
  induction hits as [|hit hits IH]; simpl.
  { split; [done|]. by intros (k & hit & title & Hk & _). }
  destruct (MissingItems.hit_title hit) as [title|] eqn:Ht.
  - destruct (MissingItems.title_matches title name
              && MissingItems.validated sw (MissingItems.hit_project_id hit) l)
      eqn:Hok.
    + split.
      * intros [= <-]. apply andb_true_iff in Hok as [Hm Hv].
        exists 0, hit, title. split_and!; try done. intros j h Hj. lia.
      * intros ([|k] & hit' & title' & Hk & Hpid & Ht' & Hm & Hv & Hfirst).
        { injection Hk as <-. by rewrite Hpid. }
        destruct (Hfirst 0 hit) as (t & Ht0 & Hno); [lia|done|].
        rewrite Ht in Ht0. injection Ht0 as <-. congruence.
    + rewrite IH. split.
      * intros (k & hit' & title' & Hk & Hpid & Ht' & Hm & Hv & Hfirst).
        exists (S k), hit', title'. split_and!; try done.
        intros [|j] h Hj; simpl.
        -- intros [= <-]. exists title. by split.
        -- apply Hfirst. lia.
      * intros ([|k] & hit' & title' & Hk & Hpid & Ht' & Hm & Hv & Hfirst).
        { injection Hk as <-. rewrite Ht in Ht'. injection Ht' as <-.
          rewrite Hpid, Hm, Hv in Hok. done. }
        exists k, hit', title'. split_and!; try done.
        intros j h Hj Hh. apply (Hfirst (S j)); [lia|done].
  - split; [done|].
    intros ([|k] & hit' & title' & Hk & Hpid & Ht' & Hm & Hv & Hfirst).
    + injection Hk as <-. congruence.
    + destruct (Hfirst 0 hit) as (t & Ht0 & _); [lia|done|]. congruence.
Qed.

Lemma first_valid_hit_None sw name l hits :
  MissingItems.first_valid_hit sw name l hits = None
  ↔ Forall (MissingItems.hit_rejected sw name l) hits
    ∨ ∃ k h, hits !! k = Some h ∧ MissingItems.hit_title h = None
             ∧ ∀ j h', j < k → hits !! j = Some h' →
                 MissingItems.hit_rejected sw name l h'.
Proof.
  induction hits as [|hit hits IH]; simpl.
  { split; [by left|done]. }
  destruct (MissingItems.hit_title hit) as [title|] eqn:Ht.
  - destruct (MissingItems.title_matches title name
              && MissingItems.validated sw (MissingItems.hit_project_id hit) l)
      eqn:Hok.
    + split; [done|]. intros [Hall|([|k] & h & Hk & Hh & Hfirst)].
      * apply Forall_cons in Hall as [(t & Ht0 & Hno) _]. congruence.
      * injection Hk as <-. congruence.
      * destruct (Hfirst 0 hit) as (t & Ht0 & Hno); [lia|done|]. congruence.
    + rewrite IH. split.
      * intros [Hall|(k & h & Hk & Hh & Hfirst)].
        -- left. constructor; [|done]. by exists title.
        -- right. exists (S k), h. split_and!; try done.
           intros [|j] h' Hj; simpl.
           ++ intros [= <-]. by exists title.
           ++ apply Hfirst. lia.
      * intros [Hall|([|k] & h & Hk & Hh & Hfirst)].
        -- left. by apply Forall_cons in Hall as [_ ?].
        -- injection Hk as <-. congruence.
        -- right. exists k, h. split_and!; try done.
           intros j h' Hj Hh'. apply (Hfirst (S j)); [lia|done].
  - split; [|done]. intros _. right. exists 0, hit.
    split_and!; try done. intros j h' Hj. lia.
Qed.

(** X29. [resolveProjectIdFromName] returns a project exactly when the
    search answered with hits and one of them has a title that holds the
    name or is held by it, letters compared without case, and a version
    for the validating listing request, while every hit in front of it
    has a title and fails one of the two tests; the project is that of
    this hit, the first of its kind.  It returns [null] exactly when the
    search failed or answered without hits, or every hit has a title and
    fails a test, or a hit without a title comes before any hit that
    passes. *)
Theorem resolveProjectIdFromName_first_valid_hit
    (sw : MissingItems.SearchWorld) (name category : string) :
  (∀ pid,
     MissingItems.resolveProjectIdFromName sw name category = Some pid
     ↔ ∃ hits k hit title,
         MissingItems.s_search sw name = Fulfilled (Ok (Some hits))
         ∧ hits !! k = Some hit
         ∧ MissingItems.hit_project_id hit = pid
         ∧ MissingItems.hit_title hit = Some title
         ∧ MissingItems.title_matches title name = true
         ∧ MissingItems.validated sw pid
             (MissingItems.getDefaultLoaderForCategory category) = true
         ∧ ∀ j h, j < k → hits !! j = Some h →
             MissingItems.hit_rejected sw name
               (MissingItems.getDefaultLoaderForCategory category) h)
  ∧ (MissingItems.resolveProjectIdFromName sw name category = None
     ↔ (∀ hits, MissingItems.s_search sw name ≠ Fulfilled (Ok (Some hits)))
       ∨ ∃ hits,
           MissingItems.s_search sw name = Fulfilled (Ok (Some hits))
           ∧ (Forall (MissingItems.hit_rejected sw name
                        (MissingItems.getDefaultLoaderForCategory category))
                     hits
              ∨ ∃ k h, hits !! k = Some h ∧ MissingItems.hit_title h = None
                       ∧ ∀ j h', j < k → hits !! j = Some h' →
                           MissingItems.hit_rejected sw name
                             (MissingItems.getDefaultLoaderForCategory category)
                             h')).
Proof.
  unfold MissingItems.resolveProjectIdFromName.
  set (l := MissingItems.getDefaultLoaderForCategory category).
  destruct (MissingItems.s_search sw name) as [[status|[hits|]]|e] eqn:Hs.
  - split.
    + intros pid. split; [done|]. by intros (hits & k & hit & title & ? & _).
    + split; [by left|done].
  - cbn [default from_option id]. split.
    + intros pid. rewrite first_valid_hit_Some. split.
      * intros (k & hit & title & H). by exists hits, k, hit, title.
      * intros (hits' & k & hit & title & [= <-] & H). by exists k, hit, title.
    + rewrite first_valid_hit_None. split.
      * intros H. right. by exists hits.
      * intros [Hno|(hits' & [= <-] & H)]; [by destruct (Hno hits)|done].
  - split.
    + intros pid. split; [done|]. by intros (hits & k & hit & title & ? & _).
    + split; [by left|done].
  - split.
    + intros pid. split; [done|]. by intros (hits & k & hit & title & ? & _).
    + split; [by left|done].
Qed.

Lemma resolveProjectIdFromName_first_valid_hit_witness :
  MissingItems.resolveProjectIdFromName TrackerSamples.search_lithium
    "Lithium" "mod" = Some "gvQqBUqZ"
  ∧ MissingItems.resolveProjectIdFromName TrackerSamples.search_lithium
      "Sodium" "mod" = None.
Proof.
  split.
  - apply (proj1 (resolveProjectIdFromName_first_valid_hit
                    TrackerSamples.search_lithium "Lithium" "mod")).
    eexists _, 2, _, _. split; [reflexivity|].
    split; [reflexivity|]. split; [reflexivity|]. split; [reflexivity|].
    split; [vm_compute; reflexivity|]. split; [vm_compute; reflexivity|].
    intros [|[|j]] h Hj Hh; [| |lia]; injection Hh as <-;
      eexists; (split; [reflexivity|vm_compute; reflexivity]).
  - apply (proj2 (resolveProjectIdFromName_first_valid_hit
                    TrackerSamples.search_lithium "Sodium" "mod")).
    left. intros hits. vm_compute. discriminate.
Defined.

End EdgeFacts.
